(** * Mini CRM backend: validation middleware, customer routes, lead routes

    A shallow embedding of
      - backend/middleware/validation.js  (Joi schemas, [validate], [validateQuery])
      - backend/models/Customer.js, backend/models/Lead.js (Mongoose schemas)
      - backend/routes/customers.js, backend/routes/leads.js (Express handlers)
    together with the properties of ownership checks, pagination, search,
    cascade deletion and validation that the handlers establish.

    Conventions.  Strings are byte strings; case folding and white space are
    the ASCII ones.  JSON numbers are rationals ([Q]); [Math.ceil (a / b)] is
    [Qceiling (a / b)].  A body or query object is a finite map; the order
    in which its members are enumerated is taken as given.  A collection is
    a finite map from [_id] to document.  Every handler runs in a small
    state-and-exception monad over the database and a log of the persistence
    calls it issued.  The store is reliable: a persistence call throws only
    for a cast, a validation or a duplicate key, or for a pattern that does
    not compile. *)

From Stdlib Require Import QArith Qround Ascii String.
From stdpp Require Import gmap strings list fin_maps pretty.

Set Default Proof Using "Type".

(* ================================================================== *)
(** * Characters and strings *)
(* ================================================================== *)

Definition charCode (c : ascii) : nat := nat_of_ascii c.

Definition inRange (lo hi : nat) (c : ascii) : bool :=
  (lo <=? charCode c) && (charCode c <=? hi).

Definition isUpper (c : ascii) : bool := inRange 65 90 c.
Definition isLower (c : ascii) : bool := inRange 97 122 c.
Definition isDigit (c : ascii) : bool := inRange 48 57 c.

(** [\w] of a JavaScript regular expression: [A-Za-z0-9_]. *)
Definition isWord (c : ascii) : bool :=
  isUpper c || isLower c || isDigit c || (charCode c =? 95).

(** Hexadecimal digit, either case. *)
Definition isHex (c : ascii) : bool :=
  isDigit c || inRange 97 102 c || inRange 65 70 c.

(** White space removed by [String.prototype.trim] (ASCII part). *)
Definition isSpace (c : ascii) : bool :=
  inRange 9 13 c || (charCode c =? 32).

Definition toLower (c : ascii) : ascii :=
  if isUpper c then ascii_of_nat (charCode c + 32) else c.

Fixpoint toLowerCase (s : string) : string :=
  match s with
  | EmptyString => EmptyString
  | String c s' => String (toLower c) (toLowerCase s')
  end.

Fixpoint trimStart (s : string) : string :=
  match s with
  | EmptyString => EmptyString
  | String c s' => if isSpace c then trimStart s' else s
  end.

Fixpoint trimEnd (s : string) : string :=
  match s with
  | EmptyString => EmptyString
  | String c s' =>
      match trimEnd s' with
      | EmptyString => if isSpace c then EmptyString else String c EmptyString
      | t => String c t
      end
  end.

Definition trim (s : string) : string := trimEnd (trimStart s).

Fixpoint allChars (p : ascii → bool) (s : string) : bool :=
  match s with
  | EmptyString => true
  | String c s' => p c && allChars p s'
  end.

(** The double-quote character, used by Joi's default messages. *)
Definition dquote : string := String (ascii_of_nat 34) EmptyString.

Definition quoted (s : string) : string := dquote +:+ s +:+ dquote.

(** [Array.prototype.join]. *)
Fixpoint join (sep : string) (l : list string) : string :=
  match l with
  | [] => EmptyString
  | [x] => x
  | x :: rest => x +:+ sep +:+ join sep rest
  end.

(* ================================================================== *)
(** * Regular expressions *)
(* ================================================================== *)

(** Regular expressions over bytes, matched by derivatives.  Both regular
    expressions of the code are expressed in this type: the [match] pattern of
    the Customer schema and the [$regex] filter of the customer search. *)
Inductive regex : Type :=
| REmpty : regex
| REps : regex
| RChar (p : ascii → bool) : regex
| RSeq (r1 r2 : regex) : regex
| RAlt (r1 r2 : regex) : regex
| RStar (r : regex) : regex.

Fixpoint nullable (r : regex) : bool :=
  match r with
  | REmpty => false
  | REps => true
  | RChar _ => false
  | RSeq r1 r2 => nullable r1 && nullable r2
  | RAlt r1 r2 => nullable r1 || nullable r2
  | RStar _ => true
  end.

Fixpoint deriv (c : ascii) (r : regex) : regex :=
  match r with
  | REmpty => REmpty
  | REps => REmpty
  | RChar p => if p c then REps else REmpty
  | RSeq r1 r2 =>
      if nullable r1
      then RAlt (RSeq (deriv c r1) r2) (deriv c r2)
      else RSeq (deriv c r1) r2
  | RAlt r1 r2 => RAlt (deriv c r1) (deriv c r2)
  | RStar r1 => RSeq (deriv c r1) (RStar r1)
  end.

(** Anchored match: the whole subject is in the language of [r]. *)
Fixpoint matches (r : regex) (s : string) : bool :=
  match s with
  | EmptyString => nullable r
  | String c s' => matches (deriv c r) s'
  end.

Definition RPlus (r : regex) : regex := RSeq r (RStar r).
Definition ROpt (r : regex) : regex := RAlt REps r.
Definition RAny : regex := RChar (λ _, true).

(** Unanchored search, as [RegExp.prototype.test] and [$regex] do for a
    pattern without anchors: some substring of the subject matches. *)
Definition search (r : regex) (s : string) : bool :=
  matches (RSeq (RStar RAny) (RSeq r (RStar RAny))) s.

(** Characters with a special meaning in a pattern. *)
Definition isRegexMeta (c : ascii) : bool :=
  bool_decide (c ∈ ["\"; "^"; "$"; "."; "|"; "?"; "*"; "+";
                    "("; ")"; "["; "]"; "{"; "}"]%char).

(** A literal character under the option [i]. *)
Definition RLitI (c : ascii) : regex :=
  RChar (λ x, Ascii.eqb (toLower x) (toLower c)).

(** The dot: any character but a line feed. *)
Definition RDot : regex := RChar (λ x, negb (charCode x =? 10)).

(** The pattern fragment compiled here: ordinary characters and the dot,
    under the option [i].  [None]: the pattern uses some other
    metacharacter. *)
Fixpoint compileFragment (q : string) : option regex :=
  match q with
  | EmptyString => Some REps
  | String c q' =>
      if Ascii.eqb c "." then RSeq RDot <$> compileFragment q'
      else if isRegexMeta c then None
      else RSeq (RLitI c) <$> compileFragment q'
  end.

(* ================================================================== *)
(** * JSON values and the library functions taken as given *)
(* ================================================================== *)

(** Members of a request body or query object.  [JNum] is a finite number,
    [JInf] a number literal beyond the range of a double ([Infinity] or
    [-Infinity] once parsed); [JOther] stands for [null], booleans, arrays
    and nested objects. *)
Inductive JsValue : Type :=
| JStr (s : string)
| JNum (q : Q)
| JInf
| JOther.

(** What [Joi.number()] makes of a member before its rules run: not a
    number, an infinity, a number that a double does not hold exactly, or
    the number read. *)
Inductive Conversion : Type :=
| NotANumber
| Infinite
| Unsafe
| Converted (q : Q).

(** What the code calls into and this development does not define:
    - [joi_email]: the address check behind [Joi.string().email()];
    - [joi_number]: Joi's conversion of a string that is not a plain
      run of decimal digits into a number;
    - [key_rank]: the place of a member in the order in which the runtime
      enumerates the members of a parsed body or query object (the order of
      the request text, names that are whole numbers first), which a
      finite map does not keep;
    - [pcre_compile]: the database's compilation, under option [i], of a
      [$regex] pattern that lies outside [compileFragment] ([None]: the
      pattern is rejected and the query fails). *)
Record Externals : Type := {
  joi_email : string → bool;
  joi_number : string → Conversion;
  key_rank : gmap string JsValue → string → nat;
  pcre_compile : string → option regex
}.

(** Value of a run of decimal digits. *)
Definition digitValue (c : ascii) : Z := Z.of_nat (charCode c - 48).

Fixpoint decimalAcc (acc : Z) (s : string) : Z :=
  match s with
  | EmptyString => acc
  | String c s' => decimalAcc (10 * acc + digitValue c) s'
  end.

Definition isDecimal (s : string) : bool :=
  negb (String.eqb s EmptyString) && allChars isDigit s.

(** [Number.MAX_SAFE_INTEGER], and the numbers within it on either side. *)
Definition maxSafe : Z := 9007199254740991.

Definition isSafe (q : Q) : bool :=
  Qle_bool (inject_Z (- maxSafe)) q && Qle_bool q (inject_Z maxSafe).

(** Names sorted by ascending rank, by insertion. *)
Fixpoint insertRanked (rank : string → nat) (x : string) (l : list string)
  : list string :=
  match l with
  | [] => [x]
  | y :: l' =>
      if rank x <=? rank y then x :: l else y :: insertRanked rank x l'
  end.

Definition sortRanked (rank : string → nat) (l : list string) : list string :=
  foldr (insertRanked rank) [] l.

(* ================================================================== *)
(** * Joi: schemas and their validation *)
(* ================================================================== *)

Module Joi.

  (** Rules chained on [Joi.string()]. *)
Inductive StringRule : Type :=
  | email
  | lowercase
  | trim_
  | min (n : nat)
  | max (n : nat).

  (** Rules chained on [Joi.number()]. *)
Inductive NumberRule : Type :=
  | integer
  | nmin (z : Z)
  | nmax (z : Z).

Inductive KeyType : Type :=
  | string_ (rules : list StringRule)
  | number (rules : list NumberRule).

  (** One key of a [Joi.object({...})].  [valids] collects the values given
      to [valid(...)] and [allow(...)]; [only] is set by [valid(...)]. *)
Record Key : Type := {
    label : string;
    type : KeyType;
    valids : list string;
    only : bool;
    required : bool;
    default : option JsValue;
    messages : list (string * string)
  }.

Definition Schema : Type := list Key.

  (** An entry of [error.details]. *)
Record Detail : Type := {
    path : list string;
    message : string;
    code : string
  }.

Record Options : Type := { abortEarly : bool }.

  (** The pair [{ error, value }] returned by [schema.validate]; an empty
      [error] stands for [undefined]. *)
Record Result : Type := {
    error : list Detail;
    value : gmap string JsValue
  }.

  (** Joi's message templates, for the codes the schemas can raise. *)
Definition template (k : Key) (c : string) (limit : string) : string :=
    let l := quoted (label k) in
    if String.eqb c "any.required" then l +:+ " is required"
    else if String.eqb c "any.only"
      then l +:+ " must be one of [" +:+ join ", " (valids k) +:+ "]"
    else if String.eqb c "string.base" then l +:+ " must be a string"
    else if String.eqb c "string.empty" then l +:+ " is not allowed to be empty"
    else if String.eqb c "string.email" then l +:+ " must be a valid email"
    else if String.eqb c "string.min"
      then l +:+ " length must be at least " +:+ limit +:+ " characters long"
    else if String.eqb c "string.max"
      then l +:+ " length must be less than or equal to " +:+ limit
             +:+ " characters long"
    else if String.eqb c "number.base" then l +:+ " must be a number"
    else if String.eqb c "number.infinity" then l +:+ " cannot be infinity"
    else if String.eqb c "number.unsafe" then l +:+ " must be a safe number"
    else if String.eqb c "number.integer" then l +:+ " must be an integer"
    else if String.eqb c "number.min"
      then l +:+ " must be greater than or equal to " +:+ limit
    else if String.eqb c "number.max"
      then l +:+ " must be less than or equal to " +:+ limit
    else l +:+ " is not allowed".

Fixpoint assoc (c : string) (l : list (string * string)) : option string :=
    match l with
    | [] => None
    | (c', m) :: rest => if String.eqb c c' then Some m else assoc c rest
    end.

  (** The detail reported for code [c] on key [k]: the message given to
      [.messages({...})] when there is one, the template otherwise. *)
Definition report (k : Key) (c : string) (limit : string) : Detail :=
    {| path := [label k];
       message := match assoc c (messages k) with
                  | Some m => m
                  | None => template k c limit
                  end;
       code := c |}.

Definition hasTrim (rules : list StringRule) : bool :=
    existsb (λ r, match r with trim_ => true | _ => false end) rules.

Definition hasLowercase (rules : list StringRule) : bool :=
    existsb (λ r, match r with lowercase => true | _ => false end) rules.

  (** Conversion applied to a string before it is checked. *)
Definition coerce (rules : list StringRule) (s : string) : string :=
    let s1 := if hasLowercase rules then toLowerCase s else s in
    if hasTrim rules then trim s1 else s1.

Section WithExternals.
Context (ext : Externals).

Definition stringRule (k : Key) (s : string) (r : StringRule)
      : list Detail :=
      match r with
      | email => if joi_email ext s then [] else [report k "string.email" EmptyString]
      | lowercase => []
      | trim_ => []
      | min n =>
          if String.length s <? n then [report k "string.min" (pretty n)] else []
      | max n =>
          if n <? String.length s then [report k "string.max" (pretty n)] else []
      end.

Definition isInteger (q : Q) : bool := Qeq_bool q (inject_Z (Qfloor q)).

Definition numberRule (k : Key) (q : Q) (r : NumberRule) : list Detail :=
      match r with
      | integer => if isInteger q then [] else [report k "number.integer" EmptyString]
      | nmin z =>
          if Qle_bool (inject_Z z) q then []
          else [report k "number.min" (pretty z)]
      | nmax z =>
          if Qle_bool q (inject_Z z) then []
          else [report k "number.max" (pretty z)]
      end.

    (** What a member is as a number: numbers as they are, strings through
        Joi's numeric conversion. *)
Definition toNumber (v : JsValue) : Conversion :=
      match v with
      | JNum q => Converted q
      | JStr s =>
          if isDecimal s then Converted (inject_Z (decimalAcc 0 s))
          else joi_number ext s
      | JInf => Infinite
      | JOther => NotANumber
      end.

    (** Base type check and rules of a present member, once the allowed
        values have been tried. *)
Definition checkString (k : Key) (rules : list StringRule) (v : JsValue)
      : list Detail * option JsValue :=
      match v with
      | JStr s =>
          let s' := coerce rules s in
          if bool_decide (s' ∈ valids k) then ([], Some (JStr s'))
          else
            let onlyErr := if only k then [report k "any.only" EmptyString] else [] in
            if String.eqb s' EmptyString then
              (onlyErr ++ [report k "string.empty" EmptyString], None)
            else
              let errs := onlyErr ++ flat_map (stringRule k s') rules in
              (errs, match errs with [] => Some (JStr s') | _ => None end)
      | _ =>
          ((if only k then [report k "any.only" EmptyString] else [])
             ++ [report k "string.base" EmptyString], None)
      end.

    (** The base check of [Joi.number()] comes first: infinity, a value
        that is not a number and a number outside the safe range are
        reported on their own, and the rules run on safe numbers only. *)
Definition checkNumber (k : Key) (rules : list NumberRule) (v : JsValue)
      : list Detail * option JsValue :=
      match toNumber v with
      | Converted q =>
          if isSafe q then
            let errs := flat_map (numberRule k q) rules in
            (errs, match errs with [] => Some (JNum q) | _ => None end)
          else ([report k "number.unsafe" EmptyString], None)
      | Unsafe => ([report k "number.unsafe" EmptyString], None)
      | Infinite => ([report k "number.infinity" EmptyString], None)
      | NotANumber => ([report k "number.base" EmptyString], None)
      end.

    (** Validation of one key against the member found under its label
        ([None]: the member is absent). *)
Definition validateKey (k : Key) (v : option JsValue)
      : list Detail * option JsValue :=
      match v with
      | None =>
          if required k then ([report k "any.required" EmptyString], None)
          else ([], default k)
      | Some v =>
          match type k with
          | string_ rules => checkString k rules v
          | number rules => checkNumber k rules v
          end
      end.

Fixpoint validateKeys (s : Schema) (obj : gmap string JsValue)
      : list Detail * gmap string JsValue :=
      match s with
      | [] => ([], ∅)
      | k :: rest =>
          let '(e, v) := validateKey k (obj !! label k) in
          let '(es, m) := validateKeys rest obj in
          (e ++ es, match v with Some x => <[label k := x]> m | None => m end)
      end.

    (** [Object.keys(obj)]: the names of the members, in the order in
        which the runtime enumerates them. *)
Definition ownKeys (obj : gmap string JsValue) : list string :=
      sortRanked (key_rank ext obj) (map fst (map_to_list obj)).

    (** Members of the object that the schema does not declare, in that
        order. *)
Definition unknownKeys (s : Schema) (obj : gmap string JsValue)
      : list string :=
      List.filter (λ l, negb (bool_decide (l ∈ map label s))) (ownKeys obj).

Definition unknownDetail (l : string) : Detail :=
      {| path := [l];
         message := quoted l +:+ " is not allowed";
         code := "object.unknown" |}.

    (** [schema.validate(obj, options)]. *)
Definition validate (s : Schema) (obj : gmap string JsValue)
        (o : Options) : Result :=
      let '(errs, v) := validateKeys s obj in
      let all := errs ++ map unknownDetail (unknownKeys s obj) in
      {| error := if abortEarly o then take 1 all else all;
         value := v |}.

End WithExternals.

End Joi.

(** ** The schemas of [middleware/validation.js] *)

Definition registerNameKey : Joi.Key :=
  {| Joi.label := "name";
    Joi.type := Joi.string_ [Joi.trim_; Joi.min 2; Joi.max 50];
    Joi.valids := []; Joi.only := false;
    Joi.required := true; Joi.default := None;
    Joi.messages := [("string.empty", "Name is required");
                     ("string.min", "Name must be at least 2 characters");
                     ("string.max", "Name cannot exceed 50 characters")] |}.

Definition registerEmailKey : Joi.Key :=
  {| Joi.label := "email";
    Joi.type := Joi.string_ [Joi.email; Joi.lowercase; Joi.trim_];
    Joi.valids := []; Joi.only := false;
    Joi.required := true; Joi.default := None;
    Joi.messages := [("string.empty", "Email is required");
                     ("string.email", "Please provide a valid email address")] |}.

Definition registerPasswordKey : Joi.Key :=
  {| Joi.label := "password";
    Joi.type := Joi.string_ [Joi.min 6];
    Joi.valids := []; Joi.only := false;
    Joi.required := true; Joi.default := None;
    Joi.messages := [("string.empty", "Password is required");
                     ("string.min", "Password must be at least 6 characters")] |}.

Definition registerRoleKey : Joi.Key :=
  {| Joi.label := "role";
    Joi.type := Joi.string_ [];
    Joi.valids := ["user"; "admin"]; Joi.only := true;
    Joi.required := false; Joi.default := Some (JStr "user");
    Joi.messages := [] |}.

Definition registerSchema : Joi.Schema :=
  [registerNameKey; registerEmailKey; registerPasswordKey; registerRoleKey].

Definition loginEmailKey : Joi.Key :=
  {| Joi.label := "email";
    Joi.type := Joi.string_ [Joi.email; Joi.lowercase; Joi.trim_];
    Joi.valids := []; Joi.only := false;
    Joi.required := true; Joi.default := None;
    Joi.messages := [("string.empty", "Email is required");
                     ("string.email", "Please provide a valid email address")] |}.

Definition loginPasswordKey : Joi.Key :=
  {| Joi.label := "password";
    Joi.type := Joi.string_ [];
    Joi.valids := []; Joi.only := false;
    Joi.required := true; Joi.default := None;
    Joi.messages := [("string.empty", "Password is required")] |}.

Definition loginSchema : Joi.Schema :=
  [loginEmailKey; loginPasswordKey].

Definition customerNameKey : Joi.Key :=
  {| Joi.label := "name";
    Joi.type := Joi.string_ [Joi.trim_; Joi.min 2; Joi.max 100];
    Joi.valids := []; Joi.only := false;
    Joi.required := true; Joi.default := None;
    Joi.messages := [("string.empty", "Customer name is required");
                     ("string.min", "Name must be at least 2 characters");
                     ("string.max", "Name cannot exceed 100 characters")] |}.

Definition customerEmailKey : Joi.Key :=
  {| Joi.label := "email";
    Joi.type := Joi.string_ [Joi.email; Joi.lowercase; Joi.trim_];
    Joi.valids := []; Joi.only := false;
    Joi.required := true; Joi.default := None;
    Joi.messages := [("string.empty", "Email is required");
                     ("string.email", "Please provide a valid email address")] |}.

Definition customerPhoneKey : Joi.Key :=
  {| Joi.label := "phone";
    Joi.type := Joi.string_ [Joi.trim_; Joi.max 20];
    Joi.valids := [EmptyString]; Joi.only := false;
    Joi.required := false; Joi.default := None;
    Joi.messages := [("string.max", "Phone number cannot exceed 20 characters")] |}.

Definition customerCompanyKey : Joi.Key :=
  {| Joi.label := "company";
    Joi.type := Joi.string_ [Joi.trim_; Joi.max 100];
    Joi.valids := [EmptyString]; Joi.only := false;
    Joi.required := false; Joi.default := None;
    Joi.messages := [("string.max", "Company name cannot exceed 100 characters")] |}.

Definition customerSchema : Joi.Schema :=
  [customerNameKey; customerEmailKey; customerPhoneKey; customerCompanyKey].

Definition leadStatuses : list string := ["New"; "Contacted"; "Converted"; "Lost"].

Definition leadTitleKey : Joi.Key :=
  {| Joi.label := "title";
    Joi.type := Joi.string_ [Joi.trim_; Joi.min 2; Joi.max 200];
    Joi.valids := []; Joi.only := false;
    Joi.required := true; Joi.default := None;
    Joi.messages := [("string.empty", "Lead title is required");
                     ("string.min", "Title must be at least 2 characters");
                     ("string.max", "Title cannot exceed 200 characters")] |}.

Definition leadDescriptionKey : Joi.Key :=
  {| Joi.label := "description";
    Joi.type := Joi.string_ [Joi.trim_; Joi.max 1000];
    Joi.valids := [EmptyString]; Joi.only := false;
    Joi.required := false; Joi.default := None;
    Joi.messages := [("string.max", "Description cannot exceed 1000 characters")] |}.

Definition leadStatusKey : Joi.Key :=
  {| Joi.label := "status";
    Joi.type := Joi.string_ [];
    Joi.valids := leadStatuses; Joi.only := true;
    Joi.required := false; Joi.default := Some (JStr "New");
    Joi.messages := [] |}.

Definition leadValueKey : Joi.Key :=
  {| Joi.label := "value";
    Joi.type := Joi.number [Joi.nmin 0];
    Joi.valids := []; Joi.only := false;
    Joi.required := false; Joi.default := Some (JNum 0);
    Joi.messages := [("number.min", "Value cannot be negative")] |}.

Definition leadSchema : Joi.Schema :=
  [leadTitleKey; leadDescriptionKey; leadStatusKey; leadValueKey].

Definition paginationPageKey : Joi.Key :=
  {| Joi.label := "page";
    Joi.type := Joi.number [Joi.integer; Joi.nmin 1];
    Joi.valids := []; Joi.only := false;
    Joi.required := false; Joi.default := Some (JNum 1);
    Joi.messages := [] |}.

Definition paginationLimitKey : Joi.Key :=
  {| Joi.label := "limit";
    Joi.type := Joi.number [Joi.integer; Joi.nmin 1; Joi.nmax 100];
    Joi.valids := []; Joi.only := false;
    Joi.required := false; Joi.default := Some (JNum 10);
    Joi.messages := [] |}.

Definition paginationQKey : Joi.Key :=
  {| Joi.label := "q";
    Joi.type := Joi.string_ [Joi.trim_; Joi.max 100];
    Joi.valids := [EmptyString]; Joi.only := false;
    Joi.required := false; Joi.default := None;
    Joi.messages := [] |}.

Definition paginationSchema : Joi.Schema :=
  [paginationPageKey; paginationLimitKey; paginationQKey].

Definition leadFilterStatusKey : Joi.Key :=
  {| Joi.label := "status";
    Joi.type := Joi.string_ [];
    Joi.valids := leadStatuses ++ [EmptyString]; Joi.only := true;
    Joi.required := false; Joi.default := None;
    Joi.messages := [] |}.

Definition leadFilterPageKey : Joi.Key :=
  {| Joi.label := "page";
    Joi.type := Joi.number [Joi.integer; Joi.nmin 1];
    Joi.valids := []; Joi.only := false;
    Joi.required := false; Joi.default := Some (JNum 1);
    Joi.messages := [] |}.

Definition leadFilterLimitKey : Joi.Key :=
  {| Joi.label := "limit";
    Joi.type := Joi.number [Joi.integer; Joi.nmin 1; Joi.nmax 100];
    Joi.valids := []; Joi.only := false;
    Joi.required := false; Joi.default := Some (JNum 10);
    Joi.messages := [] |}.

Definition leadFilterSchema : Joi.Schema :=
  [leadFilterStatusKey; leadFilterPageKey; leadFilterLimitKey].

(* ================================================================== *)
(** * Documents *)
(* ================================================================== *)

(** An ObjectId in its 24-digit lower-case hexadecimal form. *)
Definition ObjectId : Type := string.

(** Mongoose's cast of a route parameter to an ObjectId. *)
Definition castObjectId (s : string) : option ObjectId :=
  if (String.length s =? 24) && allChars isHex s
  then Some (toLowerCase s) else None.

(** Failures a handler can catch: [error.name] is ['CastError'] or
    ['ValidationError'], or [error.code] is set by the database, or the
    handler itself dereferenced [null]. *)
Inductive Exn : Type :=
| CastError
| ValidationError
| MongoError (code : Z)
| TypeError.

(** Mongoose's cast of a member to a [String] path.  Only strings are cast
    here; a body that passed [validate] holds nothing else under a string
    key. *)
Definition castString (v : JsValue) : option string :=
  match v with JStr s => Some s | _ => None end.

(** Mongoose's cast of a member to a [Number] path (numbers only, for the
    same reason). *)
Definition castNumber (v : JsValue) : option Q :=
  match v with JNum q => Some q | _ => None end.

(** Modelled from the spec: the User model (models/User.js) is not among the
    sources.  A user has a name, an email and a role ([user] or [admin]);
    the password hash plays no part in the routes below. *)
Record User : Type := {
  userName : string;
  userEmail : string;
  userRole : string
}.

(** The result of [populate('ownerId', 'name email')]. *)
Record OwnerRef : Type := {
  ownerRefId : ObjectId;
  ownerName : string;
  ownerEmail : string
}.

Module Customer.

(** A stored customer (models/Customer.js); [timestamps: true] adds
    [createdAt] and [updatedAt]. *)
Record doc : Type := {
  name : string;
  email : string;
  phone : option string;
  company : option string;
  ownerId : ObjectId;
  createdAt : Z;
  updatedAt : Z
}.

(** [/^\w+([.-]?\w+)*@\w+([.-]?\w+)*(\.\w{2,3})+$/] *)
Definition emailPattern : regex :=
  let w := RChar isWord in
  let sep := RChar (λ c, Ascii.eqb c "." || Ascii.eqb c "-") in
  let words := RSeq (RPlus w) (RStar (RSeq (ROpt sep) (RPlus w))) in
  let tld := RSeq (RChar (λ c, Ascii.eqb c ".")) (RSeq w (RSeq w (ROpt w))) in
  RSeq words (RSeq (RChar (λ c, Ascii.eqb c "@")) (RSeq words (RPlus tld))).

(** Setters and validators of each path. *)
Definition setName (s : string) : string := trim s.
Definition setEmail (s : string) : string := trim (toLowerCase s).
Definition setPhone (s : string) : string := trim s.
Definition setCompany (s : string) : string := trim s.

Definition validName (s : string) : bool :=
  negb (String.eqb s EmptyString) && (String.length s <=? 100).
Definition validEmail (s : string) : bool :=
  negb (String.eqb s EmptyString) && matches emailPattern s.
Definition validPhone (s : string) : bool := String.length s <=? 20.
Definition validCompany (s : string) : bool := String.length s <=? 100.

(** A required string path of a new document. *)
Definition requiredPath (v : option JsValue) (set : string → string)
    (valid : string → bool) : Exn + string :=
  match v with
  | None => inl ValidationError
  | Some v =>
      match castString v with
      | None => inl ValidationError
      | Some s => if valid (set s) then inr (set s) else inl ValidationError
      end
  end.

(** An optional string path of a new document. *)
Definition optionalPath (v : option JsValue) (set : string → string)
    (valid : string → bool) : Exn + option string :=
  match v with
  | None => inr None
  | Some v =>
      match castString v with
      | None => inl ValidationError
      | Some s => if valid (set s) then inr (Some (set s)) else inl ValidationError
      end
  end.

(** [new Customer({...body, ownerId})] followed by the validation that
    [save] runs.  The schema is strict: members outside its paths are
    dropped. *)
Definition create (body : gmap string JsValue) (owner : ObjectId) (now : Z)
  : Exn + doc :=
  match requiredPath (body !! "name") setName validName,
        requiredPath (body !! "email") setEmail validEmail,
        optionalPath (body !! "phone") setPhone validPhone,
        optionalPath (body !! "company") setCompany validCompany with
  | inr n, inr e, inr p, inr c =>
      inr {| name := n; email := e; phone := p; company := c;
             ownerId := owner; createdAt := now; updatedAt := now |}
  | _, _, _, _ => inl ValidationError
  end.

(** One string path of an update document, cast and checked as
    [runValidators: true] asks; [None]: the member is absent and the path is
    left alone. *)
Definition updatePath {A : Type} (v : option JsValue) (set : string → string)
    (valid : string → bool) (wrap : string → A) : Exn + option A :=
  match v with
  | None => inr None
  | Some v =>
      match castString v with
      | None => inl CastError
      | Some s =>
          if valid (set s) then inr (Some (wrap (set s))) else inl ValidationError
      end
  end.

(** An ObjectId path of an update document. *)
Definition updateRef (v : option JsValue) : Exn + option ObjectId :=
  match v with
  | None => inr None
  | Some (JStr s) =>
      match castObjectId s with
      | Some i => inr (Some i)
      | None => inl CastError
      end
  | Some _ => inl CastError
  end.

(** An update document after casting: the paths it sets. *)
Record changes : Type := {
  newName : option string;
  newEmail : option string;
  newPhone : option (option string);
  newCompany : option (option string);
  newOwnerId : option ObjectId
}.

(** Casting and validation of the update document given to
    [findByIdAndUpdate(id, body, { runValidators: true })]; it happens before
    the collection is touched. *)
Definition castUpdate (body : gmap string JsValue) : Exn + changes :=
  match updatePath (body !! "name") setName validName id with
  | inl e => inl e
  | inr n =>
  match updatePath (body !! "email") setEmail validEmail id with
  | inl e => inl e
  | inr e =>
  match updatePath (body !! "phone") setPhone validPhone Some with
  | inl e => inl e
  | inr p =>
  match updatePath (body !! "company") setCompany validCompany Some with
  | inl e => inl e
  | inr c =>
  match updateRef (body !! "ownerId") with
  | inl e => inl e
  | inr o =>
      inr {| newName := n; newEmail := e; newPhone := p; newCompany := c;
             newOwnerId := o |}
  end end end end end.

(** The matched document after the update: every path of [ch] is set and
    [updatedAt] is refreshed. *)
Definition update (ch : changes) (now : Z) (d : doc) : doc :=
  {| name := default (name d) (newName ch);
     email := default (email d) (newEmail ch);
     phone := default (phone d) (newPhone ch);
     company := default (company d) (newCompany ch);
     ownerId := default (ownerId d) (newOwnerId ch);
     createdAt := createdAt d;
     updatedAt := now |}.

(** The value of a path as a query sees it. *)
Definition path (p : string) (d : doc) : option string :=
  if String.eqb p "name" then Some (name d)
  else if String.eqb p "email" then Some (email d)
  else if String.eqb p "phone" then phone d
  else if String.eqb p "company" then company d
  else None.

End Customer.

(** The result of [populate('customerId', 'name email company')]. *)
Record CustomerRef : Type := {
  customerRefId : ObjectId;
  customerName : string;
  customerEmail : string;
  customerCompany : option string
}.

Module Lead.

(** A stored lead (models/Lead.js). *)
Record doc : Type := {
  customerId : ObjectId;
  title : string;
  description : option string;
  status : string;
  value : Q;
  createdAt : Z;
  updatedAt : Z
}.

Definition setTitle (s : string) : string := trim s.
Definition setDescription (s : string) : string := trim s.

Definition validTitle (s : string) : bool :=
  negb (String.eqb s EmptyString) && (String.length s <=? 200).
Definition validDescription (s : string) : bool := String.length s <=? 1000.
Definition validStatus (s : string) : bool :=
  bool_decide (s ∈ ["New"; "Contacted"; "Converted"; "Lost"]).
Definition validValue (q : Q) : bool := Qle_bool 0 q.

(** A path with a default: [status] and [value]. *)
Definition defaultedPath {A : Type} (v : option JsValue)
    (cast : JsValue → option A) (valid : A → bool) (dflt : A) : Exn + A :=
  match v with
  | None => inr dflt
  | Some v =>
      match cast v with
      | None => inl ValidationError
      | Some a => if valid a then inr a else inl ValidationError
      end
  end.

(** [new Lead({...body, customerId})] followed by the validation that
    [save] runs. *)
Definition create (body : gmap string JsValue) (customer : ObjectId) (now : Z)
  : Exn + doc :=
  match Customer.requiredPath (body !! "title") setTitle validTitle,
        Customer.optionalPath (body !! "description") setDescription validDescription,
        defaultedPath (body !! "status") castString validStatus "New",
        defaultedPath (body !! "value") castNumber validValue 0%Q with
  | inr t, inr d, inr s, inr v =>
      inr {| customerId := customer; title := t; description := d;
             status := s; value := v; createdAt := now; updatedAt := now |}
  | _, _, _, _ => inl ValidationError
  end.

(** A non-string path of an update document. *)
Definition updateCast {A : Type} (v : option JsValue)
    (cast : JsValue → option A) (valid : A → bool) : Exn + option A :=
  match v with
  | None => inr None
  | Some v =>
      match cast v with
      | None => inl CastError
      | Some a => if valid a then inr (Some a) else inl ValidationError
      end
  end.

Record changes : Type := {
  newTitle : option string;
  newDescription : option (option string);
  newStatus : option string;
  newValue : option Q;
  newCustomerId : option ObjectId
}.

(** Casting and validation of the update document given to
    [findOneAndUpdate(filter, body, { runValidators: true })]. *)
Definition castUpdate (body : gmap string JsValue) : Exn + changes :=
  match Customer.updatePath (body !! "title") setTitle validTitle id with
  | inl e => inl e
  | inr t =>
  match Customer.updatePath (body !! "description") setDescription
          validDescription Some with
  | inl e => inl e
  | inr ds =>
  match updateCast (body !! "status") castString validStatus with
  | inl e => inl e
  | inr s =>
  match updateCast (body !! "value") castNumber validValue with
  | inl e => inl e
  | inr v =>
  match Customer.updateRef (body !! "customerId") with
  | inl e => inl e
  | inr c =>
      inr {| newTitle := t; newDescription := ds; newStatus := s;
             newValue := v; newCustomerId := c |}
  end end end end end.

Definition update (ch : changes) (now : Z) (d : doc) : doc :=
  {| customerId := default (customerId d) (newCustomerId ch);
     title := default (title d) (newTitle ch);
     description := default (description d) (newDescription ch);
     status := default (status d) (newStatus ch);
     value := default (value d) (newValue ch);
     createdAt := createdAt d;
     updatedAt := now |}.

End Lead.

(** The three collections. *)
Record Db : Type := {
  users : gmap ObjectId User;
  customers : gmap ObjectId Customer.doc;
  leads : gmap ObjectId Lead.doc
}.

(* ================================================================== *)
(** * Requests and responses *)
(* ================================================================== *)

(** [req.user], as the authentication middleware leaves it. *)
Record Identity : Type := {
  _id : ObjectId;
  role : string
}.

(** What a request cannot choose: the ObjectId generated for a new document
    and the clock. *)
Record Env : Type := {
  newId : ObjectId;
  now : Z
}.

Record FieldError : Type := {
  field : string;
  message : string
}.

(** The [pagination] object of a list response; [totalRecords] is
    [totalCustomers] or [totalLeads]. *)
Record Pagination : Type := {
  currentPage : Q;
  totalPages : Z;
  totalRecords : nat;
  hasNextPage : bool;
  hasPrevPage : bool
}.

(** A customer with its owner populated ([None]: no such user). *)
Record CustomerView : Type := {
  customerKey : ObjectId;
  customerDoc : Customer.doc;
  owner : option OwnerRef
}.

Record CustomerItem : Type := {
  item : CustomerView;
  leadCount : nat
}.

(** A lead with its customer populated. *)
Record LeadView : Type := {
  leadKey : ObjectId;
  leadDoc : Lead.doc;
  customer : option CustomerRef
}.

(** The JSON document sent back. *)
Inductive Payload : Type :=
| Failure (error : string) (details : option (list FieldError))
| CustomerData (c : option CustomerView) (msg : string)
| CustomersData (cs : list CustomerItem) (p : Pagination)
| CustomerDetail (c : CustomerView) (ls : list (ObjectId * Lead.doc))
| LeadData (l : LeadView) (msg : option string)
| LeadsData (ls : list LeadView) (p : Pagination)
| Message (msg : string).

Record Response : Type := {
  status : Z;
  payload : Payload
}.

Definition fail (code : Z) (error : string) : Response :=
  {| status := code; payload := Failure error None |}.

(* ================================================================== *)
(** * The validation middleware *)
(* ================================================================== *)

Section Middleware.
Context (ext : Externals).

Definition fieldErrors (details : list Joi.Detail) : list FieldError :=
  map (λ detail, {| field := join "." (Joi.path detail);
                    message := Joi.message detail |}) details.

(** [validate(schema)]: either the response it sends, or the body it hands
    to [next()]. *)
Definition validate (schema : Joi.Schema) (body : gmap string JsValue)
  : Response + gmap string JsValue :=
  let r := Joi.validate ext schema body {| Joi.abortEarly := false |} in
  match Joi.error r with
  | _ :: _ =>
      inl {| status := 400;
             payload := Failure "Validation failed"
                                (Some (fieldErrors (Joi.error r))) |}
  | [] => inr (Joi.value r)
  end.

(** [validateQuery(schema)]. *)
Definition validateQuery (schema : Joi.Schema) (query : gmap string JsValue)
  : Response + gmap string JsValue :=
  let r := Joi.validate ext schema query {| Joi.abortEarly := false |} in
  match Joi.error r with
  | _ :: _ =>
      inl {| status := 400;
             payload := Failure "Query validation failed"
                                (Some (fieldErrors (Joi.error r))) |}
  | [] => inr (Joi.value r)
  end.

End Middleware.

(* ================================================================== *)
(** * The persistence layer *)
(* ================================================================== *)

(** The calls below throw for what Mongoose itself refuses: a parameter
    that is not an ObjectId, a document or an update that fails the schema,
    a duplicate key, a pattern that does not compile.  A store that cannot
    be reached is not modelled: there a call may also reject once an earlier
    call of the same handler has written, as [Customer.findByIdAndDelete]
    after [Lead.deleteMany], and the handler answers 500.  Nothing below is
    stated about such an answer. *)

(** A call on a model, as [Call "Lead" "deleteMany"]. *)
Inductive DbCall : Type := Call (model method : string).

Record World : Type := {
  db : Db;
  calls : list DbCall
}.

(** Computations that read and write the database, log their calls and may
    throw.  What was written before a throw stays written. *)
Definition M (A : Type) : Type := World → (Exn + A) * World.

#[global] Instance M_ret : MRet M := λ A a w, (inr a, w).

#[global] Instance M_bind : MBind M := λ A B f m w,
  match m w with
  | (inr a, w') => f a w'
  | (inl e, w') => (inl e, w')
  end.

Definition throw {A : Type} (e : Exn) : M A := λ w, (inl e, w).

Definition liftE {A : Type} (r : Exn + A) : M A := λ w, (r, w).

(** The world after one more call has been logged. *)
Definition logged (w : World) (model method : string) : World :=
  {| db := db w; calls := calls w ++ [Call model method] |}.

Definition call (model method : string) : M unit :=
  λ w, (inr (), logged w model method).

Definition getDb : M Db := λ w, (inr (db w), w).

Definition putDb (d : Db) : M unit :=
  λ w, (inr (), {| db := d; calls := calls w |}).

Definition castId (s : string) : M ObjectId :=
  match castObjectId s with
  | Some i => mret i
  | None => throw CastError
  end.

(** [try { ... } catch (error) { ... }] around a handler body. *)
Definition tryCatch (body : M Response) (handler : Exn → Response)
  : World → Response * World :=
  λ w, match body w with
       | (inr r, w') => (r, w')
       | (inl e, w') => (handler e, w')
       end.

Definition isCastError (e : Exn) : bool :=
  match e with CastError => true | _ => false end.

Definition hasCode (e : Exn) (c : Z) : bool :=
  match e with MongoError c' => (c' =? c)%Z | _ => false end.

(** ** Sorting and slicing *)

(** [sort({ createdAt: -1 })]: newest first. *)
Fixpoint insertDesc {A : Type} (key : A → Z) (x : A) (l : list A) : list A :=
  match l with
  | [] => [x]
  | y :: rest =>
      if (key y <=? key x)%Z then x :: y :: rest
      else y :: insertDesc key x rest
  end.

Fixpoint sortDesc {A : Type} (key : A → Z) (l : list A) : list A :=
  match l with
  | [] => []
  | x :: rest => insertDesc key x (sortDesc key rest)
  end.

(** [.skip(skip).limit(limit)] on numbers that are whole and not negative,
    as a validated query makes them. *)
Definition slice {A : Type} (skip limit : Q) (l : list A) : list A :=
  take (Z.to_nat (Qfloor limit)) (drop (Z.to_nat (Qfloor skip)) l).

(** The [pagination] object both list handlers build. *)
Definition pagination (page limit : Q) (total : nat) : Pagination :=
  let pages := Qceiling (inject_Z (Z.of_nat total) / limit) in
  {| currentPage := page;
     totalPages := pages;
     totalRecords := total;
     hasNextPage := negb (Qle_bool (inject_Z pages) page);
     hasPrevPage := negb (Qle_bool page 1) |}.

(** ** Populate *)

Definition populateOwner (d : Db) (kc : ObjectId * Customer.doc) : CustomerView :=
  {| customerKey := kc.1;
     customerDoc := kc.2;
     owner := (λ u, {| ownerRefId := Customer.ownerId kc.2;
                       ownerName := userName u;
                       ownerEmail := userEmail u |})
                <$> users d !! Customer.ownerId kc.2 |}.

Definition populateCustomer (d : Db) (kl : ObjectId * Lead.doc) : LeadView :=
  {| leadKey := kl.1;
     leadDoc := kl.2;
     customer := (λ c, {| customerRefId := Lead.customerId kl.2;
                          customerName := Customer.name c;
                          customerEmail := Customer.email c;
                          customerCompany := Customer.company c |})
                   <$> customers d !! Lead.customerId kl.2 |}.

(** ** Customer queries *)

(** The filter object of the customer list: [ownerId] when set, and the
    disjuncts [{ path: { $regex, $options: 'i' } }] of [$or]. *)
Record CustomerFilter : Type := {
  filterOwner : option ObjectId;
  filterOr : list (string * string)
}.

Section Persistence.
Context (ext : Externals).

(** Compilation of a [$regex] under option [i]. *)
Definition compileRegex (q : string) : option regex :=
  match compileFragment q with
  | Some r => Some r
  | None => pcre_compile ext q
  end.

Fixpoint compileOr (l : list (string * string)) : option (list (string * regex)) :=
  match l with
  | [] => Some []
  | (p, q) :: rest =>
      match compileRegex q, compileOr rest with
      | Some r, Some rs => Some ((p, r) :: rs)
      | _, _ => None
      end
  end.

Definition matchesOr (rs : list (string * regex)) (c : Customer.doc) : bool :=
  existsb (λ pr, match Customer.path pr.1 c with
                 | Some s => search pr.2 s
                 | None => false
                 end) rs.

Definition matchesOwner (o : option ObjectId) (c : Customer.doc) : bool :=
  match o with
  | Some i => String.eqb (Customer.ownerId c) i
  | None => true
  end.

(** A document passes the filter: the owner when one is asked for, and one
    of the disjuncts when there are any. *)
Definition matchesFilter (o : option ObjectId) (rs : list (string * regex))
    (c : Customer.doc) : bool :=
  matchesOwner o c
  && match rs with
     | [] => true
     | _ => matchesOr rs c
     end.

(** The documents a filter selects, in the collection's own order; the
    query fails when a pattern does not compile. *)
Definition selectCustomers (f : CustomerFilter) (d : Db)
  : option (list (ObjectId * Customer.doc)) :=
  (λ rs, List.filter (λ kc, matchesFilter (filterOwner f) rs kc.2)
                     (map_to_list (customers d)))
    <$> compileOr (filterOr f).

Definition Customer_find (f : CustomerFilter) (skip limit : Q)
  : M (list CustomerView) :=
  call "Customer" "find" ;;
  d ← getDb ;
  match selectCustomers f d with
  | None => throw (MongoError 51091)
  | Some l =>
      mret (populateOwner d
              <$> slice skip limit (sortDesc (λ kc, Customer.createdAt kc.2) l))
  end.

Definition Customer_countDocuments (f : CustomerFilter) : M nat :=
  call "Customer" "countDocuments" ;;
  d ← getDb ;
  match selectCustomers f d with
  | None => throw (MongoError 51091)
  | Some l => mret (length l)
  end.

End Persistence.

Definition Customer_findById (id : string)
  : M (option (ObjectId * Customer.doc)) :=
  call "Customer" "findById" ;;
  i ← castId id ;
  d ← getDb ;
  mret ((λ c, (i, c)) <$> customers d !! i).

(** [new Customer(data)] and [customer.save()]: a duplicate [_id] is the
    only unique index of the collection. *)
Definition Customer_save (env : Env) (body : gmap string JsValue)
    (owner : ObjectId) : M (ObjectId * Customer.doc) :=
  call "Customer" "save" ;;
  c ← liftE (Customer.create body owner (now env)) ;
  d ← getDb ;
  match customers d !! newId env with
  | Some _ => throw (MongoError 11000)
  | None =>
      putDb {| users := users d;
               customers := <[newId env := c]> (customers d);
               leads := leads d |} ;;
      mret (newId env, c)
  end.

Definition Customer_populate (kc : ObjectId * Customer.doc) : M CustomerView :=
  call "Customer" "populate" ;;
  d ← getDb ;
  mret (populateOwner d kc).

Definition Customer_findByIdAndUpdate (env : Env) (id : string)
    (body : gmap string JsValue) : M (option CustomerView) :=
  call "Customer" "findByIdAndUpdate" ;;
  i ← castId id ;
  ch ← liftE (Customer.castUpdate body) ;
  d ← getDb ;
  match customers d !! i with
  | None => mret None
  | Some c =>
      let c' := Customer.update ch (now env) c in
      let d' := {| users := users d;
                   customers := <[i := c']> (customers d);
                   leads := leads d |} in
      putDb d' ;;
      mret (Some (populateOwner d' (i, c')))
  end.

Definition Customer_findByIdAndDelete (id : string) : M unit :=
  call "Customer" "findByIdAndDelete" ;;
  i ← castId id ;
  d ← getDb ;
  putDb {| users := users d;
           customers := delete i (customers d);
           leads := leads d |}.

(** ** Lead queries *)

(** The filter object of the lead list. *)
Record LeadFilter : Type := {
  filterCustomer : ObjectId;
  filterStatus : option string
}.

Definition matchesLead (f : LeadFilter) (l : Lead.doc) : bool :=
  String.eqb (Lead.customerId l) (filterCustomer f)
  && match filterStatus f with
     | Some s => String.eqb (Lead.status l) s
     | None => true
     end.

Definition selectLeads (f : LeadFilter) (d : Db) : list (ObjectId * Lead.doc) :=
  List.filter (λ kl, matchesLead f kl.2) (map_to_list (leads d)).

(** [Lead.find({ customerId })] with the parameter cast by the query. *)
Definition Lead_findByCustomer (customerId : string)
  : M (list (ObjectId * Lead.doc)) :=
  call "Lead" "find" ;;
  i ← castId customerId ;
  d ← getDb ;
  mret (sortDesc (λ kl, Lead.createdAt kl.2)
          (selectLeads {| filterCustomer := i; filterStatus := None |} d)).

Definition Lead_find (customerId : string) (st : option string) (skip limit : Q)
  : M (list LeadView) :=
  call "Lead" "find" ;;
  i ← castId customerId ;
  d ← getDb ;
  mret (populateCustomer d
          <$> slice skip limit
                (sortDesc (λ kl, Lead.createdAt kl.2)
                   (selectLeads {| filterCustomer := i; filterStatus := st |} d))).

Definition Lead_countDocuments (customerId : string) (st : option string) : M nat :=
  call "Lead" "countDocuments" ;;
  i ← castId customerId ;
  d ← getDb ;
  mret (length (selectLeads {| filterCustomer := i; filterStatus := st |} d)).

(** [Lead.countDocuments({ customerId: customer._id })] on an ObjectId. *)
Definition Lead_countFor (i : ObjectId) : M nat :=
  call "Lead" "countDocuments" ;;
  d ← getDb ;
  mret (length (selectLeads {| filterCustomer := i; filterStatus := None |} d)).

Definition Lead_save (env : Env) (body : gmap string JsValue)
    (customerId : string) : M (ObjectId * Lead.doc) :=
  call "Lead" "save" ;;
  l ← liftE (match castObjectId customerId with
             | Some i => Lead.create body i (now env)
             | None => inl ValidationError
             end) ;
  d ← getDb ;
  match leads d !! newId env with
  | Some _ => throw (MongoError 11000)
  | None =>
      putDb {| users := users d;
               customers := customers d;
               leads := <[newId env := l]> (leads d) |} ;;
      mret (newId env, l)
  end.

Definition Lead_populate (kl : ObjectId * Lead.doc) : M LeadView :=
  call "Lead" "populate" ;;
  d ← getDb ;
  mret (populateCustomer d kl).

(** The lead selected by [{ _id: leadId, customerId }]. *)
Definition lookupLead (d : Db) (l c : ObjectId) : option Lead.doc :=
  match leads d !! l with
  | Some x => if String.eqb (Lead.customerId x) c then Some x else None
  | None => None
  end.

Definition Lead_findOne (leadId customerId : string) : M (option LeadView) :=
  call "Lead" "findOne" ;;
  l ← castId leadId ;
  c ← castId customerId ;
  d ← getDb ;
  mret ((λ x, populateCustomer d (l, x)) <$> lookupLead d l c).

Definition Lead_findOneAndUpdate (env : Env) (leadId customerId : string)
    (body : gmap string JsValue) : M (option LeadView) :=
  call "Lead" "findOneAndUpdate" ;;
  l ← castId leadId ;
  c ← castId customerId ;
  ch ← liftE (Lead.castUpdate body) ;
  d ← getDb ;
  match lookupLead d l c with
  | None => mret None
  | Some x =>
      let x' := Lead.update ch (now env) x in
      let d' := {| users := users d;
                   customers := customers d;
                   leads := <[l := x']> (leads d) |} in
      putDb d' ;;
      mret (Some (populateCustomer d' (l, x')))
  end.

Definition Lead_findOneAndDelete (leadId customerId : string)
  : M (option Lead.doc) :=
  call "Lead" "findOneAndDelete" ;;
  l ← castId leadId ;
  c ← castId customerId ;
  d ← getDb ;
  match lookupLead d l c with
  | None => mret None
  | Some x =>
      putDb {| users := users d;
               customers := customers d;
               leads := delete l (leads d) |} ;;
      mret (Some x)
  end.

Definition Lead_deleteMany (customerId : string) : M unit :=
  call "Lead" "deleteMany" ;;
  i ← castId customerId ;
  d ← getDb ;
  putDb {| users := users d;
           customers := customers d;
           leads := filter (λ kl, Lead.customerId kl.2 ≠ i) (leads d) |}.

(* ================================================================== *)
(** * The handlers of routes/customers.js and routes/leads.js *)
(* ================================================================== *)

(** The test every by-id handler makes before it proceeds:
    [req.user.role !== 'admin' && ownerId.toString() !== req.user._id.toString()]. *)
Definition accessDenied (who : Identity) (ownerId : ObjectId) : bool :=
  negb (String.eqb (role who) "admin")
  && negb (String.eqb ownerId (_id who)).

Definition queryNumber (query : gmap string JsValue) (k : string) : option Q :=
  query !! k ≫= castNumber.

Definition queryString (query : gmap string JsValue) (k : string) : option string :=
  query !! k ≫= castString.

(** A string read from the query that is neither absent nor empty. *)
Definition truthy (s : option string) : option string :=
  match s with
  | Some x => if String.eqb x EmptyString then None else Some x
  | None => None
  end.

Section Handlers.
Context (ext : Externals) (env : Env) (who : Identity).

(** POST /api/customers *)
Definition createCustomer (body : gmap string JsValue)
  : World → Response * World :=
  tryCatch
    (kc ← Customer_save env body (_id who) ;
     v ← Customer_populate kc ;
     mret {| status := 201;
             payload := CustomerData (Some v) "Customer created successfully" |})
    (λ e, if hasCode e 11000
          then fail 400 "Customer with this email already exists"
          else fail 500 "Failed to create customer").

(** The [query] object built by the customer list. *)
Definition customerFilter (q : option string) : CustomerFilter :=
  {| filterOwner := if negb (String.eqb (role who) "admin")
                    then Some (_id who) else None;
     filterOr := match truthy q with
                 | Some q => [("name", q); ("email", q); ("company", q)]
                 | None => []
                 end |}.

Definition withLeadCount (c : CustomerView) : M CustomerItem :=
  n ← Lead_countFor (customerKey c) ;
  mret {| item := c; leadCount := n |}.

(** GET /api/customers *)
Definition listCustomers (query : gmap string JsValue)
  : World → Response * World :=
  tryCatch
    (match queryNumber query "page", queryNumber query "limit" with
     | Some page, Some limit =>
         let skip := ((page - 1) * limit)%Q in
         let f := customerFilter (queryString query "q") in
         cs ← Customer_find ext f skip limit ;
         total ← Customer_countDocuments ext f ;
         items ← mapM withLeadCount cs ;
         mret {| status := 200;
                 payload := CustomersData items (pagination page limit total) |}
     | _, _ => throw (MongoError 2)
     end)
    (λ _, fail 500 "Failed to fetch customers").

(** GET /api/customers/:id *)
Definition getCustomer (id : string) : World → Response * World :=
  tryCatch
    (found ← Customer_findById id ;
     match found with
     | None => mret (fail 404 "Customer not found")
     | Some kc =>
         d ← getDb ;
         let v := populateOwner d kc in
         denied ← (if negb (String.eqb (role who) "admin")
                   then match owner v with
                        | Some o => mret (negb (String.eqb (ownerRefId o) (_id who)))
                        | None => throw TypeError
                        end
                   else mret false) ;
         if denied : bool then mret (fail 403 "Access denied")
         else
           ls ← Lead_findByCustomer id ;
           mret {| status := 200; payload := CustomerDetail v ls |}
     end)
    (λ e, if isCastError e then fail 400 "Invalid customer ID"
          else fail 500 "Failed to fetch customer").

(** PUT /api/customers/:id *)
Definition updateCustomer (id : string) (body : gmap string JsValue)
  : World → Response * World :=
  tryCatch
    (found ← Customer_findById id ;
     match found with
     | None => mret (fail 404 "Customer not found")
     | Some kc =>
         if accessDenied who (Customer.ownerId kc.2)
         then mret (fail 403 "Access denied")
         else
           updated ← Customer_findByIdAndUpdate env id body ;
           mret {| status := 200;
                   payload := CustomerData updated "Customer updated successfully" |}
     end)
    (λ e, if isCastError e then fail 400 "Invalid customer ID"
          else if hasCode e 11000
          then fail 400 "Customer with this email already exists"
          else fail 500 "Failed to update customer").

(** DELETE /api/customers/:id *)
Definition deleteCustomer (id : string) : World → Response * World :=
  tryCatch
    (found ← Customer_findById id ;
     match found with
     | None => mret (fail 404 "Customer not found")
     | Some kc =>
         if accessDenied who (Customer.ownerId kc.2)
         then mret (fail 403 "Access denied")
         else
           Lead_deleteMany id ;;
           Customer_findByIdAndDelete id ;;
           mret {| status := 200;
                   payload := Message "Customer and associated leads deleted successfully" |}
     end)
    (λ e, if isCastError e then fail 400 "Invalid customer ID"
          else fail 500 "Failed to delete customer").

(** The opening of every lead handler: the customer of the path must exist
    and be accessible; [k] is the rest of the handler. *)
Definition withCustomer (customerId : string) (k : M Response) : M Response :=
  found ← Customer_findById customerId ;
  match found with
  | None => mret (fail 404 "Customer not found")
  | Some kc =>
      if accessDenied who (Customer.ownerId kc.2)
      then mret (fail 403 "Access denied")
      else k
  end.

(** POST /api/customers/:customerId/leads *)
Definition createLead (customerId : string) (body : gmap string JsValue)
  : World → Response * World :=
  tryCatch
    (withCustomer customerId
       (kl ← Lead_save env body customerId ;
        v ← Lead_populate kl ;
        mret {| status := 201;
                payload := LeadData v (Some "Lead created successfully") |}))
    (λ e, if isCastError e then fail 400 "Invalid customer ID"
          else fail 500 "Failed to create lead").

(** GET /api/customers/:customerId/leads *)
Definition listLeads (customerId : string) (query : gmap string JsValue)
  : World → Response * World :=
  tryCatch
    (withCustomer customerId
       (match queryNumber query "page", queryNumber query "limit" with
        | Some page, Some limit =>
            let skip := ((page - 1) * limit)%Q in
            let st := truthy (queryString query "status") in
            ls ← Lead_find customerId st skip limit ;
            total ← Lead_countDocuments customerId st ;
            mret {| status := 200;
                    payload := LeadsData ls (pagination page limit total) |}
        | _, _ => throw (MongoError 2)
        end))
    (λ e, if isCastError e then fail 400 "Invalid customer ID"
          else fail 500 "Failed to fetch leads").

(** GET /api/customers/:customerId/leads/:leadId *)
Definition getLead (customerId leadId : string) : World → Response * World :=
  tryCatch
    (withCustomer customerId
       (found ← Lead_findOne leadId customerId ;
        match found with
        | None => mret (fail 404 "Lead not found")
        | Some v => mret {| status := 200; payload := LeadData v None |}
        end))
    (λ e, if isCastError e then fail 400 "Invalid lead or customer ID"
          else fail 500 "Failed to fetch lead").

(** PUT /api/customers/:customerId/leads/:leadId *)
Definition updateLead (customerId leadId : string) (body : gmap string JsValue)
  : World → Response * World :=
  tryCatch
    (withCustomer customerId
       (found ← Lead_findOneAndUpdate env leadId customerId body ;
        match found with
        | None => mret (fail 404 "Lead not found")
        | Some v =>
            mret {| status := 200;
                    payload := LeadData v (Some "Lead updated successfully") |}
        end))
    (λ e, if isCastError e then fail 400 "Invalid lead or customer ID"
          else fail 500 "Failed to update lead").

(** DELETE /api/customers/:customerId/leads/:leadId *)
Definition deleteLead (customerId leadId : string) : World → Response * World :=
  tryCatch
    (withCustomer customerId
       (found ← Lead_findOneAndDelete leadId customerId ;
        match found with
        | None => mret (fail 404 "Lead not found")
        | Some _ =>
            mret {| status := 200; payload := Message "Lead deleted successfully" |}
        end))
    (λ e, if isCastError e then fail 400 "Invalid lead or customer ID"
          else fail 500 "Failed to delete lead").

End Handlers.

(* ================================================================== *)
(** * The router *)
(* ================================================================== *)

(** An authenticated request: method, path parameters and the raw body or
    query object. *)
Inductive Request : Type :=
| PostCustomer (body : gmap string JsValue)
| GetCustomers (query : gmap string JsValue)
| GetCustomer (id : string)
| PutCustomer (id : string) (body : gmap string JsValue)
| DeleteCustomer (id : string)
| PostLead (customerId : string) (body : gmap string JsValue)
| GetLeads (customerId : string) (query : gmap string JsValue)
| GetLead (customerId leadId : string)
| PutLead (customerId leadId : string) (body : gmap string JsValue)
| DeleteLead (customerId leadId : string).

(** A middleware followed by the handler it guards. *)
Definition guarded (checked : Response + gmap string JsValue)
    (handler : gmap string JsValue → World → Response * World)
  : World → Response * World :=
  match checked with
  | inl r => λ w, (r, w)
  | inr v => handler v
  end.

(** The routes as they are registered, after [authenticateToken]. *)
Definition serve (ext : Externals) (env : Env) (who : Identity) (r : Request)
  : World → Response * World :=
  match r with
  | PostCustomer body =>
      guarded (validate ext customerSchema body) (createCustomer env who)
  | GetCustomers query =>
      guarded (validateQuery ext paginationSchema query) (listCustomers ext who)
  | GetCustomer id => getCustomer who id
  | PutCustomer id body =>
      guarded (validate ext customerSchema body) (updateCustomer env who id)
  | DeleteCustomer id => deleteCustomer who id
  | PostLead c body =>
      guarded (validate ext leadSchema body) (createLead env who c)
  | GetLeads c query =>
      guarded (validateQuery ext leadFilterSchema query) (listLeads who c)
  | GetLead c l => getLead who c l
  | PutLead c l body =>
      guarded (validate ext leadSchema body) (updateLead env who c l)
  | DeleteLead c l => deleteLead who c l
  end.

(* ================================================================== *)
(** * Vocabulary of the statements *)
(* ================================================================== *)

(** The customers carried by a list response. *)
Definition listedCustomers (r : Response) : list CustomerItem :=
  match payload r with
  | CustomersData cs _ => cs
  | _ => []
  end.

(** The keys of the records carried by a list response, in order. *)
Definition listedKeys (r : Response) : list ObjectId :=
  match payload r with
  | CustomersData cs _ => map (λ c, customerKey (item c)) cs
  | LeadsData ls _ => map leadKey ls
  | _ => []
  end.

Definition paginationOf (r : Response) : option Pagination :=
  match payload r with
  | CustomersData _ p => Some p
  | LeadsData _ p => Some p
  | _ => None
  end.

(** The details of a validation failure. *)
Definition detailsOf (r : Response) : list FieldError :=
  match payload r with
  | Failure _ (Some ds) => ds
  | _ => []
  end.

(** The customer parameter of a by-id request. *)
Definition targetCustomer (r : Request) : option string :=
  match r with
  | PostCustomer _ => None
  | GetCustomers _ => None
  | GetCustomer id => Some id
  | PutCustomer id _ => Some id
  | DeleteCustomer id => Some id
  | PostLead c _ => Some c
  | GetLeads c _ => Some c
  | GetLead c _ => Some c
  | PutLead c _ _ => Some c
  | DeleteLead c _ => Some c
  end.

(** The lead parameter of a request on one lead. *)
Definition targetLead (r : Request) : option string :=
  match r with
  | GetLead _ l => Some l
  | PutLead _ l _ => Some l
  | DeleteLead _ l => Some l
  | _ => None
  end.

(** The schema a route checks its body or query against, with the object
    it checks. *)
Definition checkedObject (r : Request)
  : option (Joi.Schema * gmap string JsValue) :=
  match r with
  | PostCustomer body => Some (customerSchema, body)
  | GetCustomers query => Some (paginationSchema, query)
  | PutCustomer _ body => Some (customerSchema, body)
  | PostLead _ body => Some (leadSchema, body)
  | GetLeads _ query => Some (leadFilterSchema, query)
  | PutLead _ _ body => Some (leadSchema, body)
  | _ => None
  end.

(** The body of a route that writes. *)
Definition checkedBody (r : Request)
  : option (Joi.Schema * gmap string JsValue) :=
  match r with
  | PostCustomer body => Some (customerSchema, body)
  | PutCustomer _ body => Some (customerSchema, body)
  | PostLead _ body => Some (leadSchema, body)
  | PutLead _ _ body => Some (leadSchema, body)
  | _ => None
  end.

(** The errors Joi reports for the object of a request. *)
Definition schemaErrors (ext : Externals) (r : Request) : list Joi.Detail :=
  match checkedObject r with
  | Some (s, o) => Joi.error (Joi.validate ext s o {| Joi.abortEarly := false |})
  | None => []
  end.

(** Newest first: keys never increase along the list. *)
Definition descending {A : Type} (key : A → Z) (l : list A) : Prop :=
  ∀ i j x y, l !! i = Some x → l !! j = Some y → i ≤ j → (key y ≤ key x)%Z.

(** The query object a list route hands to its handler. *)
Definition validatedQuery (ext : Externals) (r : Request)
  : option (gmap string JsValue) :=
  match r with
  | GetCustomers q =>
      match validateQuery ext paginationSchema q with
      | inr v => Some v
      | inl _ => None
      end
  | GetLeads _ q =>
      match validateQuery ext leadFilterSchema q with
      | inr v => Some v
      | inl _ => None
      end
  | _ => None
  end.

(** The keys of all the records that match the filter of a list request,
    newest first: what the page is cut from and what the total counts. *)
Definition matchingKeys (ext : Externals) (who : Identity) (r : Request)
    (d : Db) : option (list ObjectId) :=
  match r with
  | GetCustomers _ =>
      v ← validatedQuery ext r ;
      sel ← selectCustomers ext (customerFilter who (queryString v "q")) d ;
      Some (map fst (sortDesc (λ kc, Customer.createdAt kc.2) sel))
  | GetLeads cid _ =>
      v ← validatedQuery ext r ;
      i ← castObjectId cid ;
      Some (map fst (sortDesc (λ kl, Lead.createdAt kl.2)
              (selectLeads {| filterCustomer := i;
                              filterStatus := truthy (queryString v "status") |} d)))
  | _ => None
  end.

(** The entry of [details] made from an entry of [error.details]. *)
Definition fieldError (d : Joi.Detail) : FieldError :=
  {| field := join "." (Joi.path d); message := Joi.message d |}.

(** The identity may act on a customer of this owner. *)
Definition mayAccess (who : Identity) (ownerId : ObjectId) : Prop :=
  role who = "admin" ∨ _id who = ownerId.

(** A list request reaches its query: always for the customer list; for the
    lead list, when the customer of the path exists and may be accessed. *)
Definition listable (who : Identity) (r : Request) (d : Db) : Prop :=
  match r with
  | GetCustomers _ => True
  | GetLeads cid _ =>
      ∃ i c, castObjectId cid = Some i ∧ customers d !! i = Some c
             ∧ mayAccess who (Customer.ownerId c)
  | _ => False
  end.

(** A response that carries exactly this list of records and this
    [pagination]. *)
Definition carries (r : Response) (keys : list ObjectId) (pg : Pagination) : Prop :=
  status r = 200%Z ∧ listedKeys r = keys ∧ paginationOf r = Some pg.

(** The pattern that spells [q] literally, under the option [i]. *)
Fixpoint literalI (q : string) : regex :=
  match q with
  | EmptyString => REps
  | String c q' => RSeq (RLitI c) (literalI q')
  end.

(** The requests that only read. *)
Definition readOnly (r : Request) : bool :=
  match r with
  | GetCustomers _ | GetCustomer _ | GetLeads _ _ | GetLead _ _ => true
  | _ => false
  end.

(** The requests on leads. *)
Definition onLeads (r : Request) : bool :=
  match r with
  | PostLead _ _ | GetLeads _ _ | GetLead _ _ | PutLead _ _ _
  | DeleteLead _ _ => true
  | _ => false
  end.

(** An instance whose e-mail check accepts every string, to run requests
    whose email the Customer schema then refuses. *)
Definition lenientExternals : Externals :=
  {| joi_email := λ _, true;
     joi_number := λ _, NotANumber;
     key_rank := λ _ _, 0;
     pcre_compile := λ _, None |}.

(** The leads carried by a list response. *)
Definition listedLeads (r : Response) : list LeadView :=
  match payload r with
  | LeadsData ls _ => ls
  | _ => []
  end.

(** What one request may do to the database, whatever it answers. *)
Inductive Effect (env : Env) (who : Identity) (d : Db) : Db → Prop :=
| Untouched : Effect env who d d
| CustomerCreated v c :
    Customer.create v (_id who) (now env) = inr c →
    customers d !! newId env = None →
    Effect env who d
      {| users := users d;
         customers := <[newId env := c]> (customers d);
         leads := leads d |}
| CustomerUpdated i c v ch :
    customers d !! i = Some c →
    Customer.castUpdate v = inr ch →
    Customer.newOwnerId ch = None →
    Effect env who d
      {| users := users d;
         customers := <[i := Customer.update ch (now env) c]> (customers d);
         leads := leads d |}
| CustomerDeleted i :
    Effect env who d
      {| users := users d;
         customers := delete i (customers d);
         leads := filter (λ kl, Lead.customerId kl.2 ≠ i) (leads d) |}
| LeadCreated i c v l :
    customers d !! i = Some c →
    Lead.create v i (now env) = inr l →
    leads d !! newId env = None →
    Effect env who d
      {| users := users d;
         customers := customers d;
         leads := <[newId env := l]> (leads d) |}
| LeadUpdated j x v ch :
    leads d !! j = Some x →
    Lead.castUpdate v = inr ch →
    Lead.newCustomerId ch = None →
    Effect env who d
      {| users := users d;
         customers := customers d;
         leads := <[j := Lead.update ch (now env) x]> (leads d) |}
| LeadDeleted j :
    Effect env who d
      {| users := users d;
         customers := customers d;
         leads := delete j (leads d) |}.

(** Requests served one after the other, each with its requester, its
    generated id and its clock. *)
Fixpoint serveAll (ext : Externals) (rs : list (Env * Identity * Request))
    (w : World) : World :=
  match rs with
  | [] => w
  | (env, who, r) :: rs => serveAll ext rs (serve ext env who r w).2
  end.

(** Every stored lead belongs to a stored customer. *)
Definition leadsAttached (d : Db) : Prop :=
  ∀ l x, leads d !! l = Some x → is_Some (customers d !! Lead.customerId x).

(** A customer and a lead that pass the validators of their models. *)
Definition validCustomer (c : Customer.doc) : Prop :=
  Customer.validName (Customer.name c) = true
  ∧ Customer.validEmail (Customer.email c) = true
  ∧ (∀ p, Customer.phone c = Some p → Customer.validPhone p = true)
  ∧ (∀ s, Customer.company c = Some s → Customer.validCompany s = true).

Definition validLead (x : Lead.doc) : Prop :=
  Lead.validTitle (Lead.title x) = true
  ∧ (∀ s, Lead.description x = Some s → Lead.validDescription s = true)
  ∧ Lead.validStatus (Lead.status x) = true
  ∧ Lead.validValue (Lead.value x) = true.

Definition validDb (d : Db) : Prop :=
  (∀ k c, customers d !! k = Some c → validCustomer c)
  ∧ (∀ l x, leads d !! l = Some x → validLead x).

(** The database before the first request. *)
Definition emptyDb : Db := {| users := ∅; customers := ∅; leads := ∅ |}.

(** ** The constraints of the body schemas

    Read off [customerSchema] and [leadSchema] member by member: one
    constructor for each way in which a member breaks its constraints, with
    the entry of [details] that reports it. *)

Definition entry (f m : string) : FieldError := {| field := f; message := m |}.

(** A required text of [lo] to [hi] characters once trimmed ([name],
    [title]). *)
Inductive requiredText (label emptyMsg shortMsg longMsg : string) (lo hi : nat)
    (v : option JsValue) : FieldError → Prop :=
| TextMissing :
    v = None →
    requiredText label emptyMsg shortMsg longMsg lo hi v
      (entry label (quoted label +:+ " is required"))
| TextNotString x :
    v = Some x → (∀ s, x ≠ JStr s) →
    requiredText label emptyMsg shortMsg longMsg lo hi v
      (entry label (quoted label +:+ " must be a string"))
| TextEmpty s :
    v = Some (JStr s) → trim s = EmptyString →
    requiredText label emptyMsg shortMsg longMsg lo hi v (entry label emptyMsg)
| TextShort s :
    v = Some (JStr s) → trim s ≠ EmptyString → String.length (trim s) < lo →
    requiredText label emptyMsg shortMsg longMsg lo hi v (entry label shortMsg)
| TextLong s :
    v = Some (JStr s) → hi < String.length (trim s) →
    requiredText label emptyMsg shortMsg longMsg lo hi v (entry label longMsg).

(** An optional text of at most [hi] characters once trimmed, which may be
    empty ([phone], [company], [description]). *)
Inductive optionalText (label longMsg : string) (hi : nat)
    (v : option JsValue) : FieldError → Prop :=
| OptionalNotString x :
    v = Some x → (∀ s, x ≠ JStr s) →
    optionalText label longMsg hi v
      (entry label (quoted label +:+ " must be a string"))
| OptionalLong s :
    v = Some (JStr s) → hi < String.length (trim s) →
    optionalText label longMsg hi v (entry label longMsg).

(** The required [email], lower-cased and trimmed before it is checked. *)
Inductive emailViolation (ext : Externals) (v : option JsValue)
  : FieldError → Prop :=
| EmailMissing :
    v = None →
    emailViolation ext v (entry "email" (quoted "email" +:+ " is required"))
| EmailNotString x :
    v = Some x → (∀ s, x ≠ JStr s) →
    emailViolation ext v (entry "email" (quoted "email" +:+ " must be a string"))
| EmailEmpty s :
    v = Some (JStr s) → trim (toLowerCase s) = EmptyString →
    emailViolation ext v (entry "email" "Email is required")
| EmailInvalid s :
    v = Some (JStr s) → trim (toLowerCase s) ≠ EmptyString →
    joi_email ext (trim (toLowerCase s)) = false →
    emailViolation ext v (entry "email" "Please provide a valid email address").

(** The [status] of a lead: one of the four, as it is written. *)
Inductive statusViolation (v : option JsValue) : FieldError → Prop :=
| StatusNotAllowed x :
    v = Some x → (∀ s, s ∈ ["New"; "Contacted"; "Converted"; "Lost"] → x ≠ JStr s) →
    statusViolation v
      (entry "status"
         (quoted "status" +:+ " must be one of [New, Contacted, Converted, Lost]"))
| StatusEmpty :
    v = Some (JStr EmptyString) →
    statusViolation v
      (entry "status" (quoted "status" +:+ " is not allowed to be empty"))
| StatusNotString x :
    v = Some x → (∀ s, x ≠ JStr s) →
    statusViolation v (entry "status" (quoted "status" +:+ " must be a string")).

(** The [value] of a lead: a safe number that is not negative. *)
Inductive valueViolation (ext : Externals) (v : option JsValue)
  : FieldError → Prop :=
| ValueNotNumber x :
    v = Some x → Joi.toNumber ext x = NotANumber →
    valueViolation ext v (entry "value" (quoted "value" +:+ " must be a number"))
| ValueInfinite x :
    v = Some x → Joi.toNumber ext x = Infinite →
    valueViolation ext v (entry "value" (quoted "value" +:+ " cannot be infinity"))
| ValueInexact x :
    v = Some x → Joi.toNumber ext x = Unsafe →
    valueViolation ext v
      (entry "value" (quoted "value" +:+ " must be a safe number"))
| ValueUnsafe x q :
    v = Some x → Joi.toNumber ext x = Converted q →
    (q < inject_Z (- maxSafe) ∨ inject_Z maxSafe < q)%Q →
    valueViolation ext v
      (entry "value" (quoted "value" +:+ " must be a safe number"))
| ValueNegative x q :
    v = Some x → Joi.toNumber ext x = Converted q →
    (inject_Z (- maxSafe) <= q)%Q → (q < 0)%Q →
    valueViolation ext v (entry "value" "Value cannot be negative").

(** A member under a name that the schema does not declare. *)
Inductive undeclared (names : list string) (body : gmap string JsValue)
  : FieldError → Prop :=
| Undeclared l :
    is_Some (body !! l) → l ∉ names →
    undeclared names body (entry l (quoted l +:+ " is not allowed")).

Definition customerViolation (ext : Externals) (body : gmap string JsValue)
    (fe : FieldError) : Prop :=
  requiredText "name" "Customer name is required"
    "Name must be at least 2 characters" "Name cannot exceed 100 characters"
    2 100 (body !! "name") fe
  ∨ emailViolation ext (body !! "email") fe
  ∨ optionalText "phone" "Phone number cannot exceed 20 characters" 20
      (body !! "phone") fe
  ∨ optionalText "company" "Company name cannot exceed 100 characters" 100
      (body !! "company") fe
  ∨ undeclared ["name"; "email"; "phone"; "company"] body fe.

Definition leadViolation (ext : Externals) (body : gmap string JsValue)
    (fe : FieldError) : Prop :=
  requiredText "title" "Lead title is required"
    "Title must be at least 2 characters" "Title cannot exceed 200 characters"
    2 200 (body !! "title") fe
  ∨ optionalText "description" "Description cannot exceed 1000 characters" 1000
      (body !! "description") fe
  ∨ statusViolation (body !! "status") fe
  ∨ valueViolation ext (body !! "value") fe
  ∨ undeclared ["title"; "description"; "status"; "value"] body fe.

(** The constraints that the body of a writing request breaks. *)
Definition bodyViolation (ext : Externals) (r : Request) (fe : FieldError)
  : Prop :=
  match r with
  | PostCustomer body | PutCustomer _ body => customerViolation ext body fe
  | PostLead _ body | PutLead _ _ body => leadViolation ext body fe
  | _ => False
  end.

(** What, apart from the ownership test, the operation of a by-id request
    needs to go through: an email that the model accepts for an update of a
    customer, a free id for a new lead, a lead stored under the customer of
    the path for the routes on one lead. *)
Definition operable (env : Env) (r : Request) (d : Db) : Prop :=
  match r with
  | GetCustomer _ | DeleteCustomer _ | GetLeads _ _ => True
  | PutCustomer _ body =>
      ∀ e, body !! "email" = Some (JStr e) →
           Customer.validEmail (trim (toLowerCase e)) = true
  | PostLead _ _ => leads d !! newId env = None
  | GetLead c l | PutLead c l _ | DeleteLead c l =>
      ∃ j x, castObjectId l = Some j ∧ leads d !! j = Some x
             ∧ castObjectId c = Some (Lead.customerId x)
  | _ => False
  end.

(** The request was carried out. *)
Definition succeeded (r : Response) : Prop :=
  status r = 200%Z ∨ status r = 201%Z.


(** ** The constraints of the query schemas *)




(** [q] is a prefix of [s], ignoring case. *)
Fixpoint prefixI (q s : string) : bool :=
  match q, s with
  | EmptyString, _ => true
  | String _ _, EmptyString => false
  | String a q', String b s' =>
      Ascii.eqb (toLower b) (toLower a) && prefixI q' s'
  end.

(** [q] occurs in [s] as a substring, ignoring case. *)
Fixpoint occursI (q s : string) : bool :=
  prefixI q s
  || match s with
     | EmptyString => false
     | String _ s' => occursI q s'
     end.

(** [q] occurs in the name, the email or the company of a customer. *)
Definition mentions (q : string) (c : Customer.doc) : bool :=
  occursI q (Customer.name c)
  || occursI q (Customer.email c)
  || match Customer.company c with
     | Some x => occursI q x
     | None => false
     end.

(** No character of [q] has a special meaning in a pattern. *)
Definition metaFree (q : string) : bool :=
  allChars (λ c, negb (isRegexMeta c)) q.

(** The customers an identity may see. *)
Definition visible (who : Identity) (c : Customer.doc) : bool :=
  String.eqb (role who) "admin" || String.eqb (Customer.ownerId c) (_id who).

(** Number of leads of a customer. *)
Definition leadsOf (d : Db) (i : ObjectId) : nat :=
  length (selectLeads {| filterCustomer := i; filterStatus := None |} d).

(** ** Reference instance of the externals and sample data *)

(** An instance used to run the model on concrete requests: the e-mail check
    is the pattern of the Customer schema, no further numeral is converted,
    members keep the order of the map and no pattern outside the fragment
    compiles. *)
Definition sampleExternals : Externals :=
  {| joi_email := λ s, matches Customer.emailPattern s;
     joi_number := λ _, NotANumber;
     key_rank := λ _ _, 0;
     pcre_compile := λ _, None |}.

Definition aliceId : ObjectId := "aaaaaaaaaaaaaaaaaaaaaaaa".
Definition bobId : ObjectId := "bbbbbbbbbbbbbbbbbbbbbbbb".
Definition rootId : ObjectId := "dddddddddddddddddddddddd".
Definition acmeId : ObjectId := "c00000000000000000000001".
Definition globexId : ObjectId := "c00000000000000000000002".
Definition dealId : ObjectId := "e00000000000000000000001".
Definition offerId : ObjectId := "e00000000000000000000002".

Definition alice : Identity := {| _id := aliceId; role := "user" |}.
Definition bob : Identity := {| _id := bobId; role := "user" |}.
Definition root : Identity := {| _id := rootId; role := "admin" |}.

Definition acme : Customer.doc :=
  {| Customer.name := "Wile Coyote"; Customer.email := "contact@acme.com";
     Customer.phone := None; Customer.company := Some "Acme Corp";
     Customer.ownerId := aliceId;
     Customer.createdAt := 100; Customer.updatedAt := 100 |}.

Definition globex : Customer.doc :=
  {| Customer.name := "abc"; Customer.email := "hank@globex.com";
     Customer.phone := Some "555"; Customer.company := None;
     Customer.ownerId := bobId;
     Customer.createdAt := 200; Customer.updatedAt := 200 |}.

Definition deal : Lead.doc :=
  {| Lead.customerId := acmeId; Lead.title := "Rocket skates";
     Lead.description := None; Lead.status := "New"; Lead.value := 1500;
     Lead.createdAt := 110; Lead.updatedAt := 110 |}.

Definition offer : Lead.doc :=
  {| Lead.customerId := globexId; Lead.title := "Doomsday device";
     Lead.description := Some "bulk"; Lead.status := "Contacted";
     Lead.value := 99 # 2;
     Lead.createdAt := 210; Lead.updatedAt := 210 |}.

Definition sampleDb : Db :=
  {| users := {[ aliceId := {| userName := "Alice"; userEmail := "alice@example.com";
                               userRole := "user" |};
                 bobId := {| userName := "Bob"; userEmail := "bob@example.com";
                             userRole := "user" |};
                 rootId := {| userName := "Root"; userEmail := "root@example.com";
                              userRole := "admin" |} ]};
     customers := {[ acmeId := acme; globexId := globex ]};
     leads := {[ dealId := deal; offerId := offer ]} |}.

Definition sampleWorld : World := {| db := sampleDb; calls := [] |}.

Definition sampleEnv : Env :=
  {| newId := "f00000000000000000000001"; now := 300 |}.

(* ================================================================== *)
(** * Sorting and slicing *)
(* ================================================================== *)

Section Sorting.
Context {A : Type} (key : A → Z).

Lemma insertDesc_Permutation x l : insertDesc key x l ≡ₚ x :: l.
Proof.
  induction l as [|y l IH]; simpl; [done|].
  destruct (key y <=? key x)%Z; [done|].
  rewrite IH. apply Permutation_swap.
Qed.

Lemma sortDesc_Permutation l : sortDesc key l ≡ₚ l.
Proof.
  induction l as [|x l IH]; simpl; [done|].
  by rewrite insertDesc_Permutation, IH.
Qed.

Lemma elem_of_sortDesc x l : x ∈ sortDesc key l ↔ x ∈ l.
Proof. by rewrite sortDesc_Permutation. Qed.

Lemma length_sortDesc l : length (sortDesc key l) = length l.
Proof. by rewrite sortDesc_Permutation. Qed.

Lemma descending_cons x l :
  descending key l → (∀ y, y ∈ l → (key y ≤ key x)%Z) → descending key (x :: l).
Proof.
  intros Hl Hx i j a b Hi Hj Hij.
  destruct i as [|i], j as [|j]; simpl in *; simplify_eq; try lia.
  - apply Hx. by eapply list_elem_of_lookup_2.
  - eapply Hl; eauto with lia.
Qed.

Lemma descending_tail x l : descending key (x :: l) → descending key l.
Proof.
  intros H i j a b Hi Hj Hij. apply (H (S i) (S j)); simpl; auto with lia.
Qed.

Lemma descending_head x l y :
  descending key (x :: l) → y ∈ l → (key y ≤ key x)%Z.
Proof.
  intros H [j Hj]%list_elem_of_lookup_1.
  apply (H 0 (S j)); simpl; auto with lia.
Qed.

Lemma insertDesc_descending x l :
  descending key l → descending key (insertDesc key x l).
Proof.
  induction l as [|y l IH]; intros Hl; simpl.
  - apply descending_cons; [done|]. intros ? ?%elem_of_nil. done.
  - destruct (key y <=? key x)%Z eqn:E.
    + apply descending_cons; [done|]. intros z Hz.
      apply Z.leb_le in E. apply elem_of_cons in Hz as [->|Hz]; [done|].
      pose proof (descending_head _ _ _ Hl Hz). lia.
    + apply Z.leb_gt in E. apply descending_cons.
      * apply IH. by eapply descending_tail.
      * intros z Hz. rewrite insertDesc_Permutation in Hz.
        apply elem_of_cons in Hz as [->|Hz]; [lia|].
        by eapply descending_head.
Qed.

Lemma sortDesc_descending l : descending key (sortDesc key l).
Proof.
  induction l as [|x l IH]; simpl.
  - intros i j a b Hi. by rewrite lookup_nil in Hi.
  - by apply insertDesc_descending.
Qed.

End Sorting.

Lemma slice_length {A : Type} (skip limit : Q) (l : list A) :
  length (slice skip limit l) ≤ Z.to_nat (Qfloor limit).
Proof. unfold slice. rewrite length_take. lia. Qed.

Lemma elem_of_slice {A : Type} (skip limit : Q) (l : list A) x :
  x ∈ slice skip limit l → x ∈ l.
Proof.
  unfold slice. intros H.
  apply elem_of_take in H as (i & H & _).
  rewrite lookup_drop in H. by eapply list_elem_of_lookup_2.
Qed.

Lemma slice_beyond {A : Type} (skip limit : Q) (l : list A) :
  length l ≤ Z.to_nat (Qfloor skip) → slice skip limit l = [].
Proof. intros H. unfold slice. rewrite drop_ge by done. apply take_nil. Qed.

(* ================================================================== *)
(** * How the handlers run *)
(* ================================================================== *)

Ltac run :=
  unfold tryCatch, mbind, M_bind, mret, M_ret, call, getDb, putDb, throw,
    liftE, castId; simpl.

Lemma logged_db w m f : db (logged w m f) = db w.
Proof. done. Qed.

Lemma logged_calls w m f : calls (logged w m f) = calls w ++ [Call m f].
Proof. done. Qed.

Lemma Customer_findById_run id w :
  Customer_findById id w =
    match castObjectId id with
    | Some i => (inr ((λ c, (i, c)) <$> customers (db w) !! i),
                 logged w "Customer" "findById")
    | None => (inl CastError, logged w "Customer" "findById")
    end.
Proof. unfold Customer_findById. run. by destruct (castObjectId id). Qed.

(** The opening of a lead handler, by cases. *)
Lemma withCustomer_run who id k w :
  withCustomer who id k w =
    let w1 := logged w "Customer" "findById" in
    match castObjectId id with
    | None => (inl CastError, w1)
    | Some i =>
        match customers (db w) !! i with
        | None => (inr (fail 404 "Customer not found"), w1)
        | Some c =>
            if accessDenied who (Customer.ownerId c)
            then (inr (fail 403 "Access denied"), w1)
            else k w1
        end
    end.
Proof.
  unfold withCustomer. unfold mbind at 1, M_bind at 1.
  rewrite Customer_findById_run.
  destruct (castObjectId id) as [i|]; [|done]. simpl.
  destruct (customers (db w) !! i) as [c|]; [|done]. simpl.
  by destruct (accessDenied who (Customer.ownerId c)).
Qed.

Lemma accessDenied_false who o : accessDenied who o = false ↔ mayAccess who o.
Proof.
  unfold accessDenied, mayAccess.
  rewrite andb_false_iff, !negb_false_iff, !String.eqb_eq.
  split; (intros [H|H]; [left|right]; congruence).
Qed.

Lemma accessDenied_true who o : accessDenied who o = true ↔ ¬ mayAccess who o.
Proof.
  rewrite <- accessDenied_false. by destruct (accessDenied who o).
Qed.

Lemma deleteCustomer_run who id w :
  deleteCustomer who id w =
    let w1 := logged w "Customer" "findById" in
    match castObjectId id with
    | None => (fail 400 "Invalid customer ID", w1)
    | Some i =>
        match customers (db w) !! i with
        | None => (fail 404 "Customer not found", w1)
        | Some c =>
            if accessDenied who (Customer.ownerId c)
            then (fail 403 "Access denied", w1)
            else
              ({| status := 200;
                  payload := Message "Customer and associated leads deleted successfully" |},
               {| db := {| users := users (db w);
                           customers := delete i (customers (db w));
                           leads := filter (λ kl, Lead.customerId kl.2 ≠ i)
                                           (leads (db w)) |};
                  calls := calls w ++ [Call "Customer" "findById";
                                       Call "Lead" "deleteMany";
                                       Call "Customer" "findByIdAndDelete"] |})
        end
    end.
Proof.
  unfold deleteCustomer, tryCatch. unfold mbind at 1, M_bind at 1.
  rewrite Customer_findById_run.
  destruct (castObjectId id) as [i|] eqn:Hi; [|done]. simpl.
  destruct (customers (db w) !! i) as [c|]; [|done]. simpl.
  destruct (accessDenied who (Customer.ownerId c)); [done|].
  unfold Lead_deleteMany, Customer_findByIdAndDelete. run.
  rewrite Hi. simpl. by rewrite <- !app_assoc.
Qed.

Lemma getLead_run who c l w :
  getLead who c l w =
    let w1 := logged w "Customer" "findById" in
    let w2 := logged w1 "Lead" "findOne" in
    match castObjectId c with
    | None => (fail 400 "Invalid lead or customer ID", w1)
    | Some i =>
        match customers (db w) !! i with
        | None => (fail 404 "Customer not found", w1)
        | Some cu =>
            if accessDenied who (Customer.ownerId cu)
            then (fail 403 "Access denied", w1)
            else
              match castObjectId l with
              | None => (fail 400 "Invalid lead or customer ID", w2)
              | Some j =>
                  match lookupLead (db w) j i with
                  | None => (fail 404 "Lead not found", w2)
                  | Some x =>
                      ({| status := 200;
                          payload := LeadData (populateCustomer (db w) (j, x)) None |},
                       w2)
                  end
              end
        end
    end.
Proof.
  unfold getLead, tryCatch. rewrite withCustomer_run. simpl.
  destruct (castObjectId c) as [i|] eqn:Hi; [|done].
  destruct (customers (db w) !! i) as [cu|]; [|done].
  destruct (accessDenied who (Customer.ownerId cu)); [done|].
  unfold Lead_findOne. run.
  destruct (castObjectId l) as [j|]; [|done]. simpl.
  rewrite Hi. simpl.
  by destruct (lookupLead (db w) j i).
Qed.

(* ================================================================== *)
(** * Cascade deletion *)
(* ================================================================== *)

(** C3.  A successful DELETE /api/customers/:id found the customer, issued
    [Lead.deleteMany] before [Customer.findByIdAndDelete], and leaves a
    database with no lead of that customer and without the customer; every
    lead of other customers is untouched, and fetching any lead under the
    deleted customer answers 404. *)
Theorem delete_customer_cascades ext env who id w resp w' :
  serve ext env who (DeleteCustomer id) w = (resp, w') →
  status resp = 200%Z →
  ∃ i c,
    castObjectId id = Some i ∧
    customers (db w) !! i = Some c ∧
    calls w' = calls w ++ [Call "Customer" "findById";
                           Call "Lead" "deleteMany";
                           Call "Customer" "findByIdAndDelete"] ∧
    customers (db w') !! i = None ∧
    (∀ k l, leads (db w') !! k = Some l → Lead.customerId l ≠ i) ∧
    (∀ k l, leads (db w) !! k = Some l → Lead.customerId l = i →
            leads (db w') !! k = None) ∧
    (∀ k l, leads (db w) !! k = Some l → Lead.customerId l ≠ i →
            leads (db w') !! k = Some l) ∧
    (∀ ext' env' who' leadId,
        status (serve ext' env' who' (GetLead id leadId) w').1 = 404%Z).
Proof.
  simpl. rewrite deleteCustomer_run. simpl. intros Hrun Hst.
  destruct (castObjectId id) as [i|] eqn:Hi; [|by simplify_eq].
  destruct (customers (db w) !! i) as [c|] eqn:Hc; [|by simplify_eq].
  destruct (accessDenied who (Customer.ownerId c)); [by simplify_eq|].
  simplify_eq. exists i, c. simpl. split_and!; try done.
  - apply lookup_delete_eq.
  - intros k l [_ H]%map_lookup_filter_Some. done.
  - intros k l Hk Hl. apply map_lookup_filter_None. right.
    intros l' Hl' H. simpl in H. congruence.
  - intros k l Hk Hl. apply map_lookup_filter_Some. done.
  - intros ext' env' who' leadId. rewrite getLead_run. simpl.
    rewrite Hi. by rewrite lookup_delete_eq.
Qed.

Lemma delete_customer_cascades_witness :
  ∃ i c,
    castObjectId acmeId = Some i ∧
    customers sampleDb !! i = Some c ∧
    leads (db (serve sampleExternals sampleEnv alice (DeleteCustomer acmeId)
                 sampleWorld).2) !! dealId = None.
Proof.
  destruct (delete_customer_cascades sampleExternals sampleEnv alice acmeId
              sampleWorld _ _ eq_refl eq_refl)
    as (i & c & Hi & Hc & _ & _ & _ & Hgone & _).
  exists i, c. split_and!; [done|done|].
  apply (Hgone dealId deal).
  - vm_compute. reflexivity.
  - vm_compute in Hi. by simplify_eq.
Defined.

Lemma getCustomer_run who id w :
  getCustomer who id w =
    let w1 := logged w "Customer" "findById" in
    match castObjectId id with
    | None => (fail 400 "Invalid customer ID", w1)
    | Some i =>
        match customers (db w) !! i with
        | None => (fail 404 "Customer not found", w1)
        | Some c =>
            let ok :=
              ({| status := 200;
                  payload := CustomerDetail (populateOwner (db w) (i, c))
                    (sortDesc (λ kl, Lead.createdAt kl.2)
                       (selectLeads {| filterCustomer := i; filterStatus := None |}
                                    (db w))) |},
               logged w1 "Lead" "find") in
            if negb (String.eqb (role who) "admin") then
              match users (db w) !! Customer.ownerId c with
              | None => (fail 500 "Failed to fetch customer", w1)
              | Some _ =>
                  if negb (String.eqb (Customer.ownerId c) (_id who))
                  then (fail 403 "Access denied", w1)
                  else ok
              end
            else ok
        end
    end.
Proof.
  unfold getCustomer, tryCatch. unfold mbind at 1, M_bind at 1.
  rewrite Customer_findById_run.
  destruct (castObjectId id) as [i|] eqn:Hi; [|done]. simpl.
  destruct (customers (db w) !! i) as [c|]; [|done]. simpl.
  unfold Lead_findByCustomer. run.
  destruct (negb (String.eqb (role who) "admin")); simpl.
  - destruct (users (db w) !! Customer.ownerId c); simpl; [|done].
    destruct (negb (String.eqb (Customer.ownerId c) (_id who))); simpl; [done|].
    by rewrite Hi.
  - by rewrite Hi.
Qed.

Lemma updateCustomer_run env who id body w :
  updateCustomer env who id body w =
    let w1 := logged w "Customer" "findById" in
    let w2 := logged w1 "Customer" "findByIdAndUpdate" in
    match castObjectId id with
    | None => (fail 400 "Invalid customer ID", w1)
    | Some i =>
        match customers (db w) !! i with
        | None => (fail 404 "Customer not found", w1)
        | Some c =>
            if accessDenied who (Customer.ownerId c)
            then (fail 403 "Access denied", w1)
            else
              match Customer.castUpdate body with
              | inl e =>
                  (if isCastError e then fail 400 "Invalid customer ID"
                   else if hasCode e 11000
                   then fail 400 "Customer with this email already exists"
                   else fail 500 "Failed to update customer", w2)
              | inr ch =>
                  let d' := {| users := users (db w);
                               customers := <[i := Customer.update ch (now env) c]>
                                              (customers (db w));
                               leads := leads (db w) |} in
                  ({| status := 200;
                      payload := CustomerData
                        (Some (populateOwner d' (i, Customer.update ch (now env) c)))
                        "Customer updated successfully" |},
                   {| db := d'; calls := calls w2 |})
              end
        end
    end.
Proof.
  unfold updateCustomer, tryCatch. unfold mbind at 1, M_bind at 1.
  rewrite Customer_findById_run.
  destruct (castObjectId id) as [i|] eqn:Hi; [|done]. simpl.
  destruct (customers (db w) !! i) as [c|] eqn:Hc; [|done]. simpl.
  destruct (accessDenied who (Customer.ownerId c)); [done|].
  unfold Customer_findByIdAndUpdate. run. rewrite Hi. simpl.
  destruct (Customer.castUpdate body) as [e|ch]; [done|]. simpl.
  by rewrite Hc.
Qed.

Lemma createCustomer_run env who body w :
  createCustomer env who body w =
    let w1 := logged w "Customer" "save" in
    match Customer.create body (_id who) (now env) with
    | inl e =>
        (if hasCode e 11000
         then fail 400 "Customer with this email already exists"
         else fail 500 "Failed to create customer", w1)
    | inr c =>
        match customers (db w) !! newId env with
        | Some _ => (fail 400 "Customer with this email already exists", w1)
        | None =>
            let d' := {| users := users (db w);
                         customers := <[newId env := c]> (customers (db w));
                         leads := leads (db w) |} in
            ({| status := 201;
                payload := CustomerData (Some (populateOwner d' (newId env, c)))
                                        "Customer created successfully" |},
             {| db := d'; calls := calls w1 ++ [Call "Customer" "populate"] |})
        end
    end.
Proof.
  unfold createCustomer, tryCatch, Customer_save, Customer_populate. run.
  destruct (Customer.create body (_id who) (now env)) as [e|c]; [done|]. simpl.
  by destruct (customers (db w) !! newId env).
Qed.

Lemma createLead_run env who cid body w :
  createLead env who cid body w =
    let w1 := logged w "Customer" "findById" in
    let w2 := logged w1 "Lead" "save" in
    match castObjectId cid with
    | None => (fail 400 "Invalid customer ID", w1)
    | Some i =>
        match customers (db w) !! i with
        | None => (fail 404 "Customer not found", w1)
        | Some c =>
            if accessDenied who (Customer.ownerId c)
            then (fail 403 "Access denied", w1)
            else
              match Lead.create body i (now env) with
              | inl e =>
                  (if isCastError e then fail 400 "Invalid customer ID"
                   else fail 500 "Failed to create lead", w2)
              | inr l =>
                  match leads (db w) !! newId env with
                  | Some _ => (fail 500 "Failed to create lead", w2)
                  | None =>
                      let d' := {| users := users (db w);
                                   customers := customers (db w);
                                   leads := <[newId env := l]> (leads (db w)) |} in
                      ({| status := 201;
                          payload := LeadData (populateCustomer d' (newId env, l))
                                              (Some "Lead created successfully") |},
                       {| db := d'; calls := calls w2 ++ [Call "Lead" "populate"] |})
                  end
              end
        end
    end.
Proof.
  unfold createLead, tryCatch. rewrite withCustomer_run. simpl.
  destruct (castObjectId cid) as [i|] eqn:Hi; [|done].
  destruct (customers (db w) !! i) as [c|]; [|done].
  destruct (accessDenied who (Customer.ownerId c)); [done|].
  unfold Lead_save, Lead_populate. run. rewrite Hi.
  destruct (Lead.create body i (now env)) as [e|l]; [done|]. simpl.
  by destruct (leads (db w) !! newId env).
Qed.

Lemma updateLead_run env who cid lid body w :
  updateLead env who cid lid body w =
    let w1 := logged w "Customer" "findById" in
    let w2 := logged w1 "Lead" "findOneAndUpdate" in
    match castObjectId cid with
    | None => (fail 400 "Invalid lead or customer ID", w1)
    | Some i =>
        match customers (db w) !! i with
        | None => (fail 404 "Customer not found", w1)
        | Some c =>
            if accessDenied who (Customer.ownerId c)
            then (fail 403 "Access denied", w1)
            else
              match castObjectId lid with
              | None => (fail 400 "Invalid lead or customer ID", w2)
              | Some j =>
                  match Lead.castUpdate body with
                  | inl e =>
                      (if isCastError e then fail 400 "Invalid lead or customer ID"
                       else fail 500 "Failed to update lead", w2)
                  | inr ch =>
                      match lookupLead (db w) j i with
                      | None => (fail 404 "Lead not found", w2)
                      | Some x =>
                          let d' := {| users := users (db w);
                                       customers := customers (db w);
                                       leads := <[j := Lead.update ch (now env) x]>
                                                  (leads (db w)) |} in
                          ({| status := 200;
                              payload := LeadData
                                (populateCustomer d' (j, Lead.update ch (now env) x))
                                (Some "Lead updated successfully") |},
                           {| db := d'; calls := calls w2 |})
                      end
                  end
              end
        end
    end.
Proof.
  unfold updateLead, tryCatch. rewrite withCustomer_run. simpl.
  destruct (castObjectId cid) as [i|] eqn:Hi; [|done].
  destruct (customers (db w) !! i) as [c|]; [|done].
  destruct (accessDenied who (Customer.ownerId c)); [done|].
  unfold Lead_findOneAndUpdate. run.
  destruct (castObjectId lid) as [j|]; [|done]. simpl. rewrite Hi. simpl.
  destruct (Lead.castUpdate body) as [e|ch]; [done|]. simpl.
  by destruct (lookupLead (db w) j i).
Qed.

Lemma deleteLead_run who cid lid w :
  deleteLead who cid lid w =
    let w1 := logged w "Customer" "findById" in
    let w2 := logged w1 "Lead" "findOneAndDelete" in
    match castObjectId cid with
    | None => (fail 400 "Invalid lead or customer ID", w1)
    | Some i =>
        match customers (db w) !! i with
        | None => (fail 404 "Customer not found", w1)
        | Some c =>
            if accessDenied who (Customer.ownerId c)
            then (fail 403 "Access denied", w1)
            else
              match castObjectId lid with
              | None => (fail 400 "Invalid lead or customer ID", w2)
              | Some j =>
                  match lookupLead (db w) j i with
                  | None => (fail 404 "Lead not found", w2)
                  | Some x =>
                      ({| status := 200;
                          payload := Message "Lead deleted successfully" |},
                       {| db := {| users := users (db w);
                                   customers := customers (db w);
                                   leads := delete j (leads (db w)) |};
                          calls := calls w2 |})
                  end
              end
        end
    end.
Proof.
  unfold deleteLead, tryCatch. rewrite withCustomer_run. simpl.
  destruct (castObjectId cid) as [i|] eqn:Hi; [|done].
  destruct (customers (db w) !! i) as [c|]; [|done].
  destruct (accessDenied who (Customer.ownerId c)); [done|].
  unfold Lead_findOneAndDelete. run.
  destruct (castObjectId lid) as [j|]; [|done]. simpl. rewrite Hi. simpl.
  by destruct (lookupLead (db w) j i).
Qed.

Lemma listLeads_run who cid query w :
  listLeads who cid query w =
    let w1 := logged w "Customer" "findById" in
    let w3 := logged (logged w1 "Lead" "find") "Lead" "countDocuments" in
    match castObjectId cid with
    | None => (fail 400 "Invalid customer ID", w1)
    | Some i =>
        match customers (db w) !! i with
        | None => (fail 404 "Customer not found", w1)
        | Some c =>
            if accessDenied who (Customer.ownerId c)
            then (fail 403 "Access denied", w1)
            else
              match queryNumber query "page", queryNumber query "limit" with
              | Some page, Some limit =>
                  let sel := selectLeads
                    {| filterCustomer := i;
                       filterStatus := truthy (queryString query "status") |} (db w) in
                  ({| status := 200;
                      payload := LeadsData
                        (populateCustomer (db w)
                           <$> slice ((page - 1) * limit) limit
                                 (sortDesc (λ kl, Lead.createdAt kl.2) sel))
                        (pagination page limit (length sel)) |}, w3)
              | _, _ => (fail 500 "Failed to fetch leads", w1)
              end
        end
    end.
Proof.
  unfold listLeads, tryCatch. rewrite withCustomer_run. simpl.
  destruct (castObjectId cid) as [i|] eqn:Hi; [|done].
  destruct (customers (db w) !! i) as [c|]; [|done].
  destruct (accessDenied who (Customer.ownerId c)); [done|].
  destruct (queryNumber query "page") as [page|]; [|done].
  destruct (queryNumber query "limit") as [limit|]; [|done].
  unfold Lead_find, Lead_countDocuments. run. by rewrite Hi.
Qed.

Lemma mapM_withLeadCount cs w :
  mapM withLeadCount cs w =
    (inr (map (λ c, {| item := c; leadCount := leadsOf (db w) (customerKey c) |}) cs),
     {| db := db w;
        calls := calls w ++ replicate (length cs) (Call "Lead" "countDocuments") |}).
Proof.
  revert w. induction cs as [|c cs IH]; intros w.
  - simpl. unfold mret, M_ret. destruct w; simpl. by rewrite app_nil_r.
  - simpl. unfold mbind at 1, M_bind at 1.
    unfold withLeadCount at 1, Lead_countFor. run.
    unfold mbind, M_bind. rewrite IH. simpl. unfold logged. simpl.
    by rewrite <- app_assoc.
Qed.

Lemma listCustomers_run ext who query w :
  listCustomers ext who query w =
    match queryNumber query "page", queryNumber query "limit" with
    | Some page, Some limit =>
        match selectCustomers ext (customerFilter who (queryString query "q"))
                (db w) with
        | None => (fail 500 "Failed to fetch customers",
                   logged w "Customer" "find")
        | Some sel =>
            let views :=
              populateOwner (db w)
                <$> slice ((page - 1) * limit) limit
                      (sortDesc (λ kc, Customer.createdAt kc.2) sel) in
            ({| status := 200;
                payload := CustomersData
                  (map (λ c, {| item := c;
                                leadCount := leadsOf (db w) (customerKey c) |}) views)
                  (pagination page limit (length sel)) |},
             {| db := db w;
                calls := calls w
                  ++ [Call "Customer" "find"; Call "Customer" "countDocuments"]
                  ++ replicate (length views) (Call "Lead" "countDocuments") |})
        end
    | _, _ => (fail 500 "Failed to fetch customers", w)
    end.
Proof.
  unfold listCustomers, tryCatch.
  destruct (queryNumber query "page") as [page|]; [|done].
  destruct (queryNumber query "limit") as [limit|]; [|done].
  unfold Customer_find, Customer_countDocuments. run.
  destruct (selectCustomers ext _ (db w)) as [sel|] eqn:Hsel; [|done]. simpl.
  rewrite Hsel. simpl. rewrite mapM_withLeadCount. simpl.
  by rewrite <- !app_assoc.
Qed.

(* ================================================================== *)
(** * Trimming and case folding *)
(* ================================================================== *)

Lemma trimStart_idemp s : trimStart (trimStart s) = trimStart s.
Proof.
  induction s as [|c s IH]; simpl; [done|].
  destruct (isSpace c) eqn:E; [done|]. simpl. by rewrite E.
Qed.

Lemma trimStart_trimEnd s : trimStart (trimEnd s) = trimEnd (trimStart s).
Proof.
  induction s as [|c s IH]; simpl; [done|].
  destruct (isSpace c) eqn:E.
  - destruct (trimEnd s) as [|d t] eqn:Et.
    + simpl in *. by rewrite <- IH.
    + simpl. rewrite E. by rewrite <- IH.
  - simpl. destruct (trimEnd s) as [|d t]; simpl; by rewrite E.
Qed.

Lemma trimEnd_idemp s : trimEnd (trimEnd s) = trimEnd s.
Proof.
  induction s as [|c s IH]; simpl; [done|].
  destruct (trimEnd s) as [|d t] eqn:Et.
  - destruct (isSpace c) eqn:E; simpl; [done|]. by rewrite E.
  - simpl in *. rewrite IH. done.
Qed.

Lemma trim_idemp s : trim (trim s) = trim s.
Proof.
  unfold trim.
  by rewrite trimStart_trimEnd, trimStart_idemp, trimEnd_idemp.
Qed.

Lemma isSpace_toLower c : isSpace (toLower c) = isSpace c.
Proof. by destruct c as [[] [] [] [] [] [] [] []]; vm_compute. Qed.

Lemma toLower_idemp c : toLower (toLower c) = toLower c.
Proof. by destruct c as [[] [] [] [] [] [] [] []]; vm_compute. Qed.

Lemma toLowerCase_idemp s : toLowerCase (toLowerCase s) = toLowerCase s.
Proof. induction s; simpl; [done|]. by rewrite toLower_idemp, IHs. Qed.

Lemma toLowerCase_trimStart s :
  toLowerCase (trimStart s) = trimStart (toLowerCase s).
Proof.
  induction s as [|c s IH]; simpl; [done|].
  rewrite isSpace_toLower. by destruct (isSpace c).
Qed.

Lemma toLowerCase_trimEnd s : toLowerCase (trimEnd s) = trimEnd (toLowerCase s).
Proof.
  induction s as [|c s IH]; simpl; [done|].
  rewrite <- IH, isSpace_toLower.
  destruct (trimEnd s); simpl; [|done]. by destruct (isSpace c).
Qed.

Lemma toLowerCase_trim s : toLowerCase (trim s) = trim (toLowerCase s).
Proof. unfold trim. by rewrite toLowerCase_trimEnd, toLowerCase_trimStart. Qed.

Lemma length_toLowerCase s : String.length (toLowerCase s) = String.length s.
Proof. induction s; simpl; [done|]. by rewrite IHs. Qed.

Lemma length_trimStart s : String.length (trimStart s) ≤ String.length s.
Proof.
  induction s as [|c s IH]; simpl; [done|].
  destruct (isSpace c); simpl; lia.
Qed.

Lemma length_trimEnd s : String.length (trimEnd s) ≤ String.length s.
Proof.
  induction s as [|c s IH]; simpl; [done|].
  destruct (trimEnd s); simpl in *; [destruct (isSpace c); simpl|]; lia.
Qed.

Lemma length_trim s : String.length (trim s) ≤ String.length s.
Proof.
  unfold trim. pose proof (length_trimEnd (trimStart s)).
  pose proof (length_trimStart s). lia.
Qed.

(* ================================================================== *)
(** * What validation guarantees *)
(* ================================================================== *)

Lemma insertRanked_Permutation rank x l : insertRanked rank x l ≡ₚ x :: l.
Proof.
  induction l as [|y l IH]; simpl; [done|].
  destruct (rank x <=? rank y); [done|].
  rewrite IH. apply Permutation_swap.
Qed.

Lemma sortRanked_Permutation rank l : sortRanked rank l ≡ₚ l.
Proof.
  induction l as [|x l IH]; simpl; [done|].
  by rewrite insertRanked_Permutation, IH.
Qed.

(** However the runtime orders them, the names enumerated are those of the
    members, each once. *)
Lemma elem_of_ownKeys ext obj l : l ∈ Joi.ownKeys ext obj ↔ is_Some (obj !! l).
Proof.
  unfold Joi.ownKeys. rewrite sortRanked_Permutation. split.
  - intros ([k x] & -> & Hkx)%list_elem_of_fmap.
    apply elem_of_map_to_list in Hkx. eauto.
  - intros [x Hx]. apply (list_elem_of_fmap_2 fst (map_to_list obj) (l, x)).
    by apply elem_of_map_to_list.
Qed.

Lemma NoDup_ownKeys ext obj : NoDup (Joi.ownKeys ext obj).
Proof.
  unfold Joi.ownKeys. rewrite sortRanked_Permutation.
  apply NoDup_fst_map_to_list.
Qed.

Section JoiFacts.
Context (ext : Externals).

Lemma validateKeys_errors s obj :
  (Joi.validateKeys ext s obj).1
  = flat_map (λ k, (Joi.validateKey ext k (obj !! Joi.label k)).1) s.
Proof.
  induction s as [|k s IH]; simpl; [done|].
  destruct (Joi.validateKey ext k (obj !! Joi.label k)) as [e v].
  destruct (Joi.validateKeys ext s obj) as [es m]. simpl in *. by rewrite IH.
Qed.

Lemma validateKeys_fresh s obj l :
  l ∉ map Joi.label s → (Joi.validateKeys ext s obj).2 !! l = None.
Proof.
  induction s as [|k s IH]; simpl; intros Hl; [done|].
  destruct (Joi.validateKey ext k (obj !! Joi.label k)) as [e v].
  destruct (Joi.validateKeys ext s obj) as [es m]. simpl in *.
  apply not_elem_of_cons in Hl as [Hne Hl].
  destruct v; [rewrite lookup_insert_ne by done|]; by apply IH.
Qed.

Lemma validateKeys_lookup s obj k :
  NoDup (map Joi.label s) → k ∈ s →
  (Joi.validateKeys ext s obj).2 !! Joi.label k
  = (Joi.validateKey ext k (obj !! Joi.label k)).2.
Proof.
  induction s as [|k' s IH]; simpl; intros Hnd Hk; [by apply elem_of_nil in Hk|].
  apply NoDup_cons in Hnd as [Hfresh Hnd].
  pose proof (validateKeys_fresh s obj (Joi.label k') Hfresh) as Hnone.
  destruct (Joi.validateKey ext k' (obj !! Joi.label k')) as [e v] eqn:Ek.
  destruct (Joi.validateKeys ext s obj) as [es m]. simpl in *.
  apply elem_of_cons in Hk as [->|Hk].
  - rewrite Ek. simpl. destruct v; [by rewrite lookup_insert_eq|done].
  - assert (Joi.label k ≠ Joi.label k') as Hne.
    { intros Heq. apply Hfresh. rewrite <- Heq. by apply list_elem_of_fmap_2. }
    destruct v; [rewrite lookup_insert_ne by done|]; by apply IH.
Qed.

(** The middleware lets a body through exactly when Joi reports nothing;
    what it passes on is Joi's converted value. *)
Lemma validate_inr s body v :
  validate ext s body = inr v ↔
  Joi.error (Joi.validate ext s body {| Joi.abortEarly := false |}) = []
  ∧ v = Joi.value (Joi.validate ext s body {| Joi.abortEarly := false |}).
Proof.
  unfold validate.
  destruct (Joi.error _); split; intros H; simplify_eq; try done.
  - by destruct H as [_ ->].
  - by destruct H.
Qed.

Lemma validateQuery_inr s query v :
  validateQuery ext s query = inr v ↔
  Joi.error (Joi.validate ext s query {| Joi.abortEarly := false |}) = []
  ∧ v = Joi.value (Joi.validate ext s query {| Joi.abortEarly := false |}).
Proof.
  unfold validateQuery.
  destruct (Joi.error _); split; intros H; simplify_eq; try done.
  - by destruct H as [_ ->].
  - by destruct H.
Qed.

Lemma validate_error s obj :
  Joi.error (Joi.validate ext s obj {| Joi.abortEarly := false |})
  = flat_map (λ k, (Joi.validateKey ext k (obj !! Joi.label k)).1) s
    ++ map Joi.unknownDetail (Joi.unknownKeys ext s obj).
Proof.
  unfold Joi.validate. rewrite <- validateKeys_errors.
  by destruct (Joi.validateKeys ext s obj).
Qed.

Lemma validate_value s obj o :
  Joi.value (Joi.validate ext s obj o) = (Joi.validateKeys ext s obj).2.
Proof. unfold Joi.validate. by destruct (Joi.validateKeys ext s obj). Qed.

(** A value that passed validation: every declared key passed and holds its
    converted member; nothing else is in the value. *)
Lemma validated_keys s obj :
  NoDup (map Joi.label s) →
  Joi.error (Joi.validate ext s obj {| Joi.abortEarly := false |}) = [] →
  let v := Joi.value (Joi.validate ext s obj {| Joi.abortEarly := false |}) in
  (∀ k, k ∈ s →
     (Joi.validateKey ext k (obj !! Joi.label k)).1 = []
     ∧ v !! Joi.label k = (Joi.validateKey ext k (obj !! Joi.label k)).2)
  ∧ (∀ l, l ∉ map Joi.label s → v !! l = None)
  ∧ Joi.unknownKeys ext s obj = [].
Proof.
  intros Hnd Herr. simpl. rewrite validate_error in Herr.
  apply app_eq_nil in Herr as [Hk Hu]. rewrite validate_value.
  split_and!.
  - intros k Hin. split; [|by apply validateKeys_lookup].
    clear Hnd Hu.
    induction s as [|k' s' IH]; [by apply elem_of_nil in Hin|].
    simpl in Hk. apply app_eq_nil in Hk as [H1 H2].
    apply elem_of_cons in Hin as [->|Hin]; [done|]. by apply IH.
  - intros l. apply validateKeys_fresh.
  - by destruct (Joi.unknownKeys ext s obj).
Qed.

End JoiFacts.

Section KeyFacts.
Context (ext : Externals).

(** A string key that raised nothing, by cases on the member. *)
Lemma validateKey_string k rules v :
  Joi.type k = Joi.string_ rules →
  (Joi.validateKey ext k v).1 = [] →
  match v with
  | None => Joi.required k = false ∧ (Joi.validateKey ext k v).2 = Joi.default k
  | Some x =>
      ∃ s, x = JStr s
        ∧ (Joi.validateKey ext k v).2 = Some (JStr (Joi.coerce rules s))
        ∧ (Joi.coerce rules s ∈ Joi.valids k
           ∨ (Joi.coerce rules s ≠ EmptyString
              ∧ Joi.only k = false
              ∧ flat_map (Joi.stringRule ext k (Joi.coerce rules s)) rules = []))
  end.
Proof.
  intros Ht. unfold Joi.validateKey. rewrite Ht.
  destruct v as [x|]; simpl.
  - unfold Joi.checkString. destruct x as [s|q| |]; simpl.
    + intros H. exists s. split; [done|].
      destruct (bool_decide (Joi.coerce rules s ∈ Joi.valids k)) eqn:Ev.
      { apply bool_decide_eq_true in Ev. auto. }
      destruct (String.eqb (Joi.coerce rules s) EmptyString) eqn:Ee; simpl in H.
      { by destruct (Joi.only k). }
      simpl. rewrite H. split; [done|].
      apply app_eq_nil in H as [Ho H].
      right. split; [by apply String.eqb_neq|].
      split; [by destruct (Joi.only k)|done].
    + intros H. by destruct (Joi.only k).
    + intros H. by destruct (Joi.only k).
    + intros H. by destruct (Joi.only k).
  - destruct (Joi.required k); [done|]. done.
Qed.

(** A number key that raised nothing. *)
Lemma validateKey_number k rules v :
  Joi.type k = Joi.number rules →
  (Joi.validateKey ext k v).1 = [] →
  match v with
  | None => Joi.required k = false ∧ (Joi.validateKey ext k v).2 = Joi.default k
  | Some x =>
      ∃ q, Joi.toNumber ext x = Converted q
        ∧ (Joi.validateKey ext k v).2 = Some (JNum q)
        ∧ flat_map (Joi.numberRule k q) rules = []
        ∧ isSafe q = true
  end.
Proof.
  intros Ht. unfold Joi.validateKey. rewrite Ht.
  destruct v as [x|]; simpl.
  - unfold Joi.checkNumber.
    destruct (Joi.toNumber ext x) as [| | |q]; simpl; try done.
    destruct (isSafe q) eqn:Hsafe; simpl; [|done].
    intros H. exists q. rewrite H. done.
  - destruct (Joi.required k); [done|]. done.
Qed.

Lemma stringRule_min k s n : Joi.stringRule ext k s (Joi.min n) = [] → n ≤ String.length s.
Proof. simpl. destruct (String.length s <? n) eqn:E; [done|]. apply Nat.ltb_ge in E. lia. Qed.

Lemma stringRule_max k s n : Joi.stringRule ext k s (Joi.max n) = [] → String.length s ≤ n.
Proof. simpl. destruct (n <? String.length s) eqn:E; [done|]. apply Nat.ltb_ge in E. lia. Qed.

Lemma stringRule_email k s : Joi.stringRule ext k s Joi.email = [] → joi_email ext s = true.
Proof. simpl. by destruct (joi_email ext s). Qed.

Lemma numberRule_integer k q :
  Joi.numberRule k q Joi.integer = [] → (q == inject_Z (Qfloor q))%Q.
Proof.
  simpl. destruct (Joi.isInteger q) eqn:E; [|done].
  intros _. by apply Qeq_bool_iff.
Qed.

Lemma numberRule_min k q z :
  Joi.numberRule k q (Joi.nmin z) = [] → (inject_Z z <= q)%Q.
Proof.
  simpl. destruct (Qle_bool (inject_Z z) q) eqn:E; [|done].
  intros _. by apply Qle_bool_iff.
Qed.

Lemma numberRule_max k q z :
  Joi.numberRule k q (Joi.nmax z) = [] → (q <= inject_Z z)%Q.
Proof.
  simpl. destruct (Qle_bool q (inject_Z z)) eqn:E; [|done].
  intros _. by apply Qle_bool_iff.
Qed.

End KeyFacts.

Section SchemaFacts.
Context (ext : Externals).

Ltac schema_keys s body :=
  let Hk := fresh "Hkeys" in
  let Hf := fresh "Hfresh" in
  destruct (validated_keys ext s body) as (Hk & Hf & _);
  [by apply (bool_decide_unpack _); vm_compute | done | simpl in Hk, Hf].

Ltac key_of Hkeys k He Hv :=
  destruct (Hkeys k) as [He Hv]; [repeat constructor | simpl in He, Hv].

(** A lead body that passed [validate(leadSchema)]. *)
Lemma leadSchema_validated body v :
  validate ext leadSchema body = inr v →
  (∃ t, v !! "title" = Some (JStr t) ∧ trim t = t ∧ t ≠ EmptyString
        ∧ 2 ≤ String.length t ≤ 200)
  ∧ (v !! "description" = None
     ∨ ∃ d, v !! "description" = Some (JStr d) ∧ trim d = d
            ∧ String.length d ≤ 1000)
  ∧ (∃ s, v !! "status" = Some (JStr s) ∧ s ∈ leadStatuses)
  ∧ (∃ q, v !! "value" = Some (JNum q) ∧ (0 <= q)%Q)
  ∧ (∀ l, l ∉ ["title"; "description"; "status"; "value"] → v !! l = None).
Proof.
  intros [Herr ->]%validate_inr.
  schema_keys leadSchema body.
  split_and!.
  - key_of Hkeys leadTitleKey He Hv.
    apply (validateKey_string ext _ [Joi.trim_; Joi.min 2; Joi.max 200]) in He;
      [|done].
    destruct (body !! "title") as [x|]; [|by destruct He].
    destruct He as (s & -> & Hval & Hcase). rewrite Hv, Hval.
    exists (trim s). split; [done|]. split; [apply trim_idemp|].
    destruct Hcase as [Hin|(Hne & _ & Hrules)]; [by apply elem_of_nil in Hin|].
    split; [done|]. simpl in Hrules.
    apply app_eq_nil in Hrules as [Hmin Hmax].
    apply app_eq_nil in Hmax as [Hmax _].
    apply (stringRule_min ext) in Hmin. apply (stringRule_max ext) in Hmax.
    done.
  - key_of Hkeys leadDescriptionKey He Hv.
    apply (validateKey_string ext _ [Joi.trim_; Joi.max 1000]) in He; [|done].
    destruct (body !! "description") as [x|].
    + destruct He as (s & -> & Hval & Hcase). right. rewrite Hv, Hval.
      exists (trim s). split; [done|]. split; [apply trim_idemp|].
      destruct Hcase as [Hin|(Hne & _ & Hrules)].
      * simpl in Hin. apply list_elem_of_singleton in Hin.
        change (Joi.coerce _ s) with (trim s) in Hin. rewrite Hin. simpl. lia.
      * simpl in Hrules. apply app_eq_nil in Hrules as [Hmax _].
        by apply (stringRule_max ext) in Hmax.
    + left. destruct He as [_ He]. by rewrite Hv, He.
  - key_of Hkeys leadStatusKey He Hv.
    apply (validateKey_string ext _ []) in He; [|done].
    destruct (body !! "status") as [x|].
    + destruct He as (s & -> & Hval & Hcase). rewrite Hv, Hval.
      exists s. split; [done|].
      by destruct Hcase as [Hin|(_ & Ho & _)].
    + destruct He as [_ He]. rewrite Hv, He. exists "New". split; [done|].
      unfold leadStatuses. constructor.
  - key_of Hkeys leadValueKey He Hv.
    apply (validateKey_number ext _ [Joi.nmin 0]) in He; [|done].
    destruct (body !! "value") as [x|].
    + destruct He as (q & Hq & Hval & Hrules & Hsafe). rewrite Hv, Hval.
      exists q. split; [done|]. simpl in Hrules.
      apply app_eq_nil in Hrules as [Hmin _].
      by apply numberRule_min in Hmin.
    + destruct He as [_ He]. rewrite Hv, He. simpl. exists 0%Q. done.
  - intros l Hl. apply Hfresh. done.
Qed.

End SchemaFacts.

Section MoreSchemaFacts.
Context (ext : Externals).

Ltac schema_keys s body :=
  let Hk := fresh "Hkeys" in
  let Hf := fresh "Hfresh" in
  destruct (validated_keys ext s body) as (Hk & Hf & _);
  [by apply (bool_decide_unpack _); vm_compute | done | simpl in Hk, Hf].

Ltac key_of Hkeys k He Hv :=
  destruct (Hkeys k) as [He Hv]; [repeat constructor | simpl in He, Hv].

(** Mongoose accepts every update document that passed
    [validate(leadSchema)], and such a document never moves a lead to
    another customer. *)
Lemma leadSchema_castUpdate body v :
  validate ext leadSchema body = inr v →
  ∃ ch, Lead.castUpdate v = inr ch ∧ Lead.newCustomerId ch = None.
Proof.
  intros (Ht & Hd & Hs & Hq & Hfresh)%leadSchema_validated.
  destruct Ht as (t & Ht & Htrim & Hne & Hlen).
  destruct Hs as (s & Hs & Hin). destruct Hq as (q & Hq & Hpos).
  unfold Lead.castUpdate, Customer.updatePath, Lead.updateCast.
  rewrite Ht, Hs, Hq. simpl.
  unfold Lead.setTitle, Lead.validTitle. rewrite Htrim.
  apply String.eqb_neq in Hne. rewrite Hne. simpl.
  replace (String.length t <=? 200) with true
    by (symmetry; apply Nat.leb_le; lia).
  assert (Lead.validStatus s = true) as ->.
  { unfold Lead.validStatus. by apply bool_decide_eq_true. }
  assert (Lead.validValue q = true) as ->.
  { unfold Lead.validValue. by apply Qle_bool_iff. }
  rewrite (Hfresh "customerId") by (by apply (bool_decide_unpack _); vm_compute).
  simpl.
  destruct Hd as [Hd|(d & Hd & Hdt & Hdl)]; rewrite Hd; simpl.
  - eauto.
  - unfold Lead.setDescription, Lead.validDescription. rewrite Hdt.
    replace (String.length d <=? 1000) with true
      by (symmetry; apply Nat.leb_le; lia).
    eauto.
Qed.

(** Mongoose accepts every new lead whose body passed
    [validate(leadSchema)]. *)
Lemma leadSchema_create body v i t :
  validate ext leadSchema body = inr v →
  ∃ l, Lead.create v i t = inr l ∧ Lead.customerId l = i
       ∧ Lead.createdAt l = t.
Proof.
  intros (Ht & Hd & Hs & Hq & Hfresh)%leadSchema_validated.
  destruct Ht as (ti & Ht & Htrim & Hne & Hlen).
  destruct Hs as (s & Hs & Hin). destruct Hq as (q & Hq & Hpos).
  unfold Lead.create, Customer.requiredPath, Customer.optionalPath,
    Lead.defaultedPath.
  rewrite Ht, Hs, Hq. simpl.
  unfold Lead.setTitle, Lead.validTitle. rewrite Htrim.
  apply String.eqb_neq in Hne. rewrite Hne. simpl.
  replace (String.length ti <=? 200) with true
    by (symmetry; apply Nat.leb_le; lia).
  assert (Lead.validStatus s = true) as ->.
  { unfold Lead.validStatus. by apply bool_decide_eq_true. }
  assert (Lead.validValue q = true) as ->.
  { unfold Lead.validValue. by apply Qle_bool_iff. }
  destruct Hd as [Hd|(d & Hd & Hdt & Hdl)]; rewrite Hd; simpl.
  - eauto.
  - unfold Lead.setDescription, Lead.validDescription. rewrite Hdt.
    replace (String.length d <=? 1000) with true
      by (symmetry; apply Nat.leb_le; lia).
    eauto.
Qed.

(** A customer body that passed [validate(customerSchema)] holds nothing
    but the four declared members. *)
Lemma customerSchema_validated body v :
  validate ext customerSchema body = inr v →
  (∃ n, v !! "name" = Some (JStr n) ∧ trim n = n ∧ n ≠ EmptyString
        ∧ 2 ≤ String.length n ≤ 100)
  ∧ (∃ e, v !! "email" = Some (JStr e) ∧ trim e = e ∧ toLowerCase e = e
          ∧ e ≠ EmptyString ∧ joi_email ext e = true)
  ∧ (v !! "phone" = None
     ∨ ∃ p, v !! "phone" = Some (JStr p) ∧ trim p = p ∧ String.length p ≤ 20)
  ∧ (v !! "company" = None
     ∨ ∃ c, v !! "company" = Some (JStr c) ∧ trim c = c ∧ String.length c ≤ 100)
  ∧ (∀ l, l ∉ ["name"; "email"; "phone"; "company"] → v !! l = None).
Proof.
  intros [Herr ->]%validate_inr.
  schema_keys customerSchema body.
  split_and!.
  - key_of Hkeys customerNameKey He Hv.
    apply (validateKey_string ext _ [Joi.trim_; Joi.min 2; Joi.max 100]) in He;
      [|done].
    destruct (body !! "name") as [x|]; [|by destruct He].
    destruct He as (s & -> & Hval & Hcase). rewrite Hv, Hval.
    exists (trim s). split; [done|]. split; [apply trim_idemp|].
    destruct Hcase as [Hin|(Hne & _ & Hrules)]; [by apply elem_of_nil in Hin|].
    split; [done|]. simpl in Hrules.
    apply app_eq_nil in Hrules as [Hmin Hmax].
    apply app_eq_nil in Hmax as [Hmax _].
    apply (stringRule_min ext) in Hmin. apply (stringRule_max ext) in Hmax.
    done.
  - key_of Hkeys customerEmailKey He Hv.
    apply (validateKey_string ext _ [Joi.email; Joi.lowercase; Joi.trim_]) in He;
      [|done].
    destruct (body !! "email") as [x|]; [|by destruct He].
    destruct He as (s & -> & Hval & Hcase). rewrite Hv, Hval.
    change (Joi.coerce _ s) with (trim (toLowerCase s)) in *.
    exists (trim (toLowerCase s)). split; [done|]. split; [apply trim_idemp|].
    split; [by rewrite toLowerCase_trim, toLowerCase_idemp|].
    destruct Hcase as [Hin|(Hne & _ & Hrules)]; [by apply elem_of_nil in Hin|].
    split; [done|]. simpl in Hrules.
    by destruct (joi_email ext (trim (toLowerCase s))).
  - key_of Hkeys customerPhoneKey He Hv.
    apply (validateKey_string ext _ [Joi.trim_; Joi.max 20]) in He; [|done].
    destruct (body !! "phone") as [x|].
    + destruct He as (s & -> & Hval & Hcase). right. rewrite Hv, Hval.
      exists (trim s). split; [done|]. split; [apply trim_idemp|].
      destruct Hcase as [Hin|(Hne & _ & Hrules)].
      * simpl in Hin. apply list_elem_of_singleton in Hin.
        change (Joi.coerce _ s) with (trim s) in Hin. rewrite Hin. simpl. lia.
      * simpl in Hrules. apply app_eq_nil in Hrules as [Hmax _].
        by apply (stringRule_max ext) in Hmax.
    + left. destruct He as [_ He]. by rewrite Hv, He.
  - key_of Hkeys customerCompanyKey He Hv.
    apply (validateKey_string ext _ [Joi.trim_; Joi.max 100]) in He; [|done].
    destruct (body !! "company") as [x|].
    + destruct He as (s & -> & Hval & Hcase). right. rewrite Hv, Hval.
      exists (trim s). split; [done|]. split; [apply trim_idemp|].
      destruct Hcase as [Hin|(Hne & _ & Hrules)].
      * simpl in Hin. apply list_elem_of_singleton in Hin.
        change (Joi.coerce _ s) with (trim s) in Hin. rewrite Hin. simpl. lia.
      * simpl in Hrules. apply app_eq_nil in Hrules as [Hmax _].
        by apply (stringRule_max ext) in Hmax.
    + left. destruct He as [_ He]. by rewrite Hv, He.
  - intros l Hl. apply Hfresh. done.
Qed.

End MoreSchemaFacts.

(* ================================================================== *)
(** * Ownership *)
(* ================================================================== *)

Lemma schemaErrors_validate ext s body :
  Joi.error (Joi.validate ext s body {| Joi.abortEarly := false |}) = [] →
  validate ext s body
  = inr (Joi.value (Joi.validate ext s body {| Joi.abortEarly := false |})).
Proof. intros H. by apply validate_inr. Qed.

Lemma schemaErrors_validateQuery ext s query :
  Joi.error (Joi.validate ext s query {| Joi.abortEarly := false |}) = [] →
  validateQuery ext s query
  = inr (Joi.value (Joi.validate ext s query {| Joi.abortEarly := false |})).
Proof. intros H. by apply validateQuery_inr. Qed.

Lemma lookupLead_other d j i l :
  leads d !! j = Some l → Lead.customerId l ≠ i → lookupLead d j i = None.
Proof.
  intros Hl Hne. unfold lookupLead. rewrite Hl.
  destruct (String.eqb (Lead.customerId l) i) eqn:E; [|done].
  by apply String.eqb_eq in E.
Qed.

(** The PUT of a lead with an empty body, by an administrator, on a lead
    that exists under another customer, answers 400 rather than 404: the
    body is checked before the handler runs. *)
Lemma lead_mismatch_invalid_body :
  castObjectId acmeId = Some acmeId
  ∧ customers sampleDb !! acmeId = Some acme
  ∧ mayAccess root (Customer.ownerId acme)
  ∧ castObjectId offerId = Some offerId
  ∧ leads sampleDb !! offerId = Some offer
  ∧ Lead.customerId offer ≠ acmeId
  ∧ status (serve sampleExternals sampleEnv root
              (PutLead acmeId offerId ∅) sampleWorld).1 = 400%Z
  ∧ status (serve sampleExternals sampleEnv root
              (PutLead acmeId offerId ∅) sampleWorld).1 ≠ 404%Z.
Proof.
  split_and!; try (vm_compute; reflexivity).
  - by left.
  - by vm_compute.
  - by vm_compute.
Qed.

(** C10, amended.  On GET, PUT and DELETE of
    /api/customers/:customerId/leads/:leadId, when the body of a PUT passes
    its schema, the customer of the path exists and the identity may access
    it, a lead that exists under another customer is answered 404 and the
    database is left as it was, for administrators too. *)
Theorem lead_of_other_customer_not_found ext env who r w cid lid i j c l :
  targetCustomer r = Some cid →
  targetLead r = Some lid →
  schemaErrors ext r = [] →
  castObjectId cid = Some i →
  customers (db w) !! i = Some c →
  mayAccess who (Customer.ownerId c) →
  castObjectId lid = Some j →
  leads (db w) !! j = Some l →
  Lead.customerId l ≠ i →
  (serve ext env who r w).1 = fail 404 "Lead not found"
  ∧ db (serve ext env who r w).2 = db w.
Proof.
  intros Hc Hl Herr Hi Hcu Hmay Hj Hlead Hne.
  apply accessDenied_false in Hmay.
  pose proof (lookupLead_other _ _ _ _ Hlead Hne) as Hnone.
  destruct r; simpl in Hc, Hl; simplify_eq; simpl.
  - rewrite getLead_run. simpl. by rewrite Hi, Hcu, Hmay, Hj, Hnone.
  - unfold schemaErrors in Herr. simpl in Herr.
    rewrite (schemaErrors_validate _ _ _ Herr). simpl.
    destruct (leadSchema_castUpdate ext body _ (schemaErrors_validate _ _ _ Herr))
      as (ch & Hch & _).
    rewrite updateLead_run. simpl. by rewrite Hi, Hcu, Hmay, Hj, Hch, Hnone.
  - rewrite deleteLead_run. simpl. by rewrite Hi, Hcu, Hmay, Hj, Hnone.
Qed.

Lemma lead_of_other_customer_not_found_witness :
  (serve sampleExternals sampleEnv root
     (PutLead acmeId offerId {[ "title" := JStr "Anvil" ]}) sampleWorld).1
  = fail 404 "Lead not found"
  ∧ db (serve sampleExternals sampleEnv root
          (PutLead acmeId offerId {[ "title" := JStr "Anvil" ]}) sampleWorld).2
    = db sampleWorld.
Proof.
  apply (lead_of_other_customer_not_found sampleExternals sampleEnv root
           (PutLead acmeId offerId {[ "title" := JStr "Anvil" ]}) sampleWorld
           acmeId offerId acmeId offerId acme offer).
  - reflexivity.
  - reflexivity.
  - vm_compute. reflexivity.
  - vm_compute. reflexivity.
  - vm_compute. reflexivity.
  - left. reflexivity.
  - vm_compute. reflexivity.
  - vm_compute. reflexivity.
  - vm_compute. discriminate.
Defined.

Lemma castUpdate_owner body ch :
  Customer.castUpdate body = inr ch →
  body !! "ownerId" = None →
  Customer.newOwnerId ch = None.
Proof.
  unfold Customer.castUpdate. intros H Ho. rewrite Ho in H. simpl in H.
  repeat match type of H with
         | match ?x with _ => _ end = _ => destruct x; try discriminate
         end.
  by simplify_eq.
Qed.

(** C7.  A successful PUT /api/customers/:id leaves the owner of the
    customer as it was; its creation time, every other customer, the leads
    and the users are unchanged as well. *)
Theorem update_preserves_owner ext env who id body w resp w' :
  serve ext env who (PutCustomer id body) w = (resp, w') →
  status resp = 200%Z →
  ∃ i c c',
    castObjectId id = Some i
    ∧ customers (db w) !! i = Some c
    ∧ customers (db w') !! i = Some c'
    ∧ Customer.ownerId c' = Customer.ownerId c
    ∧ Customer.createdAt c' = Customer.createdAt c
    ∧ (∀ k, k ≠ i → customers (db w') !! k = customers (db w) !! k)
    ∧ leads (db w') = leads (db w)
    ∧ users (db w') = users (db w).
Proof.
  simpl. intros Hrun Hst.
  destruct (validate ext customerSchema body) as [r|v] eqn:Hv; simpl in Hrun.
  { simplify_eq. unfold validate in Hv.
    destruct (Joi.error _); by simplify_eq. }
  apply customerSchema_validated in Hv as (_ & _ & _ & _ & Hfresh).
  rewrite updateCustomer_run in Hrun. simpl in Hrun.
  destruct (castObjectId id) as [i|]; [|by simplify_eq].
  destruct (customers (db w) !! i) as [c|] eqn:Hc; [|by simplify_eq].
  destruct (accessDenied who (Customer.ownerId c)); [by simplify_eq|].
  destruct (Customer.castUpdate v) as [e|ch] eqn:Hch.
  { simplify_eq. simpl in Hst. destruct (isCastError e); [done|].
    by destruct (hasCode e 11000). }
  simplify_eq. simpl.
  exists i, c, (Customer.update ch (now env) c).
  split_and!; try done.
  - by rewrite lookup_insert_eq.
  - simpl. rewrite (castUpdate_owner v ch Hch); [done|].
    apply Hfresh. by apply (bool_decide_unpack _); vm_compute.
  - intros k Hk. by rewrite lookup_insert_ne.
Qed.

Lemma update_preserves_owner_witness :
  ∃ i c c',
    castObjectId acmeId = Some i
    ∧ customers sampleDb !! i = Some c
    ∧ customers (db (serve sampleExternals sampleEnv alice
                       (PutCustomer acmeId
                          {[ "name" := JStr "Road Runner";
                             "email" := JStr "beep@acme.com" ]})
                       sampleWorld).2) !! i = Some c'
    ∧ Customer.ownerId c' = Customer.ownerId c.
Proof.
  destruct (update_preserves_owner sampleExternals sampleEnv alice acmeId
              {[ "name" := JStr "Road Runner"; "email" := JStr "beep@acme.com" ]}
              sampleWorld _ _ (surjective_pairing _))
    as (i & c & c' & H1 & H2 & H3 & H4 & _).
  - vm_compute. reflexivity.
  - exists i, c, c'. split_and!; done.
Defined.

(* ================================================================== *)
(** * Validation failures *)
(* ================================================================== *)

Lemma validate_fails ext s body :
  Joi.error (Joi.validate ext s body {| Joi.abortEarly := false |}) ≠ [] →
  validate ext s body
  = inl {| status := 400;
           payload := Failure "Validation failed"
             (Some (fieldErrors
                (Joi.error (Joi.validate ext s body {| Joi.abortEarly := false |})))) |}.
Proof. unfold validate. by destruct (Joi.error _). Qed.

Lemma fieldErrors_elem d ds : d ∈ ds → fieldError d ∈ fieldErrors ds.
Proof. intros H. unfold fieldErrors. by apply (list_elem_of_fmap_2 fieldError). Qed.

Lemma key_error_reported ext s body k d :
  k ∈ s →
  d ∈ (Joi.validateKey ext k (body !! Joi.label k)).1 →
  d ∈ Joi.error (Joi.validate ext s body {| Joi.abortEarly := false |}).
Proof.
  intros Hk Hd. rewrite validate_error. apply elem_of_app. left.
  apply list_elem_of_In, in_flat_map. exists k.
  split; by apply list_elem_of_In.
Qed.

Lemma unknown_reported ext s body l :
  is_Some (body !! l) → l ∉ map Joi.label s →
  Joi.unknownDetail l
  ∈ Joi.error (Joi.validate ext s body {| Joi.abortEarly := false |}).
Proof.
  intros [x Hx] Hl. rewrite validate_error. apply elem_of_app. right.
  apply list_elem_of_fmap_2. unfold Joi.unknownKeys.
  apply list_elem_of_In, filter_In. split.
  - apply list_elem_of_In, elem_of_ownKeys. eauto.
  - apply negb_true_iff, bool_decide_eq_false. done.
Qed.

(** ** What the details of a refused body say *)

Section Violations.
Context (ext : Externals).

Lemma fieldErrors_app ds1 ds2 :
  fieldErrors (ds1 ++ ds2) = fieldErrors ds1 ++ fieldErrors ds2.
Proof. apply map_app. Qed.

Lemma length_empty s : s = EmptyString ↔ String.length s = 0.
Proof. destruct s; simpl; split; intros; done. Qed.

(** Closes a goal [fe ∈ l ↔ V fe] whose list [l] is explicit: each element
    by its constructor, each constructor by the conditions it carries. *)
Ltac settle :=
  rewrite ?app_nil_r; simpl;
  rewrite ?elem_of_cons, ?elem_of_nil;
  split;
  [ intros H; repeat destruct H as [H|H]; try done; subst;
    econstructor; (done || eauto; try lia)
  | intros H; inversion H; simplify_eq;
    repeat match goal with
    | H : ∀ s, JStr ?x ≠ JStr s |- _ => destruct (H x); reflexivity
    | H : _ = EmptyString |- _ => apply length_empty in H
    | H : _ ≠ EmptyString |- _ => rewrite length_empty in H
    end;
    try lia; try done; auto ].

Lemma requiredText_spec label em sm lm lo hi v fe :
  fe ∈ fieldErrors
         (Joi.validateKey ext
            {| Joi.label := label;
               Joi.type := Joi.string_ [Joi.trim_; Joi.min lo; Joi.max hi];
               Joi.valids := []; Joi.only := false;
               Joi.required := true; Joi.default := None;
               Joi.messages := [("string.empty", em); ("string.min", sm);
                                ("string.max", lm)] |} v).1
  ↔ requiredText label em sm lm lo hi v fe.
Proof.
  unfold Joi.validateKey, Joi.checkString, fieldErrors, Joi.report.
  destruct v as [[s|q| |]|]; simpl.
  - try change (Joi.coerce _ s) with (trim s).
    destruct (String.eqb (trim s) EmptyString) eqn:E; simpl.
    + apply String.eqb_eq in E. settle.
    + apply String.eqb_neq in E.
      destruct (String.length (trim s) <? lo) eqn:Elo;
        [apply Nat.ltb_lt in Elo|apply Nat.ltb_ge in Elo];
        (destruct (hi <? String.length (trim s)) eqn:Ehi;
         [apply Nat.ltb_lt in Ehi|apply Nat.ltb_ge in Ehi]); settle.
  - settle.
  - settle.
  - settle.
  - settle.
Qed.

Lemma optionalText_spec label lm hi v fe :
  fe ∈ fieldErrors
         (Joi.validateKey ext
            {| Joi.label := label;
               Joi.type := Joi.string_ [Joi.trim_; Joi.max hi];
               Joi.valids := [EmptyString]; Joi.only := false;
               Joi.required := false; Joi.default := None;
               Joi.messages := [("string.max", lm)] |} v).1
  ↔ optionalText label lm hi v fe.
Proof.
  unfold Joi.validateKey, Joi.checkString, fieldErrors, Joi.report.
  destruct v as [[s|q| |]|]; simpl.
  - try change (Joi.coerce _ s) with (trim s).
    destruct (decide (trim s = EmptyString)) as [E|E].
    + rewrite bool_decide_eq_true_2 by (rewrite E; apply list_elem_of_here).
      settle.
    + rewrite bool_decide_eq_false_2
        by (by intros ?%list_elem_of_singleton).
      apply String.eqb_neq in E. rewrite E. simpl.
      destruct (hi <? String.length (trim s)) eqn:Ehi;
        [apply Nat.ltb_lt in Ehi|apply Nat.ltb_ge in Ehi]; settle.
  - settle.
  - settle.
  - settle.
  - settle.
Qed.

Lemma emailViolation_spec v fe :
  fe ∈ fieldErrors (Joi.validateKey ext customerEmailKey v).1
  ↔ emailViolation ext v fe.
Proof.
  unfold Joi.validateKey, Joi.checkString, fieldErrors, Joi.report.
  destruct v as [[s|q| |]|]; simpl.
  - try change (Joi.coerce _ s) with (trim (toLowerCase s)).
    destruct (String.eqb (trim (toLowerCase s)) EmptyString) eqn:E; simpl.
    + apply String.eqb_eq in E. settle.
    + apply String.eqb_neq in E.
      destruct (joi_email ext (trim (toLowerCase s))) eqn:Ee; settle;
        congruence.
  - settle.
  - settle.
  - settle.
  - settle.
Qed.

Lemma statusViolation_spec v fe :
  fe ∈ fieldErrors (Joi.validateKey ext leadStatusKey v).1
  ↔ statusViolation v fe.
Proof.
  unfold Joi.validateKey, Joi.checkString, fieldErrors, Joi.report.
  destruct v as [[s|q| |]|]; simpl.
  - try change (Joi.coerce _ s) with s.
    destruct (decide (s ∈ leadStatuses)) as [Hin|Hout].
    + rewrite bool_decide_eq_true_2 by done. simpl.
      rewrite elem_of_nil. split; [done|].
      intros H. inversion H; simplify_eq.
      * by destruct (H1 s).
      * by repeat (apply elem_of_cons in Hin as [?|Hin]; [done|]);
          apply elem_of_nil in Hin.
      * by destruct (H1 s).
    + rewrite bool_decide_eq_false_2 by done.
      destruct (String.eqb s EmptyString) eqn:E; simpl.
      * apply String.eqb_eq in E. subst s.
        rewrite !elem_of_cons, elem_of_nil. split.
        -- intros [->|[->|[]]].
           ++ eapply StatusNotAllowed; [done|]. intros s Hs [= <-]. done.
           ++ by eapply StatusEmpty.
        -- intros H. inversion H; simplify_eq; auto. by destruct (H1 EmptyString).
      * apply String.eqb_neq in E.
        rewrite !elem_of_cons, elem_of_nil. split.
        -- intros [->|[]].
           eapply StatusNotAllowed; [done|]. intros s' Hs [= <-]. done.
        -- intros H. inversion H; simplify_eq; auto. by destruct (H1 s).
  - rewrite !elem_of_cons, elem_of_nil. split.
    + intros [->|[->|[]]].
      * eapply StatusNotAllowed; [done|]. by intros s Hs.
      * eapply StatusNotString; [done|]. by intros s.
    + intros H. inversion H; simplify_eq; auto.
  - rewrite !elem_of_cons, elem_of_nil. split.
    + intros [->|[->|[]]].
      * eapply StatusNotAllowed; [done|]. by intros s Hs.
      * eapply StatusNotString; [done|]. by intros s.
    + intros H. inversion H; simplify_eq; auto.
  - rewrite !elem_of_cons, elem_of_nil. split.
    + intros [->|[->|[]]].
      * eapply StatusNotAllowed; [done|]. by intros s Hs.
      * eapply StatusNotString; [done|]. by intros s.
    + intros H. inversion H; simplify_eq; auto.
  - rewrite elem_of_nil. split; [done|]. intros H. by inversion H.
Qed.

Lemma isSafe_spec q :
  isSafe q = true ↔ (inject_Z (- maxSafe) <= q)%Q ∧ (q <= inject_Z maxSafe)%Q.
Proof. unfold isSafe. by rewrite andb_true_iff, !Qle_bool_iff. Qed.

Lemma isSafe_false q :
  isSafe q = false ↔ (q < inject_Z (- maxSafe) ∨ inject_Z maxSafe < q)%Q.
Proof.
  split.
  - intros H.
    destruct (Qlt_le_dec q (inject_Z (- maxSafe))) as [?|H1]; [by left|].
    destruct (Qlt_le_dec (inject_Z maxSafe) q) as [?|H2]; [by right|].
    assert (isSafe q = true) by (by apply isSafe_spec). congruence.
  - intros H. destruct (isSafe q) eqn:E; [|done].
    apply isSafe_spec in E as [H1 H2].
    destruct H as [H|H]; [by apply Qlt_not_le in H|by apply Qlt_not_le in H].
Qed.

Lemma valueViolation_spec v fe :
  fe ∈ fieldErrors (Joi.validateKey ext leadValueKey v).1
  ↔ valueViolation ext v fe.
Proof.
  unfold Joi.validateKey, Joi.checkNumber, fieldErrors, Joi.report.
  destruct v as [x|]; simpl.
  - destruct (Joi.toNumber ext x) as [| | |q] eqn:Hx; simpl.
    + rewrite list_elem_of_singleton. split.
      * intros ->. by eapply ValueNotNumber.
      * intros H. inversion H; simplify_eq; first [congruence|reflexivity].
    + rewrite list_elem_of_singleton. split.
      * intros ->. by eapply ValueInfinite.
      * intros H. inversion H; simplify_eq; first [congruence|reflexivity].
    + rewrite list_elem_of_singleton. split.
      * intros ->. by eapply ValueInexact.
      * intros H. inversion H; simplify_eq; first [congruence|reflexivity].
    + destruct (isSafe q) eqn:Hs; simpl.
      * apply isSafe_spec in Hs as [Hlo Hhi].
        destruct (Qle_bool (inject_Z 0) q) eqn:Hq; simpl.
        -- apply Qle_bool_iff in Hq. rewrite elem_of_nil.
           split; [done|]. intros H. inversion H; simplify_eq; try congruence.
           ++ assert (q0 = q) as -> by congruence.
              destruct H2 as [H2|H2]; by apply Qlt_not_le in H2.
           ++ assert (q0 = q) as -> by congruence.
              by apply Qlt_not_le in H3.
        -- assert (q < 0)%Q as Hneg.
           { apply Qnot_le_lt. intros Hle. apply Qle_bool_iff in Hle.
             change (inject_Z 0) with 0%Q in Hq. congruence. }
           rewrite list_elem_of_singleton. split.
           ++ intros ->. by eapply ValueNegative.
           ++ intros H. inversion H; simplify_eq; try congruence;
                [|reflexivity].
              assert (q0 = q) as -> by congruence.
              destruct H2 as [H2|H2]; by apply Qlt_not_le in H2.
      * apply isSafe_false in Hs. rewrite list_elem_of_singleton. split.
        -- intros ->. by eapply ValueUnsafe.
        -- intros H. inversion H; simplify_eq; try congruence;
             [reflexivity|].
           assert (q0 = q) as -> by congruence.
           destruct Hs as [Hs|Hs]; [by apply Qlt_not_le in Hs|].
           apply Qlt_not_le in H3. destruct H3.
           apply Qlt_le_weak. eapply Qlt_trans; [|exact Hs]. done.
  - rewrite elem_of_nil. split; [done|]. intros H. by inversion H.
Qed.

Lemma undeclared_spec s body fe :
  fe ∈ fieldErrors (map Joi.unknownDetail (Joi.unknownKeys ext s body))
  ↔ undeclared (map Joi.label s) body fe.
Proof.
  unfold fieldErrors. rewrite map_map. split.
  - intros (l & -> & Hl)%list_elem_of_fmap. unfold Joi.unknownKeys in Hl.
    apply list_elem_of_In, filter_In in Hl as [Hin Hfresh].
    apply list_elem_of_In, elem_of_ownKeys in Hin.
    apply negb_true_iff, bool_decide_eq_false in Hfresh.
    by apply (Undeclared _ _ l).
  - intros H. inversion H as [l Hin Hfresh]. subst.
    apply (list_elem_of_fmap_2
             (λ x, {| field := join "." (Joi.path (Joi.unknownDetail x));
                      message := Joi.message (Joi.unknownDetail x) |})
             _ l).
    unfold Joi.unknownKeys. apply list_elem_of_In, filter_In. split.
    + by apply list_elem_of_In, elem_of_ownKeys.
    + by apply negb_true_iff, bool_decide_eq_false.
Qed.

(** The details of a refused customer body are exactly the constraints it
    breaks. *)
Lemma customerSchema_details body fe :
  fe ∈ fieldErrors (Joi.error (Joi.validate ext customerSchema body
                                 {| Joi.abortEarly := false |}))
  ↔ customerViolation ext body fe.
Proof.
  rewrite validate_error. simpl. rewrite app_nil_r.
  rewrite !fieldErrors_app, !elem_of_app.
  assert (fe ∈ fieldErrors (Joi.validateKey ext customerNameKey (body !! "name")).1
          ↔ requiredText "name" "Customer name is required"
              "Name must be at least 2 characters"
              "Name cannot exceed 100 characters" 2 100 (body !! "name") fe)
    as -> by apply requiredText_spec.
  rewrite emailViolation_spec.
  assert (fe ∈ fieldErrors (Joi.validateKey ext customerPhoneKey (body !! "phone")).1
          ↔ optionalText "phone" "Phone number cannot exceed 20 characters" 20
              (body !! "phone") fe)
    as -> by apply optionalText_spec.
  assert (fe ∈ fieldErrors
                 (Joi.validateKey ext customerCompanyKey (body !! "company")).1
          ↔ optionalText "company" "Company name cannot exceed 100 characters"
              100 (body !! "company") fe)
    as -> by apply optionalText_spec.
  rewrite undeclared_spec. unfold customerViolation. simpl. tauto.
Qed.

(** The details of a refused lead body are exactly the constraints it
    breaks. *)
Lemma leadSchema_details body fe :
  fe ∈ fieldErrors (Joi.error (Joi.validate ext leadSchema body
                                 {| Joi.abortEarly := false |}))
  ↔ leadViolation ext body fe.
Proof.
  rewrite validate_error. simpl. rewrite app_nil_r.
  rewrite !fieldErrors_app, !elem_of_app.
  assert (fe ∈ fieldErrors (Joi.validateKey ext leadTitleKey (body !! "title")).1
          ↔ requiredText "title" "Lead title is required"
              "Title must be at least 2 characters"
              "Title cannot exceed 200 characters" 2 200 (body !! "title") fe)
    as -> by apply requiredText_spec.
  assert (fe ∈ fieldErrors
                 (Joi.validateKey ext leadDescriptionKey (body !! "description")).1
          ↔ optionalText "description"
              "Description cannot exceed 1000 characters" 1000
              (body !! "description") fe)
    as -> by apply optionalText_spec.
  rewrite statusViolation_spec, valueViolation_spec, undeclared_spec.
  unfold leadViolation. simpl. tauto.
Qed.

End Violations.

(** The details of the body of a writing request are exactly the
    constraints it breaks. *)
Lemma body_details ext r s body fe :
  checkedBody r = Some (s, body) →
  fe ∈ fieldErrors (Joi.error (Joi.validate ext s body {| Joi.abortEarly := false |}))
  ↔ bodyViolation ext r fe.
Proof.
  intros Hr. destruct r; simpl in Hr; simplify_eq; simpl;
    first [apply customerSchema_details|apply leadSchema_details].
Qed.

(** A body passes its schema exactly when it breaks no constraint. *)
Lemma body_accepted_iff ext r s body :
  checkedBody r = Some (s, body) →
  Joi.error (Joi.validate ext s body {| Joi.abortEarly := false |}) = []
  ↔ ∀ fe, ¬ bodyViolation ext r fe.
Proof.
  intros Hr. split.
  - intros Hnil fe Hfe. apply (body_details ext r s body fe Hr) in Hfe.
    rewrite Hnil in Hfe. by apply elem_of_nil in Hfe.
  - intros Hnone.
    destruct (Joi.error (Joi.validate ext s body {| Joi.abortEarly := false |}))
      as [|d ds] eqn:He; [done|].
    destruct (Hnone (fieldError d)).
    apply (body_details ext r s body _ Hr). rewrite He.
    apply fieldErrors_elem, list_elem_of_here.
Qed.

(** C6.  When the body of a writing route breaks its schema, the response is
    400 "Validation failed", no persistence call is made and the database is
    as it was.  The details are complete and exact: an entry is among them
    if and only if the body breaks the constraint it reports --- a member
    that is missing, of the wrong type, empty, too short or too long, an
    email that is not an address, a status that is not one of the four, a
    value that is not a number, not safe or negative, a member that the
    schema does not declare --- so that several broken constraints are all
    reported, not only the first.  In particular a lead whose value is -5 is
    refused with "Value cannot be negative" on [value], and nothing is
    stored. *)
Theorem invalid_body_rejected ext env who r w :
  (∃ fe, bodyViolation ext r fe) →
  ∃ ds,
    serve ext env who r w
    = ({| status := 400; payload := Failure "Validation failed" (Some ds) |}, w)
    ∧ (∀ fe, fe ∈ ds ↔ bodyViolation ext r fe)
    ∧ (∀ cid b, b !! "value" = Some (JNum (-5)) →
         ∃ ds', serve ext env who (PostLead cid b) w
                = ({| status := 400;
                      payload := Failure "Validation failed" (Some ds') |}, w)
                ∧ entry "value" "Value cannot be negative" ∈ ds').
Proof.
  intros [fe Hfe].
  assert (∃ s body, checkedBody r = Some (s, body)) as (s & body & Hr).
  { destruct r; simpl in Hfe; try done; simpl; eauto. }
  set (errs := Joi.error (Joi.validate ext s body {| Joi.abortEarly := false |})).
  assert (errs ≠ []) as Hne.
  { apply (body_details ext r s body fe Hr) in Hfe. fold errs in Hfe.
    intros Hnil. rewrite Hnil in Hfe. by apply elem_of_nil in Hfe. }
  exists (fieldErrors errs). split_and!.
  - destruct r; simpl in Hr; simplify_eq; simpl;
      by rewrite (validate_fails _ _ _ Hne).
  - intros fe'. by apply body_details.
  - intros cid b Hb.
    assert (entry "value" "Value cannot be negative"
            ∈ fieldErrors (Joi.error (Joi.validate ext leadSchema b
                                        {| Joi.abortEarly := false |}))) as Hin.
    { apply leadSchema_details. right. right. right. left.
      eapply ValueNegative; [done|done|done|done]. }
    eexists. split; [|exact Hin].
    simpl. rewrite validate_fails; [done|].
    intros Hnil. rewrite Hnil in Hin. by apply elem_of_nil in Hin.
Qed.

Lemma invalid_body_rejected_witness :
  ∃ ds,
    serve sampleExternals sampleEnv alice
      (PostLead acmeId {[ "title" := JStr "A"; "value" := JNum (-5) ]})
      sampleWorld
    = ({| status := 400; payload := Failure "Validation failed" (Some ds) |},
       sampleWorld)
    ∧ entry "title" "Title must be at least 2 characters" ∈ ds
    ∧ entry "value" "Value cannot be negative" ∈ ds.
Proof.
  destruct (invalid_body_rejected sampleExternals sampleEnv alice
              (PostLead acmeId {[ "title" := JStr "A"; "value" := JNum (-5) ]})
              sampleWorld)
    as (ds & Hrun & Hiff & _).
  - exists (entry "value" "Value cannot be negative").
    right. right. right. left.
    eapply ValueNegative; [reflexivity|reflexivity|done|done].
  - exists ds. split; [exact Hrun|]. split; apply Hiff.
    + left. eapply TextShort; [reflexivity| |]; vm_compute; [discriminate|lia].
    + right. right. right. left.
      eapply ValueNegative; [reflexivity|reflexivity|done|done].
Defined.

(* ================================================================== *)
(** * Email uniqueness *)
(* ================================================================== *)

(** Mongoose accepts a new customer whose body passed
    [validate(customerSchema)] as soon as the email matches the pattern
    of the schema; the document carries the validated members. *)
Lemma customerSchema_create ext body v o t e :
  validate ext customerSchema body = inr v →
  v !! "email" = Some (JStr e) →
  Customer.validEmail e = true →
  ∃ c, Customer.create v o t = inr c
       ∧ Customer.email c = e ∧ Customer.ownerId c = o
       ∧ v !! "name" = Some (JStr (Customer.name c)).
Proof.
  intros (Hn & He & Hp & Hc & _)%customerSchema_validated Hv Hvalid.
  destruct Hn as (n & Hn & Hnt & Hne & Hnl).
  destruct He as (e' & He & Het & Hel & _). rewrite Hv in He. simplify_eq.
  unfold Customer.create, Customer.requiredPath, Customer.optionalPath.
  rewrite Hn, Hv. simpl.
  unfold Customer.setName, Customer.setEmail, Customer.validName.
  rewrite Hnt, Hel, Het, Hvalid.
  apply String.eqb_neq in Hne. rewrite Hne. simpl.
  replace (String.length n <=? 100) with true
    by (symmetry; apply Nat.leb_le; lia).
  destruct Hp as [Hp|(p & Hp & Hpt & Hpl)], Hc as [Hc|(c & Hc & Hct & Hcl)];
    rewrite Hp, Hc; simpl;
    unfold Customer.setPhone, Customer.validPhone, Customer.setCompany,
      Customer.validCompany; rewrite ?Hpt, ?Hct;
    repeat match goal with
    | |- context [?a <=? ?b] =>
        replace (a <=? b) with true by (symmetry; apply Nat.leb_le; lia)
    end; eauto.
Qed.

(** C5 (the code departs from it).  Creating a customer with the email of an
    existing customer succeeds with 201 and stores a second record with that
    email: the Customer schema declares no unique index on [email], so the
    handler's duplicate-key branch is never reached through it. *)
Theorem duplicate_email_accepted ext env who body v w i0 c0 :
  validate ext customerSchema body = inr v →
  customers (db w) !! i0 = Some c0 →
  v !! "email" = Some (JStr (Customer.email c0)) →
  Customer.validEmail (Customer.email c0) = true →
  customers (db w) !! newId env = None →
  ∃ c,
    status (serve ext env who (PostCustomer body) w).1 = 201%Z
    ∧ customers (db (serve ext env who (PostCustomer body) w).2) !! newId env
      = Some c
    ∧ customers (db (serve ext env who (PostCustomer body) w).2) !! i0 = Some c0
    ∧ newId env ≠ i0
    ∧ Customer.email c = Customer.email c0.
Proof.
  intros Hv Hc0 He Hvalid Hfresh.
  destruct (customerSchema_create ext body v (_id who) (now env) _ Hv He Hvalid)
    as (c & Hc & Hce & _).
  exists c. simpl. rewrite Hv. simpl. rewrite createCustomer_run. simpl.
  rewrite Hc, Hfresh. simpl.
  assert (newId env ≠ i0) by (intros Heq; rewrite Heq in Hfresh; congruence).
  split_and!; try done.
  - by rewrite lookup_insert_eq.
  - by rewrite lookup_insert_ne.
Qed.

Lemma duplicate_email_accepted_witness :
  ∃ c,
    status (serve sampleExternals sampleEnv bob
              (PostCustomer {[ "name" := JStr "Bob";
                               "email" := JStr "contact@acme.com" ]})
              sampleWorld).1 = 201%Z
    ∧ customers (db (serve sampleExternals sampleEnv bob
              (PostCustomer {[ "name" := JStr "Bob";
                               "email" := JStr "contact@acme.com" ]})
              sampleWorld).2) !! newId sampleEnv = Some c
    ∧ Customer.email c = Customer.email acme.
Proof.
  destruct (duplicate_email_accepted sampleExternals sampleEnv bob
              {[ "name" := JStr "Bob"; "email" := JStr "contact@acme.com" ]}
              {[ "name" := JStr "Bob"; "email" := JStr "contact@acme.com" ]}
              sampleWorld acmeId acme)
    as (c & H1 & H2 & _ & _ & H3).
  - vm_compute. reflexivity.
  - vm_compute. reflexivity.
  - vm_compute. reflexivity.
  - vm_compute. reflexivity.
  - vm_compute. reflexivity.
  - exists c. split_and!; done.
Defined.

(* ================================================================== *)
(** * Pagination arithmetic *)
(* ================================================================== *)



Lemma Qfloor_skip (P L : Z) (p l : Q) :
  (p == inject_Z P)%Q → (l == inject_Z L)%Q →
  Qfloor ((p - 1) * l) = ((P - 1) * L)%Z.
Proof.
  intros Hp Hl. rewrite <- (Qfloor_Z ((P - 1) * L)). apply Qfloor_comp.
  rewrite Hp, Hl, inject_Z_mult. unfold Z.sub. rewrite inject_Z_plus.
  reflexivity.
Qed.

Lemma Qfloor_whole (L : Z) (l : Q) : (l == inject_Z L)%Q → Qfloor l = L.
Proof. intros Hl. rewrite <- (Qfloor_Z L). by apply Qfloor_comp. Qed.



Lemma slice_whole {A : Type} (P L : Z) (p l : Q) (xs : list A) :
  (p == inject_Z P)%Q → (l == inject_Z L)%Q →
  slice ((p - 1) * l) l xs
  = take (Z.to_nat L) (drop (Z.to_nat ((P - 1) * L)) xs).
Proof.
  intros Hp Hl. unfold slice.
  by rewrite (Qfloor_skip P L p l Hp Hl), (Qfloor_whole L l Hl).
Qed.

Section QuerySchemaFacts.
Context (ext : Externals).

Ltac schema_keys s body :=
  let Hk := fresh "Hkeys" in
  let Hf := fresh "Hfresh" in
  destruct (validated_keys ext s body) as (Hk & Hf & _);
  [by apply (bool_decide_unpack _); vm_compute | done | simpl in Hk, Hf].

Ltac key_of Hkeys k He Hv :=
  destruct (Hkeys k) as [He Hv]; [repeat constructor | simpl in He, Hv].

Lemma whole_at_least (q : Q) (a : Z) :
  (q == inject_Z (Qfloor q))%Q → (inject_Z a <= q)%Q → (a ≤ Qfloor q)%Z.
Proof. intros Hq Ha. rewrite Hq in Ha. by rewrite Zle_Qle. Qed.

Lemma whole_at_most (q : Q) (b : Z) :
  (q == inject_Z (Qfloor q))%Q → (q <= inject_Z b)%Q → (Qfloor q ≤ b)%Z.
Proof. intros Hq Hb. rewrite Hq in Hb. by rewrite Zle_Qle. Qed.

(** The [page] key of both query schemas. *)
Lemma page_key k o :
  Joi.type k = Joi.number [Joi.integer; Joi.nmin 1] →
  Joi.required k = false → Joi.default k = Some (JNum 1) →
  (Joi.validateKey ext k o).1 = [] →
  ∃ p P, (Joi.validateKey ext k o).2 = Some (JNum p)
         ∧ (p == inject_Z P)%Q ∧ (1 ≤ P)%Z.
Proof.
  intros Ht Hr Hd He.
  apply (validateKey_number ext _ [Joi.integer; Joi.nmin 1]) in He; [|done].
  destruct o as [x|].
  - destruct He as (q & _ & Hval & Hrules & Hsafe). simpl in Hrules.
    apply app_eq_nil in Hrules as [Hint Hmin].
    apply app_eq_nil in Hmin as [Hmin _].
    apply numberRule_integer in Hint. apply numberRule_min in Hmin.
    exists q, (Qfloor q). split_and!; try done. by apply whole_at_least.
  - destruct He as [_ He]. rewrite He, Hd. exists 1%Q, 1%Z. done.
Qed.

(** The [limit] key of both query schemas. *)
Lemma limit_key k o :
  Joi.type k = Joi.number [Joi.integer; Joi.nmin 1; Joi.nmax 100] →
  Joi.required k = false → Joi.default k = Some (JNum 10) →
  (Joi.validateKey ext k o).1 = [] →
  ∃ l L, (Joi.validateKey ext k o).2 = Some (JNum l)
         ∧ (l == inject_Z L)%Q ∧ (1 ≤ L ≤ 100)%Z.
Proof.
  intros Ht Hr Hd He.
  apply (validateKey_number ext _ [Joi.integer; Joi.nmin 1; Joi.nmax 100]) in He;
    [|done].
  destruct o as [x|].
  - destruct He as (q & _ & Hval & Hrules & Hsafe). simpl in Hrules.
    apply app_eq_nil in Hrules as [Hint Hmin].
    apply app_eq_nil in Hmin as [Hmin Hmax].
    apply app_eq_nil in Hmax as [Hmax _].
    apply numberRule_integer in Hint. apply numberRule_min in Hmin.
    apply numberRule_max in Hmax.
    exists q, (Qfloor q). split_and!; try done.
    + by apply whole_at_least.
    + by apply whole_at_most.
  - destruct He as [_ He]. rewrite He, Hd. exists 10%Q, 10%Z. done.
Qed.

(** A query that passed [validateQuery(paginationSchema)]: whole [page]
    and [limit] within their bounds, and a trimmed [q] when there is one. *)
Lemma paginationSchema_validated query v :
  validateQuery ext paginationSchema query = inr v →
  (∃ p l P L,
     queryNumber v "page" = Some p ∧ queryNumber v "limit" = Some l
     ∧ (p == inject_Z P)%Q ∧ (l == inject_Z L)%Q
     ∧ (1 ≤ P)%Z ∧ (1 ≤ L ≤ 100)%Z)
  ∧ (queryString v "q" = None
     ∨ ∃ q, queryString v "q" = Some q ∧ trim q = q ∧ String.length q ≤ 100).
Proof.
  intros [Herr ->]%validateQuery_inr.
  schema_keys paginationSchema query. split.
  - key_of Hkeys paginationPageKey He Hv.
    destruct (page_key paginationPageKey _ eq_refl eq_refl eq_refl He) as (p & P & Hp & HpP & HP).
    key_of Hkeys paginationLimitKey He' Hv'.
    destruct (limit_key paginationLimitKey _ eq_refl eq_refl eq_refl He') as (l & L & Hl & HlL & HL).
    exists p, l, P, L. unfold queryNumber.
    rewrite Hv, Hp, Hv', Hl. done.
  - key_of Hkeys paginationQKey He Hv.
    apply (validateKey_string ext _ [Joi.trim_; Joi.max 100]) in He; [|done].
    unfold queryString. rewrite Hv.
    destruct (query !! "q") as [x|].
    + destruct He as (s & -> & Hval & Hcase). right. rewrite Hval. simpl.
      exists (trim s). split; [done|]. split; [apply trim_idemp|].
      destruct Hcase as [Hin|(Hne & _ & Hrules)].
      * simpl in Hin. apply list_elem_of_singleton in Hin.
        change (Joi.coerce _ s) with (trim s) in Hin. rewrite Hin. simpl. lia.
      * simpl in Hrules. apply app_eq_nil in Hrules as [Hmax _].
        by apply (stringRule_max ext) in Hmax.
    + left. destruct He as [_ He]. by rewrite He.
Qed.

(** A query that passed [validateQuery(leadFilterSchema)]. *)
Lemma leadFilterSchema_validated query v :
  validateQuery ext leadFilterSchema query = inr v →
  (∃ p l P L,
     queryNumber v "page" = Some p ∧ queryNumber v "limit" = Some l
     ∧ (p == inject_Z P)%Q ∧ (l == inject_Z L)%Q
     ∧ (1 ≤ P)%Z ∧ (1 ≤ L ≤ 100)%Z)
  ∧ (∀ s, truthy (queryString v "status") = Some s → s ∈ leadStatuses).
Proof.
  intros [Herr ->]%validateQuery_inr.
  schema_keys leadFilterSchema query. split.
  - key_of Hkeys leadFilterPageKey He Hv.
    destruct (page_key leadFilterPageKey _ eq_refl eq_refl eq_refl He) as (p & P & Hp & HpP & HP).
    key_of Hkeys leadFilterLimitKey He' Hv'.
    destruct (limit_key leadFilterLimitKey _ eq_refl eq_refl eq_refl He') as (l & L & Hl & HlL & HL).
    exists p, l, P, L. unfold queryNumber.
    rewrite Hv, Hp, Hv', Hl. done.
  - key_of Hkeys leadFilterStatusKey He Hv.
    apply (validateKey_string ext _ []) in He; [|done].
    unfold queryString. rewrite Hv. intros s.
    destruct (query !! "status") as [x|].
    + destruct He as (s' & -> & Hval & Hcase). rewrite Hval. simpl.
      change (Joi.coerce [] s') with s' in *.
      destruct (String.eqb s' EmptyString) eqn:E; [done|].
      intros [= <-]. apply String.eqb_neq in E.
      destruct Hcase as [Hin|(_ & Ho & _)]; [|done].
      assert (s' ∈ leadStatuses ++ [EmptyString]) as Hin' by exact Hin.
      apply elem_of_app in Hin' as [Hin'|Hin']; [done|].
      apply list_elem_of_singleton in Hin'. done.
    + destruct He as [_ He]. rewrite He. done.
Qed.

End QuerySchemaFacts.

(* ================================================================== *)
(** * List responses *)
(* ================================================================== *)

Lemma slice_fmap {A B : Type} (f : A → B) skip limit (l : list A) :
  f <$> slice skip limit l = slice skip limit (f <$> l).
Proof. unfold slice. by rewrite fmap_take, fmap_drop. Qed.

Lemma validatedQuery_customers ext query v :
  validatedQuery ext (GetCustomers query) = Some v ↔
  validateQuery ext paginationSchema query = inr v.
Proof.
  simpl. destruct (validateQuery ext paginationSchema query); naive_solver.
Qed.

Lemma validatedQuery_leads ext cid query v :
  validatedQuery ext (GetLeads cid query) = Some v ↔
  validateQuery ext leadFilterSchema query = inr v.
Proof.
  simpl. destruct (validateQuery ext leadFilterSchema query); naive_solver.
Qed.

(** The numbers a validated list query carries. *)
Lemma validatedQuery_numbers ext r v :
  validatedQuery ext r = Some v →
  ∃ p l P L,
    queryNumber v "page" = Some p ∧ queryNumber v "limit" = Some l
    ∧ (p == inject_Z P)%Q ∧ (l == inject_Z L)%Q
    ∧ (1 ≤ P)%Z ∧ (1 ≤ L ≤ 100)%Z.
Proof.
  destruct r; try done.
  - intros H%validatedQuery_customers.
    by apply paginationSchema_validated in H as [H _].
  - intros H%validatedQuery_leads.
    by apply leadFilterSchema_validated in H as [H _].
Qed.

(** A list request that passes validation and whose filter can be
    evaluated is answered 200 with the slice of the matching records that
    [page] and [limit] select, and the database is only read. *)
Lemma listing_served ext env who r w v p l all :
  validatedQuery ext r = Some v →
  queryNumber v "page" = Some p →
  queryNumber v "limit" = Some l →
  matchingKeys ext who r (db w) = Some all →
  listable who r (db w) →
  carries (serve ext env who r w).1
          (slice ((p - 1) * l) l all) (pagination p l (length all))
  ∧ db (serve ext env who r w).2 = db w.
Proof.
  intros Hv Hp Hl Hall Hok.
  destruct r; try done.
  - pose proof Hv as Hv'. apply validatedQuery_customers in Hv'.
    unfold matchingKeys in Hall. rewrite Hv in Hall. simpl in Hall.
    destruct (selectCustomers ext _ (db w)) as [sel|] eqn:Hsel; [|done].
    simpl in Hall. simplify_eq.
    simpl. rewrite Hv'. simpl. rewrite listCustomers_run, Hp, Hl, Hsel.
    unfold carries. simpl. split_and!; try done.
    + rewrite <- slice_fmap. unfold listedKeys. simpl.
      rewrite !map_map. done.
    + by rewrite length_map, length_sortDesc.
  - pose proof Hv as Hv'. apply validatedQuery_leads in Hv'.
    destruct Hok as (i & c & Hi & Hc & Hmay).
    apply accessDenied_false in Hmay.
    unfold matchingKeys in Hall. rewrite Hv in Hall. simpl in Hall.
    rewrite Hi in Hall. simpl in Hall. simplify_eq.
    simpl. rewrite Hv'. simpl. rewrite listLeads_run. simpl.
    rewrite Hi, Hc, Hmay, Hp, Hl.
    unfold carries. simpl. split_and!; try done.
    + rewrite <- slice_fmap. unfold listedKeys. simpl.
      rewrite !map_map. done.
    + by rewrite length_map, length_sortDesc.
Qed.


(* ================================================================== *)
(** * Pagination *)
(* ================================================================== *)



(** A validated lead list request past the end of its records that is not
    answered with an empty list: under a customer that does not exist it is
    answered 404, and under a customer of someone else 403. *)
Lemma page_beyond_end_refused :
  validatedQuery sampleExternals
    (GetLeads "c00000000000000000000009" {[ "page" := JStr "2" ]})
  = Some {[ "page" := JNum 2; "limit" := JNum 10 ]}
  ∧ matchingKeys sampleExternals root
      (GetLeads "c00000000000000000000009" {[ "page" := JStr "2" ]}) sampleDb
    = Some []
  ∧ (serve sampleExternals sampleEnv root
       (GetLeads "c00000000000000000000009" {[ "page" := JStr "2" ]})
       sampleWorld).1
    = fail 404 "Customer not found"
  ∧ matchingKeys sampleExternals bob
      (GetLeads acmeId {[ "page" := JStr "2" ]}) sampleDb
    = Some [dealId]
  ∧ (serve sampleExternals sampleEnv bob
       (GetLeads acmeId {[ "page" := JStr "2" ]}) sampleWorld).1
    = fail 403 "Access denied".
Proof. split_and!; vm_compute; reflexivity. Qed.

(** C9, amended.  A validated list request whose query is evaluated --- the
    customer list when its search pattern, if any, compiles; the lead list
    when the customer of the path exists and may be accessed --- and whose
    offset (page - 1) * limit is at least the number of matching records is
    answered 200 with an empty list and the [pagination] object of that
    total; nothing is written. *)
Theorem page_beyond_end ext env who r w v p l all :
  validatedQuery ext r = Some v →
  queryNumber v "page" = Some p →
  queryNumber v "limit" = Some l →
  matchingKeys ext who r (db w) = Some all →
  listable who r (db w) →
  (inject_Z (Z.of_nat (length all)) <= (p - 1) * l)%Q →
  carries (serve ext env who r w).1 [] (pagination p l (length all))
  ∧ listedCustomers (serve ext env who r w).1 = []
  ∧ db (serve ext env who r w).2 = db w.
Proof.
  intros Hv Hp Hl Hall Hok Hbeyond.
  destruct (listing_served ext env who r w v p l all Hv Hp Hl Hall Hok)
    as [(Hst & Hkeys & Hpg) Hdb].
  assert (slice ((p - 1) * l) l all = []) as Hnil.
  { apply slice_beyond. apply Qfloor_resp_le in Hbeyond.
    rewrite Qfloor_Z in Hbeyond. lia. }
  rewrite Hnil in Hkeys. split_and!; try done.
  unfold listedKeys in Hkeys. unfold listedCustomers.
  destruct (payload _); try done. by apply fmap_nil_inv in Hkeys.
Qed.

Lemma page_beyond_end_witness :
  carries (serve sampleExternals sampleEnv root
             (GetCustomers {[ "page" := JStr "3" ]}) sampleWorld).1
          [] (pagination 3 10 2).
Proof.
  destruct (page_beyond_end sampleExternals sampleEnv root
              (GetCustomers {[ "page" := JStr "3" ]}) sampleWorld
              {[ "page" := JNum 3; "limit" := JNum 10 ]} 3 10
              [globexId; acmeId])
    as [H _].
  - vm_compute. reflexivity.
  - vm_compute. reflexivity.
  - vm_compute. reflexivity.
  - vm_compute. reflexivity.
  - exact I.
  - vm_compute. discriminate.
  - exact H.
Defined.

(* ================================================================== *)
(** * Visibility of the customer list *)
(* ================================================================== *)

Lemma selectCustomers_elem ext f d sel :
  selectCustomers ext f d = Some sel →
  ∃ rs, compileOr ext (filterOr f) = Some rs
        ∧ ∀ k c, (k, c) ∈ sel ↔
                 customers d !! k = Some c
                 ∧ matchesFilter (filterOwner f) rs c = true.
Proof.
  unfold selectCustomers.
  destruct (compileOr ext (filterOr f)) as [rs|]; [|done].
  simpl. intros [= <-]. exists rs. split; [done|]. intros k c.
  rewrite list_elem_of_In, filter_In, <- list_elem_of_In.
  by rewrite elem_of_map_to_list.
Qed.

Lemma matchingKeys_customers ext who query v d all :
  validatedQuery ext (GetCustomers query) = Some v →
  matchingKeys ext who (GetCustomers query) d = Some all →
  ∃ rs, compileOr ext (filterOr (customerFilter who (queryString v "q"))) = Some rs
        ∧ ∀ k, k ∈ all ↔
               ∃ c, customers d !! k = Some c
                    ∧ matchesFilter
                        (filterOwner (customerFilter who (queryString v "q")))
                        rs c = true.
Proof.
  intros Hv Hall. unfold matchingKeys in Hall. rewrite Hv in Hall.
  simpl in Hall.
  destruct (selectCustomers ext _ d) as [sel|] eqn:Hsel; [|done].
  simpl in Hall. simplify_eq.
  destruct (selectCustomers_elem _ _ _ _ Hsel) as (rs & Hrs & Hin).
  exists rs. split; [done|]. intros k. split.
  - intros ((k' & c) & -> & Hkc)%list_elem_of_fmap.
    apply elem_of_sortDesc in Hkc. simpl. exists c. by apply Hin.
  - intros (c & Hkc).
    apply (list_elem_of_fmap_2 fst _ (k, c)).
    apply elem_of_sortDesc. by apply Hin.
Qed.

(** The owner part of the list filter: nothing for an administrator, the
    requester's own records for anyone else. *)
Lemma matchesOwner_scoped who q c :
  matchesOwner (filterOwner (customerFilter who q)) c = true
  ↔ (role who ≠ "admin" → Customer.ownerId c = _id who).
Proof.
  unfold customerFilter. simpl.
  destruct (String.eqb (role who) "admin") eqn:E; simpl.
  - apply String.eqb_eq in E. split; [done|]. done.
  - apply String.eqb_neq in E. rewrite String.eqb_eq. split; [done|]. auto.
Qed.

(** One compiled pattern tried on the three searched paths. *)
Lemma matchesOr_paths rx c :
  matchesOr [("name", rx); ("email", rx); ("company", rx)] c = true
  ↔ ∃ f s, f ∈ ["name"; "email"; "company"]
           ∧ Customer.path f c = Some s ∧ search rx s = true.
Proof.
  unfold matchesOr. rewrite existsb_exists. split.
  - intros ([f r] & Hin & Hm). simpl in Hm.
    destruct (Customer.path f c) as [s|] eqn:Hp; [|done].
    exists f, s.
    apply list_elem_of_In in Hin.
    repeat (apply elem_of_cons in Hin as [Hin|Hin];
            [simplify_eq; split_and!; [repeat constructor|done|done]|]).
    by apply elem_of_nil in Hin.
  - intros (f & s & Hf & Hp & Hs). exists (f, rx). simpl. rewrite Hp.
    split; [|done].
    repeat (apply elem_of_cons in Hf as [->|Hf]; [simpl; tauto|]).
    by apply elem_of_nil in Hf.
Qed.

Lemma selectCustomers_NoDup ext f d sel :
  selectCustomers ext f d = Some sel →
  NoDup (map fst (sortDesc (λ kc, Customer.createdAt kc.2) sel)).
Proof.
  unfold selectCustomers.
  destruct (compileOr ext (filterOr f)) as [rs|]; [|done].
  simpl. intros [= <-].
  assert (∀ l : list (ObjectId * Customer.doc),
            map fst (sortDesc (λ kc, Customer.createdAt kc.2) l) ≡ₚ map fst l)
    as ->.
  { intros l. apply Permutation_map, sortDesc_Permutation. }
  apply NoDup_fmap_fst.
  - intros k c1 c2 H1 H2.
    apply list_elem_of_In, filter_In in H1 as [H1 _].
    apply list_elem_of_In, filter_In in H2 as [H2 _].
    apply list_elem_of_In, elem_of_map_to_list in H1.
    apply list_elem_of_In, elem_of_map_to_list in H2. congruence.
  - apply NoDup_ListNoDup, List.NoDup_filter, NoDup_ListNoDup.
    apply NoDup_map_to_list.
Qed.

(** C2.  Every customer in the answer to GET /api/customers is a stored
    customer and, when the requester is not an administrator, one whose
    owner is the requester.  The answer to a validated query carries the
    requested slice, and the total, of a list that holds each matching
    customer once: without a search, every stored customer for an
    administrator and every stored customer of the requester for anyone
    else; with a search, those of them that the pattern finds in the name,
    the email or the company.  So the filter is narrowed to the requester's
    own records exactly when the role is not [admin]. *)
Theorem customer_list_scoped ext env who query w :
  (∀ it, it ∈ listedCustomers (serve ext env who (GetCustomers query) w).1 →
         customers (db w) !! customerKey (item it) = Some (customerDoc (item it))
         ∧ (role who ≠ "admin" →
            Customer.ownerId (customerDoc (item it)) = _id who))
  ∧ (∀ v p l,
       validatedQuery ext (GetCustomers query) = Some v →
       queryNumber v "page" = Some p →
       queryNumber v "limit" = Some l →
       (truthy (queryString v "q") = None →
          ∃ all,
            NoDup all
            ∧ (∀ k, k ∈ all ↔
                    ∃ c, customers (db w) !! k = Some c
                         ∧ (role who ≠ "admin" → Customer.ownerId c = _id who))
            ∧ carries (serve ext env who (GetCustomers query) w).1
                      (slice ((p - 1) * l) l all) (pagination p l (length all)))
       ∧ (∀ q rx,
            truthy (queryString v "q") = Some q →
            compileRegex ext q = Some rx →
            ∃ all,
              NoDup all
              ∧ (∀ k, k ∈ all ↔
                      ∃ c, customers (db w) !! k = Some c
                           ∧ (role who ≠ "admin" →
                              Customer.ownerId c = _id who)
                           ∧ ∃ f s, f ∈ ["name"; "email"; "company"]
                                    ∧ Customer.path f c = Some s
                                    ∧ search rx s = true)
              ∧ carries (serve ext env who (GetCustomers query) w).1
                        (slice ((p - 1) * l) l all)
                        (pagination p l (length all)))).
Proof.
  split.
  - intros it. simpl.
    destruct (validateQuery ext paginationSchema query) as [e|v] eqn:Hv; simpl.
    { unfold validateQuery in Hv. destruct (Joi.error _); simplify_eq.
      unfold listedCustomers. simpl. by intros ?%elem_of_nil. }
    rewrite listCustomers_run.
    destruct (queryNumber v "page") as [p|]; [|by intros ?%elem_of_nil].
    destruct (queryNumber v "limit") as [l|]; [|by intros ?%elem_of_nil].
    destruct (selectCustomers ext _ (db w)) as [sel|] eqn:Hsel;
      [|by intros ?%elem_of_nil].
    unfold listedCustomers. simpl.
    intros (cv & -> & Hcv)%list_elem_of_fmap. simpl.
    apply list_elem_of_fmap in Hcv as ((k & c) & -> & Hkc). simpl.
    apply elem_of_slice, elem_of_sortDesc in Hkc.
    destruct (selectCustomers_elem _ _ _ _ Hsel) as (rs & _ & Hin).
    destruct (proj1 (Hin _ _) Hkc) as [Hlook Hm]. split; [done|].
    apply andb_true_iff in Hm as [Hm _]. exact (proj1 (matchesOwner_scoped _ _ _) Hm).
  - intros v p l Hv Hp Hl.
    assert (∀ rs,
              compileOr ext (filterOr (customerFilter who (queryString v "q")))
              = Some rs →
              ∃ all,
                NoDup all
                ∧ (∀ k, k ∈ all ↔
                        ∃ c, customers (db w) !! k = Some c
                             ∧ matchesFilter
                                 (filterOwner
                                    (customerFilter who (queryString v "q")))
                                 rs c = true)
                ∧ carries (serve ext env who (GetCustomers query) w).1
                          (slice ((p - 1) * l) l all)
                          (pagination p l (length all))) as Hserved.
    { intros rs Hrs.
      destruct (selectCustomers ext (customerFilter who (queryString v "q"))
                  (db w)) as [sel|] eqn:Hsel;
        [|by unfold selectCustomers in Hsel; rewrite Hrs in Hsel].
      assert (matchingKeys ext who (GetCustomers query) (db w)
              = Some (map fst (sortDesc (λ kc, Customer.createdAt kc.2) sel)))
        as Hall.
      { unfold matchingKeys. rewrite Hv. simpl. by rewrite Hsel. }
      eexists. split_and!.
      - by eapply selectCustomers_NoDup.
      - destruct (matchingKeys_customers ext who query v (db w) _ Hv Hall)
          as (rs' & Hrs' & Hin).
        rewrite Hrs in Hrs'. by simplify_eq.
      - by apply (listing_served ext env who (GetCustomers query) w v p l). }
    split.
    + intros Hq.
      destruct (Hserved []) as (all & Hnd & Hin & Hcarries).
      { unfold customerFilter. simpl. by rewrite Hq. }
      exists all. split_and!; try done.
      intros k. rewrite Hin. unfold matchesFilter.
      split; intros (c & Hc & Hm); exists c; (split; [done|]).
      * apply andb_true_iff in Hm as [Hm _]. exact (proj1 (matchesOwner_scoped _ _ _) Hm).
      * apply andb_true_iff. split; [|done]. by apply matchesOwner_scoped.
    + intros q rx Hq Hrx.
      destruct (Hserved [("name", rx); ("email", rx); ("company", rx)])
        as (all & Hnd & Hin & Hcarries).
      { unfold customerFilter. simpl. rewrite Hq. simpl. by rewrite Hrx. }
      exists all. split_and!; try done.
      intros k. rewrite Hin. unfold matchesFilter.
      split; intros (c & Hc & Hm); exists c; (split; [done|]).
      * apply andb_true_iff in Hm as [Hm Hs].
        split; [exact (proj1 (matchesOwner_scoped _ _ _) Hm)|].
        by apply matchesOr_paths.
      * destruct Hm as [Hm Hs]. apply andb_true_iff.
        split; [by apply matchesOwner_scoped|]. by apply matchesOr_paths.
Qed.

Lemma customer_list_scoped_witness :
  Forall (λ it, Customer.ownerId (customerDoc (item it)) = _id bob)
         (listedCustomers (serve sampleExternals sampleEnv bob
                             (GetCustomers ∅) sampleWorld).1)
  ∧ ∃ all,
      acmeId ∈ all ∧ globexId ∈ all
      ∧ carries (serve sampleExternals sampleEnv root (GetCustomers ∅)
                   sampleWorld).1
                (slice ((1 - 1) * 10)%Q 10%Q all)
                (pagination 1%Q 10%Q (length all)).
Proof.
  split.
  - apply Forall_forall. intros it Hit.
    destruct (customer_list_scoped sampleExternals sampleEnv bob ∅ sampleWorld)
      as [Hlisted _].
    destruct (Hlisted it Hit) as [_ Hown]. apply Hown. discriminate.
  - destruct (customer_list_scoped sampleExternals sampleEnv root ∅ sampleWorld)
      as [_ Hserved].
    destruct (Hserved {[ "page" := JNum 1; "limit" := JNum 10 ]} 1%Q 10%Q)
      as [Hall _].
    + vm_compute. reflexivity.
    + vm_compute. reflexivity.
    + vm_compute. reflexivity.
    + destruct Hall as (all & _ & Hin & Hcarries); [vm_compute; reflexivity|].
      exists all. split_and!; [| |exact Hcarries].
      * apply Hin. exists acme. split; [vm_compute; reflexivity|].
        intros Hrole. by destruct Hrole.
      * apply Hin. exists globex. split; [vm_compute; reflexivity|].
        intros Hrole. by destruct Hrole.
Defined.

(* ================================================================== *)
(** * Matching by derivatives *)
(* ================================================================== *)

Lemma matches_empty s : matches REmpty s = false.
Proof. induction s; simpl; done. Qed.

Lemma matches_eps s : matches REps s = true ↔ s = EmptyString.
Proof.
  destruct s as [|c s]; simpl; [done|].
  rewrite matches_empty. split; discriminate.
Qed.

Lemma matches_alt r1 r2 s :
  matches (RAlt r1 r2) s = matches r1 s || matches r2 s.
Proof. revert r1 r2. induction s as [|c s IH]; intros r1 r2; simpl; [done|]. apply IH. Qed.

Lemma append_empty_l s : EmptyString +:+ s = s.
Proof. reflexivity. Qed.

Lemma append_cons c s t : String c s +:+ t = String c (s +:+ t).
Proof. reflexivity. Qed.

Lemma append_empty_r s : s +:+ EmptyString = s.
Proof. induction s as [|c s IH]; [done|]. by rewrite append_cons, IH. Qed.

Lemma append_nil_inv s t :
  s +:+ t = EmptyString → s = EmptyString ∧ t = EmptyString.
Proof. destruct s; [by rewrite append_empty_l|by rewrite append_cons]. Qed.

Ltac norm_append := rewrite ?append_cons, ?append_empty_l in *.

Lemma matches_seq r1 r2 s :
  matches (RSeq r1 r2) s = true ↔
  ∃ s1 s2, s = s1 +:+ s2 ∧ matches r1 s1 = true ∧ matches r2 s2 = true.
Proof.
  revert r1. induction s as [|c s IH]; intros r1; simpl.
  - rewrite andb_true_iff. split.
    + intros [H1 H2]. by exists EmptyString, EmptyString.
    + intros (s1 & s2 & Hs & H1 & H2).
      symmetry in Hs. apply append_nil_inv in Hs as [-> ->]. done.
  - destruct (nullable r1) eqn:Hn.
    + rewrite matches_alt, orb_true_iff, IH. split.
      * intros [(s1 & s2 & -> & H1 & H2)|H2].
        -- by exists (String c s1), s2.
        -- by exists EmptyString, (String c s).
      * intros (s1 & s2 & Hs & H1 & H2). destruct s1 as [|c' s1]; norm_append.
        -- right. by subst s2.
        -- left. simplify_eq. by exists s1, s2.
    + rewrite IH. split.
      * intros (s1 & s2 & -> & H1 & H2). by exists (String c s1), s2.
      * intros (s1 & s2 & Hs & H1 & H2). destruct s1 as [|c' s1]; norm_append.
        -- simpl in H1. congruence.
        -- simplify_eq. by exists s1, s2.
Qed.

Lemma matches_char p s :
  matches (RChar p) s = true ↔ ∃ c, s = String c EmptyString ∧ p c = true.
Proof.
  destruct s as [|c s]; simpl.
  - split; [done|]. by intros (c & ? & _).
  - destruct (p c) eqn:Hp.
    + rewrite matches_eps. split.
      * intros ->. by exists c.
      * intros (c' & ? & _). by simplify_eq.
    + rewrite matches_empty. split; [done|].
      intros (c' & ? & Hc'). simplify_eq. congruence.
Qed.

Lemma matches_star_any s : matches (RStar RAny) s = true.
Proof.
  induction s as [|c s IH]; simpl; [done|].
  apply matches_seq. by exists EmptyString, s.
Qed.

(** A search succeeds exactly when some substring of the subject is in the
    language of the pattern. *)
Lemma search_spec r s :
  search r s = true ↔
  ∃ pre mid post, s = pre +:+ mid +:+ post ∧ matches r mid = true.
Proof.
  unfold search. rewrite matches_seq. split.
  - intros (pre & rest & -> & _ & (mid & post & -> & Hmid & _)%matches_seq).
    by exists pre, mid, post.
  - intros (pre & mid & post & -> & Hmid).
    exists pre, (mid +:+ post). split_and!; [done|apply matches_star_any|].
    apply matches_seq. exists mid, post.
    split_and!; [done|done|apply matches_star_any].
Qed.

Lemma matches_literalI q s :
  matches (literalI q) s = true ↔ toLowerCase s = toLowerCase q.
Proof.
  revert s. induction q as [|c q IH]; intros s; simpl.
  - rewrite matches_eps. by destruct s.
  - rewrite matches_seq. split.
    + intros (s1 & s2 & -> & (x & -> & Hx)%matches_char & H2%IH).
      norm_append. simpl. apply Ascii.eqb_eq in Hx. by rewrite Hx, H2.
    + destruct s as [|x s]; simpl; [done|]. intros [= Hx Hs].
      exists (String x EmptyString), s. split_and!; [done| |by apply IH].
      apply matches_char. exists x. split; [done|]. by apply Ascii.eqb_eq.
Qed.

Lemma prefixI_spec q s :
  prefixI q s = true ↔
  ∃ mid post, s = mid +:+ post ∧ toLowerCase mid = toLowerCase q.
Proof.
  revert s. induction q as [|a q IH]; intros s; simpl.
  - split; [|done]. intros _. by exists EmptyString, s.
  - destruct s as [|b s].
    + split; [done|]. intros (mid & post & Hs & Hm).
      symmetry in Hs. apply append_nil_inv in Hs as [-> ->]. done.
    + rewrite andb_true_iff, Ascii.eqb_eq, IH. split.
      * intros (Hab & mid & post & -> & Hm).
        exists (String b mid), post. norm_append. simpl. by rewrite Hab, Hm.
      * intros (mid & post & Hs & Hm). destruct mid as [|x mid]; [done|].
        norm_append. simpl in Hm. simplify_eq. split; [done|]. by exists mid, post.
Qed.

Lemma occursI_spec q s :
  occursI q s = true ↔
  ∃ pre mid post, s = pre +:+ mid +:+ post ∧ toLowerCase mid = toLowerCase q.
Proof.
  induction s as [|c s IH].
  - simpl. rewrite orb_false_r, prefixI_spec. split.
    + intros (mid & post & Hs & Hm). by exists EmptyString, mid, post.
    + intros (pre & mid & post & Hs & Hm).
      symmetry in Hs. apply append_nil_inv in Hs as [-> Hs].
      exists mid, post. by rewrite Hs.
  - simpl occursI. rewrite orb_true_iff, prefixI_spec, IH. split.
    + intros [(mid & post & Hs & Hm)|(pre & mid & post & -> & Hm)].
      * by exists EmptyString, mid, post.
      * by exists (String c pre), mid, post.
    + intros (pre & mid & post & Hs & Hm). destruct pre as [|x pre].
      * left. by exists mid, post.
      * right. norm_append. simplify_eq. by exists pre, mid, post.
Qed.

(** Searching for a literal pattern is looking for a substring, ignoring
    case. *)
Lemma search_literalI q s : search (literalI q) s = occursI q s.
Proof.
  apply eq_true_iff_eq. rewrite search_spec, occursI_spec.
  split; intros (pre & mid & post & Hs & Hm); exists pre, mid, post;
    (split; [done|]); by apply matches_literalI.
Qed.

Lemma dot_is_meta c : Ascii.eqb c "." = true → isRegexMeta c = true.
Proof. intros ->%Ascii.eqb_eq. by vm_compute. Qed.

(** A pattern without metacharacters compiles to the literal pattern. *)
Lemma compileFragment_literal q :
  metaFree q = true → compileFragment q = Some (literalI q).
Proof.
  induction q as [|c q IH]; simpl; [done|].
  intros [Hc Hq]%andb_true_iff. apply negb_true_iff in Hc.
  destruct (Ascii.eqb c ".") eqn:Hdot.
  { apply dot_is_meta in Hdot. congruence. }
  rewrite Hc, (IH Hq). done.
Qed.

(* ================================================================== *)
(** * Search *)
(* ================================================================== *)

Lemma compileRegex_literal ext q :
  metaFree q = true → compileRegex ext q = Some (literalI q).
Proof. intros H. unfold compileRegex. by rewrite (compileFragment_literal q H). Qed.

Lemma matchesOwner_visible who q c :
  matchesOwner (filterOwner (customerFilter who q)) c = visible who c.
Proof.
  unfold customerFilter, visible. simpl.
  by destruct (String.eqb (role who) "admin").
Qed.

(** The filter the customer list builds for a pattern without
    metacharacters selects the visible customers that mention it. *)
Lemma customerFilter_literal ext who q c :
  q ≠ EmptyString → metaFree q = true →
  ∃ rs, compileOr ext (filterOr (customerFilter who (Some q))) = Some rs
        ∧ matchesFilter (filterOwner (customerFilter who (Some q))) rs c
          = visible who c && mentions q c.
Proof.
  intros Hne Hmeta. apply String.eqb_neq in Hne.
  assert (filterOr (customerFilter who (Some q))
          = [("name", q); ("email", q); ("company", q)]) as ->.
  { unfold customerFilter, truthy. simpl. by rewrite Hne. }
  unfold compileOr. rewrite (compileRegex_literal ext q Hmeta).
  eexists. split; [done|].
  unfold matchesFilter. rewrite matchesOwner_visible. f_equal.
  unfold matchesOr, mentions. simpl. rewrite !search_literalI.
  change (Customer.path "company" c) with (Customer.company c).
  rewrite orb_false_r, orb_assoc.
  destruct (Customer.company c); by rewrite ?search_literalI.
Qed.

(** The pattern [a.c] selects a customer named [abc], in which the string
    [a.c] does not occur: the query is a pattern, not a literal string. *)
Lemma search_pattern_not_substring :
  listedKeys (serve sampleExternals sampleEnv root
                (GetCustomers {[ "q" := JStr "a.c" ]}) sampleWorld).1
    = [globexId]
  ∧ customers sampleDb !! globexId = Some globex
  ∧ mentions "a.c" globex = false.
Proof. split_and!; vm_compute; reflexivity. Qed.

(** C8, amended.  For a customer list request whose validated [q] is not
    empty and holds no pattern metacharacter, the records the page is cut
    from and the total counts are exactly the stored customers visible to
    the identity in which [q] occurs, ignoring case, in the name, the email
    or the company; the response carries the requested slice of them.  In
    particular [acme] is found in the company [Acme Corp]. *)
Theorem search_is_substring ext env who query w v q :
  validatedQuery ext (GetCustomers query) = Some v →
  queryString v "q" = Some q →
  q ≠ EmptyString →
  metaFree q = true →
  ∃ all p l,
    matchingKeys ext who (GetCustomers query) (db w) = Some all
    ∧ (∀ k, k ∈ all ↔
            ∃ c, customers (db w) !! k = Some c
                 ∧ visible who c = true ∧ mentions q c = true)
    ∧ queryNumber v "page" = Some p
    ∧ queryNumber v "limit" = Some l
    ∧ carries (serve ext env who (GetCustomers query) w).1
              (slice ((p - 1) * l) l all) (pagination p l (length all))
    ∧ (∀ c, Customer.company c = Some "Acme Corp" → mentions "acme" c = true).
Proof.
  intros Hv Hq Hne Hmeta.
  destruct (validatedQuery_numbers ext _ v Hv)
    as (p & l & P & L & Hp & Hl & _).
  assert (∃ sel, selectCustomers ext (customerFilter who (queryString v "q"))
                   (db w) = Some sel) as [sel Hsel].
  { unfold selectCustomers. rewrite Hq.
    destruct (customerFilter_literal ext who q acme Hne Hmeta) as (rs & -> & _).
    simpl. eauto. }
  assert (matchingKeys ext who (GetCustomers query) (db w)
          = Some (map fst (sortDesc (λ kc, Customer.createdAt kc.2) sel))) as Hall.
  { unfold matchingKeys. rewrite Hv. simpl. by rewrite Hsel. }
  eexists _, p, l. split_and!; try done.
  - intros k.
    destruct (matchingKeys_customers ext who query v (db w) _ Hv Hall)
      as (rs & Hrs & Hin).
    rewrite Hin, Hq. split; intros (c & Hc & Hm); exists c; (split; [done|]).
    + destruct (customerFilter_literal ext who q c Hne Hmeta) as (rs' & Hrs' & Heq).
      rewrite Hq in Hrs. rewrite Hrs in Hrs'. simplify_eq.
      rewrite Heq in Hm. by apply andb_true_iff in Hm.
    + destruct (customerFilter_literal ext who q c Hne Hmeta) as (rs' & Hrs' & Heq).
      rewrite Hq in Hrs. rewrite Hrs in Hrs'. simplify_eq.
      rewrite Heq. by apply andb_true_iff.
  - by apply (listing_served ext env who (GetCustomers query) w v p l).
  - intros c Hc. unfold mentions. rewrite Hc.
    assert (occursI "acme" "Acme Corp" = true) as -> by (by vm_compute).
    by rewrite !orb_true_r.
Qed.

Lemma search_is_substring_witness :
  ∃ all,
    matchingKeys sampleExternals root
      (GetCustomers {[ "q" := JStr "acme" ]}) sampleDb = Some all
    ∧ (acmeId ∈ all ↔
         ∃ c, customers sampleDb !! acmeId = Some c
              ∧ visible root c = true ∧ mentions "acme" c = true).
Proof.
  destruct (search_is_substring sampleExternals sampleEnv root
              {[ "q" := JStr "acme" ]} sampleWorld
              {[ "page" := JNum 1; "limit" := JNum 10; "q" := JStr "acme" ]}
              "acme")
    as (all & p & l & Hall & Hin & _).
  - vm_compute. reflexivity.
  - vm_compute. reflexivity.
  - discriminate.
  - vm_compute. reflexivity.
  - exists all. split; [exact Hall|apply Hin].
Defined.

(* ================================================================== *)
(** * What the routes leave alone *)
(* ================================================================== *)

Lemma validate_inl_status ext s body e :
  validate ext s body = inl e → status e = 400%Z.
Proof. unfold validate. destruct (Joi.error _); intros; by simplify_eq. Qed.

Lemma validateQuery_inl_status ext s query e :
  validateQuery ext s query = inl e → status e = 400%Z.
Proof. unfold validateQuery. destruct (Joi.error _); intros; by simplify_eq. Qed.

(** What a response that is neither 200 nor 201 leaves behind, and what no
    response touches at all. *)
Ltac frame_cases :=
  repeat case_match; simpl; repeat split; try done.

Lemma serve_frame ext env who r w :
  let out := serve ext env who r w in
  users (db out.2) = users (db w)
  ∧ (status out.1 ≠ 200%Z → status out.1 ≠ 201%Z → db out.2 = db w)
  ∧ (readOnly r = true → db out.2 = db w)
  ∧ (onLeads r = true → customers (db out.2) = customers (db w))
  ∧ (onLeads r = false → r ≠ DeleteCustomer (default EmptyString (targetCustomer r)) →
     leads (db out.2) = leads (db w)).
Proof.
  destruct r; simpl.
  - destruct (validate ext customerSchema body); simpl; [frame_cases|].
    rewrite createCustomer_run. simpl. frame_cases.
  - destruct (validateQuery ext paginationSchema query); simpl; [frame_cases|].
    rewrite listCustomers_run. frame_cases.
  - rewrite getCustomer_run. simpl. frame_cases.
  - destruct (validate ext customerSchema body); simpl; [frame_cases|].
    rewrite updateCustomer_run. simpl. frame_cases.
  - rewrite deleteCustomer_run. simpl. frame_cases.
  - destruct (validate ext leadSchema body); simpl; [frame_cases|].
    rewrite createLead_run. simpl. frame_cases.
  - destruct (validateQuery ext leadFilterSchema query); simpl; [frame_cases|].
    rewrite listLeads_run. simpl. frame_cases.
  - rewrite getLead_run. simpl. frame_cases.
  - destruct (validate ext leadSchema body); simpl; [frame_cases|].
    rewrite updateLead_run. simpl. frame_cases.
  - rewrite deleteLead_run. simpl. frame_cases.
Qed.

(** X1.  A request that is refused with 400, 403 or 404 leaves the three
    collections exactly as they were: every refusal is decided before the
    first write. *)
Theorem refusal_writes_nothing ext env who r w :
  status (serve ext env who r w).1 = 400%Z
  ∨ status (serve ext env who r w).1 = 403%Z
  ∨ status (serve ext env who r w).1 = 404%Z →
  db (serve ext env who r w).2 = db w.
Proof.
  intros H. destruct (serve_frame ext env who r w) as (_ & Hframe & _).
  apply Hframe; destruct H as [H|[H|H]]; rewrite H; done.
Qed.

Lemma refusal_writes_nothing_witness :
  db (serve sampleExternals sampleEnv bob (DeleteLead acmeId dealId)
        sampleWorld).2 = db sampleWorld.
Proof.
  apply (refusal_writes_nothing sampleExternals sampleEnv bob
           (DeleteLead acmeId dealId) sampleWorld).
  right. left. vm_compute. reflexivity.
Defined.

(** X2.  The four GET routes never write, whatever they answer, and no
    route at all changes the users collection. *)
Theorem reads_write_nothing ext env who r w :
  users (db (serve ext env who r w).2) = users (db w)
  ∧ (readOnly r = true → db (serve ext env who r w).2 = db w).
Proof.
  destruct (serve_frame ext env who r w) as (H1 & _ & H2 & _). done.
Qed.

Lemma reads_write_nothing_witness :
  db (serve sampleExternals sampleEnv alice (GetCustomer acmeId)
        sampleWorld).2 = db sampleWorld.
Proof.
  apply (reads_write_nothing sampleExternals sampleEnv alice
           (GetCustomer acmeId) sampleWorld).
  reflexivity.
Defined.

(** X3.  The lead routes never change a customer, and creating or updating
    a customer never changes a lead; only DELETE /api/customers/:id writes
    to both collections. *)
Theorem collections_are_separate ext env who r w :
  (onLeads r = true →
     customers (db (serve ext env who r w).2) = customers (db w))
  ∧ (onLeads r = false → (∀ id, r ≠ DeleteCustomer id) →
     leads (db (serve ext env who r w).2) = leads (db w)).
Proof.
  destruct (serve_frame ext env who r w) as (_ & _ & _ & H1 & H2).
  split; [done|]. intros Hl Hd. apply H2; [done|]. apply Hd.
Qed.

Lemma collections_are_separate_witness :
  customers (db (serve sampleExternals sampleEnv alice
                   (PutLead acmeId dealId {[ "title" := JStr "Anvil" ]})
                   sampleWorld).2) = customers (db sampleWorld).
Proof.
  apply (collections_are_separate sampleExternals sampleEnv alice
           (PutLead acmeId dealId {[ "title" := JStr "Anvil" ]}) sampleWorld).
  reflexivity.
Defined.

(* ================================================================== *)
(** * Error answers *)
(* ================================================================== *)

(** X4.  A by-id request that passes its schema but whose customer
    parameter is not an ObjectId is answered 400, with "Invalid lead or
    customer ID" on the three single-lead routes and "Invalid customer ID"
    elsewhere; nothing is written. *)
Theorem malformed_customer_id ext env who r w id :
  targetCustomer r = Some id →
  schemaErrors ext r = [] →
  castObjectId id = None →
  (serve ext env who r w).1
    = fail 400 (match targetLead r with
                | Some _ => "Invalid lead or customer ID"
                | None => "Invalid customer ID"
                end)
  ∧ db (serve ext env who r w).2 = db w.
Proof.
  intros Ht Herr Hi. unfold schemaErrors in Herr.
  destruct r; simpl in Ht, Herr; simplify_eq; simpl;
    rewrite ?(schemaErrors_validate _ _ _ Herr),
            ?(schemaErrors_validateQuery _ _ _ Herr); simpl;
    rewrite ?getCustomer_run, ?updateCustomer_run, ?deleteCustomer_run,
            ?createLead_run, ?listLeads_run, ?getLead_run, ?updateLead_run,
            ?deleteLead_run; simpl; by rewrite Hi.
Qed.

Lemma malformed_customer_id_witness :
  (serve sampleExternals sampleEnv alice (GetLead "42" dealId) sampleWorld).1
  = fail 400 "Invalid lead or customer ID".
Proof.
  apply (malformed_customer_id sampleExternals sampleEnv alice
           (GetLead "42" dealId) sampleWorld "42").
  - reflexivity.
  - reflexivity.
  - vm_compute. reflexivity.
Defined.

(** X5.  A by-id request that passes its schema and names a customer that
    is not stored is answered 404 "Customer not found", whoever asks;
    nothing is written. *)
Theorem unknown_customer ext env who r w id i :
  targetCustomer r = Some id →
  schemaErrors ext r = [] →
  castObjectId id = Some i →
  customers (db w) !! i = None →
  (serve ext env who r w).1 = fail 404 "Customer not found"
  ∧ db (serve ext env who r w).2 = db w.
Proof.
  intros Ht Herr Hi Hc. unfold schemaErrors in Herr.
  destruct r; simpl in Ht, Herr; simplify_eq; simpl;
    rewrite ?(schemaErrors_validate _ _ _ Herr),
            ?(schemaErrors_validateQuery _ _ _ Herr); simpl;
    rewrite ?getCustomer_run, ?updateCustomer_run, ?deleteCustomer_run,
            ?createLead_run, ?listLeads_run, ?getLead_run, ?updateLead_run,
            ?deleteLead_run; simpl; by rewrite Hi, Hc.
Qed.

Lemma unknown_customer_witness :
  (serve sampleExternals sampleEnv root
     (DeleteCustomer "c00000000000000000000009") sampleWorld).1
  = fail 404 "Customer not found".
Proof.
  apply (unknown_customer sampleExternals sampleEnv root
           (DeleteCustomer "c00000000000000000000009") sampleWorld
           "c00000000000000000000009" "c00000000000000000000009").
  - reflexivity.
  - reflexivity.
  - vm_compute. reflexivity.
  - vm_compute. reflexivity.
Defined.

(** X6.  On the three single-lead routes, once the customer of the path is
    found and may be accessed: a lead parameter that is not an ObjectId is
    answered 400 "Invalid lead or customer ID", and a well-formed one under
    which no lead is stored is answered 404 "Lead not found"; nothing is
    written in either case. *)
Theorem missing_lead ext env who r w cid lid i c :
  targetCustomer r = Some cid →
  targetLead r = Some lid →
  schemaErrors ext r = [] →
  castObjectId cid = Some i →
  customers (db w) !! i = Some c →
  mayAccess who (Customer.ownerId c) →
  (castObjectId lid = None →
     (serve ext env who r w).1 = fail 400 "Invalid lead or customer ID"
     ∧ db (serve ext env who r w).2 = db w)
  ∧ (∀ j, castObjectId lid = Some j → leads (db w) !! j = None →
     (serve ext env who r w).1 = fail 404 "Lead not found"
     ∧ db (serve ext env who r w).2 = db w).
Proof.
  intros Hc Hl Herr Hi Hcu Hmay. apply accessDenied_false in Hmay.
  unfold schemaErrors in Herr.
  destruct r; simpl in Hc, Hl, Herr; simplify_eq; simpl.
  - rewrite getLead_run. simpl. rewrite Hi, Hcu, Hmay. split.
    + by intros ->.
    + intros j -> Hj. unfold lookupLead. by rewrite Hj.
  - rewrite (schemaErrors_validate _ _ _ Herr). simpl.
    destruct (leadSchema_castUpdate ext body _ (schemaErrors_validate _ _ _ Herr))
      as (ch & Hch & _).
    rewrite updateLead_run. simpl. rewrite Hi, Hcu, Hmay. split.
    + by intros ->.
    + intros j -> Hj. rewrite Hch. unfold lookupLead. by rewrite Hj.
  - rewrite deleteLead_run. simpl. rewrite Hi, Hcu, Hmay. split.
    + by intros ->.
    + intros j -> Hj. unfold lookupLead. by rewrite Hj.
Qed.

Lemma missing_lead_witness :
  (serve sampleExternals sampleEnv alice
     (DeleteLead acmeId "e00000000000000000000009") sampleWorld).1
  = fail 404 "Lead not found".
Proof.
  destruct (missing_lead sampleExternals sampleEnv alice
              (DeleteLead acmeId "e00000000000000000000009") sampleWorld
              acmeId "e00000000000000000000009" acmeId acme)
    as [_ H].
  - reflexivity.
  - reflexivity.
  - reflexivity.
  - vm_compute. reflexivity.
  - vm_compute. reflexivity.
  - right. reflexivity.
  - apply (H "e00000000000000000000009"); vm_compute; reflexivity.
Defined.

(** ** Refused queries *)

Section QueryViolations.
Context (ext : Externals).











End QueryViolations.



(* ================================================================== *)
(** * Creation and update *)
(* ================================================================== *)

Lemma requiredPath_inr v set valid s :
  Customer.requiredPath v set valid = inr s →
  ∃ x, v = Some (JStr x) ∧ s = set x ∧ valid s = true.
Proof.
  unfold Customer.requiredPath. destruct v as [[x| | |]|]; simpl; try done.
  destruct (valid (set x)) eqn:E; [|done]. intros [= <-]. eauto.
Qed.

Lemma create_customer_fields v o t c :
  Customer.create v o t = inr c →
  Customer.ownerId c = o ∧ Customer.createdAt c = t ∧ Customer.updatedAt c = t
  ∧ (∃ n, v !! "name" = Some (JStr n) ∧ Customer.name c = trim n)
  ∧ (∃ e, v !! "email" = Some (JStr e)
          ∧ Customer.email c = trim (toLowerCase e)
          ∧ Customer.validEmail (Customer.email c) = true).
Proof.
  unfold Customer.create.
  destruct (Customer.requiredPath (v !! "name") _ _) as [|n] eqn:Hn; [done|].
  destruct (Customer.requiredPath (v !! "email") _ _) as [|e] eqn:He; [done|].
  destruct (Customer.optionalPath (v !! "phone") _ _) as [|p]; [done|].
  destruct (Customer.optionalPath (v !! "company") _ _) as [|co]; [done|].
  intros [= <-]. simpl.
  apply requiredPath_inr in Hn as (xn & Hxn & -> & _).
  apply requiredPath_inr in He as (xe & Hxe & -> & Hvalid).
  split_and!; try done; eauto.
Qed.

(** X8.  A 201 from POST /api/customers stored exactly one new customer,
    under the generated id, which was free: its owner is the requester, its
    name and email are the trimmed (and, for the email, lower-cased)
    members of the body, and it was created at the current time.  Every
    other customer and every lead is as before. *)
Theorem created_customer_is_owned ext env who body w resp w' :
  serve ext env who (PostCustomer body) w = (resp, w') →
  status resp = 201%Z →
  ∃ c n e,
    customers (db w) !! newId env = None
    ∧ customers (db w') = <[newId env := c]> (customers (db w))
    ∧ leads (db w') = leads (db w)
    ∧ Customer.ownerId c = _id who
    ∧ Customer.createdAt c = now env
    ∧ body !! "name" = Some (JStr n) ∧ Customer.name c = trim n
    ∧ body !! "email" = Some (JStr e)
    ∧ Customer.email c = trim (toLowerCase e)
    ∧ payload resp
      = CustomerData (Some (populateOwner (db w') (newId env, c)))
                     "Customer created successfully".
Proof.
  simpl. intros Hrun Hst.
  destruct (validate ext customerSchema body) as [r|v] eqn:Hv; simpl in Hrun.
  { simplify_eq. apply validate_inl_status in Hv. congruence. }
  rewrite createCustomer_run in Hrun. simpl in Hrun.
  destruct (Customer.create v (_id who) (now env)) as [x|c] eqn:Hc.
  { simplify_eq. by destruct (hasCode x 11000). }
  destruct (customers (db w) !! newId env) eqn:Hfresh; [by simplify_eq|].
  simplify_eq. simpl.
  destruct (create_customer_fields _ _ _ _ Hc)
    as (Ho & Ht & _ & (n & Hn & Hcn) & (e & He & Hce & _)).
  pose proof Hv as Hv'.
  apply customerSchema_validated in Hv' as ((n' & Hn' & Hnt & _) & (e' & He' & Het & Hel & _) & _).
  rewrite Hn in Hn'. rewrite He in He'. simplify_eq.
  apply validate_inr in Hv as [Herr Hval].
  destruct (validated_keys ext customerSchema body) as (Hkeys & _ & _);
    [by apply (bool_decide_unpack _); vm_compute|done|].
  simpl in Hkeys.
  destruct (Hkeys customerNameKey) as [Hne Hnv]; [repeat constructor|].
  destruct (Hkeys customerEmailKey) as [Hee Hev]; [repeat constructor|].
  simpl in Hne, Hnv, Hee, Hev. rewrite <- Hval in Hnv, Hev.
  apply (validateKey_string ext _ [Joi.trim_; Joi.min 2; Joi.max 100]) in Hne;
    [|done].
  apply (validateKey_string ext _ [Joi.email; Joi.lowercase; Joi.trim_]) in Hee;
    [|done].
  destruct (body !! "name") as [xn|]; [|by destruct Hne].
  destruct (body !! "email") as [xe|]; [|by destruct Hee].
  destruct Hne as (bn & -> & Hbn & _). destruct Hee as (be & -> & Hbe & _).
  rewrite Hbn in Hnv. rewrite Hbe in Hev.
  rewrite Hn in Hnv. rewrite He in Hev. simplify_eq.
  exists c, bn, be.
  change (Joi.coerce [Joi.trim_; Joi.min 2; Joi.max 100] bn) with (trim bn) in *.
  change (Joi.coerce [Joi.email; Joi.lowercase; Joi.trim_] be)
    with (trim (toLowerCase be)) in *.
  split_and!; try done.
  - by rewrite Hcn, trim_idemp.
  - by rewrite Hce, toLowerCase_trim, toLowerCase_idemp, trim_idemp.
Qed.

Lemma created_customer_is_owned_witness :
  ∃ c n e,
    customers (db sampleWorld) !! newId sampleEnv = None
    ∧ Customer.ownerId c = _id bob
    ∧ Customer.name c = trim n
    ∧ Customer.email c = trim (toLowerCase e).
Proof.
  destruct (created_customer_is_owned sampleExternals sampleEnv bob
              {[ "name" := JStr "  Tweety "; "email" := JStr "Tweety@Acme.com" ]}
              sampleWorld _ _ (surjective_pairing _))
    as (c & n & e & Hf & _ & _ & Ho & _ & _ & Hcn & _ & Hce & _).
  - vm_compute. reflexivity.
  - exists c, n, e. split_and!; assumption.
Defined.

(* ================================================================== *)
(** * Leads: creation, update, deletion *)
(* ================================================================== *)

(** A key that is absent from an object that passed validation holds its
    default in the validated value. *)
Lemma validated_absent ext s obj k :
  NoDup (map Joi.label s) →
  Joi.error (Joi.validate ext s obj {| Joi.abortEarly := false |}) = [] →
  k ∈ s → obj !! Joi.label k = None →
  Joi.value (Joi.validate ext s obj {| Joi.abortEarly := false |}) !! Joi.label k
  = Joi.default k.
Proof.
  intros Hnd Herr Hk Hnone.
  destruct (validated_keys ext s obj Hnd Herr) as (Hkeys & _).
  destruct (Hkeys k Hk) as [He Hv]. rewrite Hv. rewrite Hnone in *.
  unfold Joi.validateKey in *. by destruct (Joi.required k).
Qed.

Lemma defaultedPath_inr {A : Type} v (cast : JsValue → option A) valid dflt a :
  Lead.defaultedPath v cast valid dflt = inr a →
  match v with
  | None => a = dflt
  | Some x => cast x = Some a
  end.
Proof.
  unfold Lead.defaultedPath. destruct v as [x|]; [|by intros [= <-]].
  destruct (cast x) as [y|]; [|done]. destruct (valid y); [|done].
  by intros [= <-].
Qed.

Lemma create_lead_fields v i t l :
  Lead.create v i t = inr l →
  Lead.customerId l = i ∧ Lead.createdAt l = t
  ∧ (∀ s, v !! "status" = Some (JStr s) → Lead.status l = s)
  ∧ (∀ q, v !! "value" = Some (JNum q) → Lead.value l = q)
  ∧ (∃ x, v !! "title" = Some (JStr x) ∧ Lead.title l = trim x).
Proof.
  unfold Lead.create.
  destruct (Customer.requiredPath (v !! "title") _ _) as [|ti] eqn:Ht; [done|].
  destruct (Customer.optionalPath (v !! "description") _ _) as [|d]; [done|].
  destruct (Lead.defaultedPath (v !! "status") _ _ _) as [|s] eqn:Hs; [done|].
  destruct (Lead.defaultedPath (v !! "value") _ _ _) as [|q] eqn:Hq; [done|].
  intros [= <-]. simpl.
  apply requiredPath_inr in Ht as (x & Hx & -> & _).
  apply defaultedPath_inr in Hs. apply defaultedPath_inr in Hq.
  split_and!; try done.
  - intros s' Hs'. rewrite Hs' in Hs. simpl in Hs. by simplify_eq.
  - intros q' Hq'. rewrite Hq' in Hq. simpl in Hq. by simplify_eq.
  - by exists x.
Qed.

(** X9.  POST of a lead whose body passes [leadSchema], under a customer
    that exists and may be accessed, with a free generated id, always
    succeeds with 201: the Mongoose schema refuses nothing that Joi let
    through.  The stored lead belongs to the customer of the path, is
    created at the current time, and has status [New] and value 0 when the
    body gives none; the customers are unchanged. *)
Theorem created_lead ext env who cid body w i c :
  schemaErrors ext (PostLead cid body) = [] →
  castObjectId cid = Some i →
  customers (db w) !! i = Some c →
  mayAccess who (Customer.ownerId c) →
  leads (db w) !! newId env = None →
  ∃ l,
    status (serve ext env who (PostLead cid body) w).1 = 201%Z
    ∧ leads (db (serve ext env who (PostLead cid body) w).2)
      = <[newId env := l]> (leads (db w))
    ∧ customers (db (serve ext env who (PostLead cid body) w).2)
      = customers (db w)
    ∧ Lead.customerId l = i
    ∧ Lead.createdAt l = now env
    ∧ (body !! "status" = None → Lead.status l = "New")
    ∧ (body !! "value" = None → Lead.value l = 0%Q).
Proof.
  intros Herr Hi Hc Hmay Hfresh. apply accessDenied_false in Hmay.
  unfold schemaErrors in Herr. simpl in Herr.
  pose proof (schemaErrors_validate _ _ _ Herr) as Hv.
  destruct (leadSchema_create ext body _ i (now env) Hv) as (l & Hl & _).
  exists l. simpl. rewrite Hv. simpl. rewrite createLead_run. simpl.
  rewrite Hi, Hc, Hmay, Hl, Hfresh. simpl.
  destruct (create_lead_fields _ _ _ _ Hl) as (Hci & Hct & Hst & Hval & _).
  split_and!; try done.
  - intros Hnone. apply Hst.
    apply (validated_absent ext leadSchema body leadStatusKey);
      [by apply (bool_decide_unpack _); vm_compute|done|repeat constructor|done].
  - intros Hnone. apply Hval.
    apply (validated_absent ext leadSchema body leadValueKey);
      [by apply (bool_decide_unpack _); vm_compute|done|repeat constructor|done].
Qed.

Lemma created_lead_witness :
  ∃ l,
    status (serve sampleExternals sampleEnv alice
              (PostLead acmeId {[ "title" := JStr "Anvil" ]}) sampleWorld).1
      = 201%Z
    ∧ Lead.customerId l = acmeId
    ∧ Lead.status l = "New"
    ∧ Lead.value l = 0%Q.
Proof.
  destruct (created_lead sampleExternals sampleEnv alice acmeId
              {[ "title" := JStr "Anvil" ]} sampleWorld acmeId acme)
    as (l & Hst & _ & _ & Hc & _ & Hs & Hv).
  - vm_compute. reflexivity.
  - vm_compute. reflexivity.
  - vm_compute. reflexivity.
  - right. reflexivity.
  - vm_compute. reflexivity.
  - exists l. split_and!; [exact Hst|exact Hc|apply Hs|apply Hv];
      vm_compute; reflexivity.
Defined.

Lemma updateCast_inr {A : Type} v (cast : JsValue → option A) valid o :
  Lead.updateCast v cast valid = inr o →
  match v with
  | None => o = None
  | Some x => ∃ a, cast x = Some a ∧ o = Some a
  end.
Proof.
  unfold Lead.updateCast. destruct v as [x|]; [|by intros [= <-]].
  destruct (cast x) as [y|]; [|done]. destruct (valid y); [|done].
  intros [= <-]. eauto.
Qed.

Lemma castUpdate_lead_fields v ch :
  Lead.castUpdate v = inr ch →
  (∀ s, v !! "status" = Some (JStr s) → Lead.newStatus ch = Some s)
  ∧ (∀ q, v !! "value" = Some (JNum q) → Lead.newValue ch = Some q)
  ∧ (v !! "customerId" = None → Lead.newCustomerId ch = None).
Proof.
  unfold Lead.castUpdate.
  destruct (Customer.updatePath (v !! "title") _ _ _) as [|t]; [done|].
  destruct (Customer.updatePath (v !! "description") _ _ _) as [|d]; [done|].
  destruct (Lead.updateCast (v !! "status") _ _) as [|s] eqn:Hs; [done|].
  destruct (Lead.updateCast (v !! "value") _ _) as [|q] eqn:Hq; [done|].
  destruct (Customer.updateRef (v !! "customerId")) as [|c] eqn:Hc; [done|].
  intros [= <-]. simpl.
  apply updateCast_inr in Hs. apply updateCast_inr in Hq.
  split_and!.
  - intros s' Hs'. rewrite Hs' in Hs. destruct Hs as (a & Ha & ->).
    simpl in Ha. by simplify_eq.
  - intros q' Hq'. rewrite Hq' in Hq. destruct Hq as (a & Ha & ->).
    simpl in Ha. by simplify_eq.
  - intros Hnone. rewrite Hnone in Hc. simpl in Hc. by simplify_eq.
Qed.

(** X10.  A 200 from PUT of a lead rewrote exactly the lead selected by
    both ids: it still belongs to the same customer and keeps its creation
    time, but its status is reset to [New] and its value to 0 whenever the
    body omits them, because [validate] fills the defaults of [leadSchema]
    into the update document.  No other lead and no customer changes. *)
Theorem updated_lead ext env who cid lid body w resp w' :
  serve ext env who (PutLead cid lid body) w = (resp, w') →
  status resp = 200%Z →
  ∃ i j x x',
    castObjectId cid = Some i ∧ castObjectId lid = Some j
    ∧ leads (db w) !! j = Some x
    ∧ Lead.customerId x = i
    ∧ leads (db w') = <[j := x']> (leads (db w))
    ∧ customers (db w') = customers (db w)
    ∧ Lead.customerId x' = Lead.customerId x
    ∧ Lead.createdAt x' = Lead.createdAt x
    ∧ Lead.updatedAt x' = now env
    ∧ (body !! "status" = None → Lead.status x' = "New")
    ∧ (body !! "value" = None → Lead.value x' = 0%Q).
Proof.
  simpl. intros Hrun Hst.
  destruct (validate ext leadSchema body) as [r|v] eqn:Hv; simpl in Hrun.
  { simplify_eq. apply validate_inl_status in Hv. congruence. }
  rewrite updateLead_run in Hrun. simpl in Hrun.
  destruct (castObjectId cid) as [i|]; [|by simplify_eq].
  destruct (customers (db w) !! i) as [c|]; [|by simplify_eq].
  destruct (accessDenied who (Customer.ownerId c)); [by simplify_eq|].
  destruct (castObjectId lid) as [j|]; [|by simplify_eq].
  destruct (Lead.castUpdate v) as [e|ch] eqn:Hch.
  { simplify_eq. by destruct (isCastError e). }
  destruct (lookupLead (db w) j i) as [x|] eqn:Hx; [|by simplify_eq].
  simplify_eq. simpl.
  unfold lookupLead in Hx.
  destruct (leads (db w) !! j) as [y|] eqn:Hy; [|done].
  destruct (String.eqb (Lead.customerId y) i) eqn:Hyi; [|done].
  simplify_eq. apply String.eqb_eq in Hyi.
  destruct (castUpdate_lead_fields _ _ Hch) as (Hs & Hq & Hcid).
  pose proof Hv as Hv'. apply leadSchema_validated in Hv' as (_ & _ & _ & _ & Hfresh).
  apply validate_inr in Hv as [Herr ->].
  exists i, j, x, (Lead.update ch (now env) x).
  split_and!; try done.
  - simpl. rewrite Hcid; [done|].
    apply Hfresh. by apply (bool_decide_unpack _); vm_compute.
  - intros Hnone. simpl. rewrite (Hs "New"); [done|].
    apply (validated_absent ext leadSchema body leadStatusKey);
      [by apply (bool_decide_unpack _); vm_compute|done|repeat constructor|done].
  - intros Hnone. simpl. rewrite (Hq 0%Q); [done|].
    apply (validated_absent ext leadSchema body leadValueKey);
      [by apply (bool_decide_unpack _); vm_compute|done|repeat constructor|done].
Qed.

Lemma updated_lead_witness :
  ∃ x',
    Lead.status offer = "Contacted"
    ∧ leads (db (serve sampleExternals sampleEnv bob
                   (PutLead globexId offerId {[ "title" := JStr "Laser" ]})
                   sampleWorld).2) !! offerId = Some x'
    ∧ Lead.status x' = "New".
Proof.
  destruct (updated_lead sampleExternals sampleEnv bob globexId offerId
              {[ "title" := JStr "Laser" ]} sampleWorld _ _
              (surjective_pairing _))
    as (i & j & x & x' & _ & Hj & _ & _ & Hdb & _ & _ & _ & _ & Hs & _).
  - vm_compute. reflexivity.
  - exists x'. split_and!; [done| |by apply Hs].
    rewrite Hdb. vm_compute in Hj. injection Hj as <-.
    apply lookup_insert_eq.
Defined.

(** X11.  A 200 from DELETE of a lead removed exactly the lead selected by
    both ids, which belonged to the customer of the path; every other lead
    and every customer is unchanged, and fetching the lead again under the
    same path answers 404. *)
Theorem deleted_lead ext env who cid lid w resp w' :
  serve ext env who (DeleteLead cid lid) w = (resp, w') →
  status resp = 200%Z →
  ∃ i j x,
    castObjectId cid = Some i ∧ castObjectId lid = Some j
    ∧ leads (db w) !! j = Some x
    ∧ Lead.customerId x = i
    ∧ leads (db w') = delete j (leads (db w))
    ∧ customers (db w') = customers (db w)
    ∧ calls w' = calls w ++ [Call "Customer" "findById";
                             Call "Lead" "findOneAndDelete"]
    ∧ (serve ext env who (GetLead cid lid) w').1 = fail 404 "Lead not found".
Proof.
  simpl. rewrite deleteLead_run. simpl. intros Hrun Hst.
  destruct (castObjectId cid) as [i|] eqn:Hi; [|by simplify_eq].
  destruct (customers (db w) !! i) as [c|] eqn:Hc; [|by simplify_eq].
  destruct (accessDenied who (Customer.ownerId c)) eqn:Ha; [by simplify_eq|].
  destruct (castObjectId lid) as [j|] eqn:Hj; [|by simplify_eq].
  destruct (lookupLead (db w) j i) as [x|] eqn:Hx; [|by simplify_eq].
  simplify_eq. simpl.
  unfold lookupLead in Hx.
  destruct (leads (db w) !! j) as [y|] eqn:Hy; [|done].
  destruct (String.eqb (Lead.customerId y) i) eqn:Hyi; [|done].
  simplify_eq. apply String.eqb_eq in Hyi.
  exists i, j, x. split_and!; try done.
  - by rewrite <- app_assoc.
  - rewrite getLead_run. simpl. rewrite Hi, Hc, Ha, Hj.
    unfold lookupLead. simpl. by rewrite lookup_delete_eq.
Qed.

Lemma deleted_lead_witness :
  (serve sampleExternals sampleEnv alice (GetLead acmeId dealId)
     (serve sampleExternals sampleEnv alice (DeleteLead acmeId dealId)
        sampleWorld).2).1
  = fail 404 "Lead not found".
Proof.
  destruct (deleted_lead sampleExternals sampleEnv alice acmeId dealId
              sampleWorld _ _ (surjective_pairing _))
    as (i & j & x & _ & _ & _ & _ & _ & _ & _ & H).
  - vm_compute. reflexivity.
  - exact H.
Defined.

(* ================================================================== *)
(** * The email pattern of the Customer schema *)
(* ================================================================== *)

Lemma create_customer_bad_email v o t e :
  v !! "email" = Some (JStr e) →
  Customer.validEmail (Customer.setEmail e) = false →
  Customer.create v o t = inl ValidationError.
Proof.
  intros He Hbad. unfold Customer.create.
  unfold Customer.requiredPath at 2. rewrite He. simpl. rewrite Hbad.
  by destruct (Customer.requiredPath (v !! "name") _ _).
Qed.

(** X12.  A new customer whose email passes Joi's check but not the
    [match] pattern of the Customer schema (one whose last label has four
    letters, for instance) is answered 500 "Failed to create customer";
    [save] was called and nothing was stored. *)
Theorem email_refused_by_model ext env who body v e w :
  validate ext customerSchema body = inr v →
  v !! "email" = Some (JStr e) →
  Customer.validEmail e = false →
  serve ext env who (PostCustomer body) w
  = (fail 500 "Failed to create customer", logged w "Customer" "save").
Proof.
  intros Hv He Hbad. simpl. rewrite Hv. simpl.
  rewrite createCustomer_run. simpl.
  destruct (customerSchema_validated ext body v Hv)
    as (_ & (e' & He' & Het & Hel & _) & _).
  rewrite He in He'. simplify_eq.
  rewrite (create_customer_bad_email v (_id who) (now env) e' He); [done|].
  unfold Customer.setEmail. by rewrite Hel, Het.
Qed.

Lemma email_refused_by_model_witness :
  serve lenientExternals sampleEnv alice
    (PostCustomer {[ "name" := JStr "Bob"; "email" := JStr "bob@example.info" ]})
    sampleWorld
  = (fail 500 "Failed to create customer", logged sampleWorld "Customer" "save").
Proof.
  apply (email_refused_by_model lenientExternals sampleEnv alice
           {[ "name" := JStr "Bob"; "email" := JStr "bob@example.info" ]}
           {[ "name" := JStr "Bob"; "email" := JStr "bob@example.info" ]}
           "bob@example.info" sampleWorld).
  - vm_compute. reflexivity.
  - vm_compute. reflexivity.
  - vm_compute. reflexivity.
Defined.

(* ================================================================== *)
(** * The registration schema *)
(* ================================================================== *)

(** X13.  A registration body that raises no error under [registerSchema]
    yields a value whose name is trimmed with 2 to 50 characters, whose
    email is trimmed, lower-cased and accepted by the email check, whose
    password is the submitted string, unchanged, of at least 6 characters,
    and whose role is [user] or [admin], [user] when the body gives none;
    the value holds nothing else. *)
Theorem register_schema_value ext body :
  Joi.error (Joi.validate ext registerSchema body {| Joi.abortEarly := false |})
  = [] →
  let v := Joi.value (Joi.validate ext registerSchema body
                        {| Joi.abortEarly := false |}) in
  (∃ n, v !! "name" = Some (JStr n) ∧ trim n = n
        ∧ 2 ≤ String.length n ≤ 50)
  ∧ (∃ e, v !! "email" = Some (JStr e) ∧ trim e = e ∧ toLowerCase e = e
          ∧ joi_email ext e = true)
  ∧ (∃ p, v !! "password" = Some (JStr p) ∧ body !! "password" = Some (JStr p)
          ∧ 6 ≤ String.length p)
  ∧ (∃ r, v !! "role" = Some (JStr r) ∧ (r = "user" ∨ r = "admin")
          ∧ (body !! "role" = None → r = "user"))
  ∧ (∀ l, l ∉ ["name"; "email"; "password"; "role"] → v !! l = None).
Proof.
  intros Herr.
  destruct (validated_keys ext registerSchema body) as (Hkeys & Hfresh & _);
    [by apply (bool_decide_unpack _); vm_compute|done|].
  simpl in Hkeys, Hfresh. simpl.
  split_and!.
  - destruct (Hkeys registerNameKey) as [He Hv]; [repeat constructor|].
    simpl in He, Hv.
    apply (validateKey_string ext _ [Joi.trim_; Joi.min 2; Joi.max 50]) in He;
      [|done].
    destruct (body !! "name") as [x|]; [|by destruct He].
    destruct He as (s & -> & Hval & Hcase). rewrite Hv, Hval.
    exists (trim s). split; [done|]. split; [apply trim_idemp|].
    destruct Hcase as [Hin|(Hne & _ & Hrules)]; [by apply elem_of_nil in Hin|].
    simpl in Hrules.
    apply app_eq_nil in Hrules as [Hmin Hmax].
    apply app_eq_nil in Hmax as [Hmax _].
    apply (stringRule_min ext) in Hmin. apply (stringRule_max ext) in Hmax.
    done.
  - destruct (Hkeys registerEmailKey) as [He Hv]; [repeat constructor|].
    simpl in He, Hv.
    apply (validateKey_string ext _ [Joi.email; Joi.lowercase; Joi.trim_]) in He;
      [|done].
    destruct (body !! "email") as [x|]; [|by destruct He].
    destruct He as (s & -> & Hval & Hcase). rewrite Hv, Hval.
    change (Joi.coerce _ s) with (trim (toLowerCase s)) in *.
    exists (trim (toLowerCase s)). split; [done|]. split; [apply trim_idemp|].
    split; [by rewrite toLowerCase_trim, toLowerCase_idemp|].
    destruct Hcase as [Hin|(Hne & _ & Hrules)]; [by apply elem_of_nil in Hin|].
    simpl in Hrules.
    by destruct (joi_email ext (trim (toLowerCase s))).
  - destruct (Hkeys registerPasswordKey) as [He Hv]; [repeat constructor|].
    simpl in He, Hv.
    apply (validateKey_string ext _ [Joi.min 6]) in He; [|done].
    destruct (body !! "password") as [x|]; [|by destruct He].
    destruct He as (s & -> & Hval & Hcase). rewrite Hv, Hval.
    change (Joi.coerce [Joi.min 6] s) with s in *.
    exists s. split; [done|]. split; [done|].
    destruct Hcase as [Hin|(Hne & _ & Hrules)]; [by apply elem_of_nil in Hin|].
    simpl in Hrules. apply app_eq_nil in Hrules as [Hmin _].
    by apply (stringRule_min ext) in Hmin.
  - destruct (Hkeys registerRoleKey) as [He Hv]; [repeat constructor|].
    simpl in He, Hv.
    apply (validateKey_string ext _ []) in He; [|done].
    destruct (body !! "role") as [x|].
    + destruct He as (s & -> & Hval & Hcase). rewrite Hv, Hval.
      change (Joi.coerce [] s) with s in *.
      exists s. split; [done|]. split; [|done].
      destruct Hcase as [Hin|(_ & Ho & _)]; [|done].
      simpl in Hin. apply elem_of_cons in Hin as [->|Hin]; [by left|].
      apply list_elem_of_singleton in Hin. by right.
    + destruct He as [_ He]. rewrite Hv, He. exists "user".
      split; [done|]. split; [by left|done].
  - intros l Hl. by apply Hfresh.
Qed.

Lemma register_schema_value_witness :
  ∃ r,
    Joi.value (Joi.validate sampleExternals registerSchema
                 {[ "name" := JStr "Ada"; "email" := JStr "Ada@Example.com";
                    "password" := JStr "s3cret " ]}
                 {| Joi.abortEarly := false |}) !! "role" = Some (JStr r)
    ∧ r = "user".
Proof.
  destruct (register_schema_value sampleExternals
              {[ "name" := JStr "Ada"; "email" := JStr "Ada@Example.com";
                 "password" := JStr "s3cret " ]})
    as (_ & _ & _ & (r & Hr & _ & Hdef) & _).
  - vm_compute. reflexivity.
  - exists r. split; [exact Hr|]. apply Hdef. vm_compute. reflexivity.
Defined.

(* ================================================================== *)
(** * Order and size of a page *)
(* ================================================================== *)

Lemma descending_fmap {A B : Type} (f : A → B) (key : B → Z) (l : list A) :
  descending (λ x, key (f x)) l → descending key (f <$> l).
Proof.
  intros H i j x y Hi Hj Hij.
  apply list_lookup_fmap_Some in Hi as (a & -> & Ha).
  apply list_lookup_fmap_Some in Hj as (b & -> & Hb).
  by apply (H i j).
Qed.

Lemma descending_slice {A : Type} (key : A → Z) skip limit (l : list A) :
  descending key l → descending key (slice skip limit l).
Proof.
  intros H i j x y Hi Hj Hij. unfold slice in *.
  apply lookup_take_Some in Hi as [Hi _].
  apply lookup_take_Some in Hj as [Hj _].
  rewrite lookup_drop in Hi, Hj.
  apply (H _ _ _ _ Hi Hj). lia.
Qed.

(** X14.  Both lists are served newest first: along the customers of a
    customer list, and along the leads of a lead list, [createdAt] never
    increases. *)
Theorem lists_newest_first ext env who cid query w :
  descending (λ it, Customer.createdAt (customerDoc (item it)))
             (listedCustomers (serve ext env who (GetCustomers query) w).1)
  ∧ descending (λ v, Lead.createdAt (leadDoc v))
               (listedLeads (serve ext env who (GetLeads cid query) w).1).
Proof.
  assert (∀ {A : Type} (key : A → Z), descending key []) as Hnil.
  { intros A key i j x y Hi. by rewrite lookup_nil in Hi. }
  split; simpl.
  - destruct (validateQuery ext paginationSchema query) as [e|v] eqn:Hv; simpl.
    { unfold validateQuery in Hv. destruct (Joi.error _); simplify_eq.
      apply Hnil. }
    rewrite listCustomers_run.
    destruct (queryNumber v "page"); [|apply Hnil].
    destruct (queryNumber v "limit"); [|apply Hnil].
    destruct (selectCustomers ext _ (db w)); [|apply Hnil].
    unfold listedCustomers. simpl. rewrite map_map.
    apply (descending_fmap _ (λ it, Customer.createdAt (customerDoc (item it)))).
    simpl. apply descending_slice.
    apply (sortDesc_descending (λ kc : ObjectId * Customer.doc,
                                  Customer.createdAt kc.2)).
  - destruct (validateQuery ext leadFilterSchema query) as [e|v] eqn:Hv; simpl.
    { unfold validateQuery in Hv. destruct (Joi.error _); simplify_eq.
      apply Hnil. }
    rewrite listLeads_run. simpl.
    destruct (castObjectId cid); [|apply Hnil].
    destruct (customers (db w) !! _); [|apply Hnil].
    destruct (accessDenied who _); [apply Hnil|].
    destruct (queryNumber v "page"); [|apply Hnil].
    destruct (queryNumber v "limit"); [|apply Hnil].
    unfold listedLeads. simpl.
    apply (descending_fmap _ (λ x, Lead.createdAt (leadDoc x))).
    simpl. apply descending_slice.
    apply (sortDesc_descending (λ kl : ObjectId * Lead.doc,
                                  Lead.createdAt kl.2)).
Qed.

(** X15.  A page holds as many records as remain after its offset, up to
    [limit]: with whole [page] P and [limit] L and [total] matching
    records, it has min L (total - (P - 1) * L) records; so a page whose
    offset is below the total is never empty. *)
Theorem page_length ext env who r w v p l all (P L : Z) :
  validatedQuery ext r = Some v →
  queryNumber v "page" = Some p →
  queryNumber v "limit" = Some l →
  (p == inject_Z P)%Q → (l == inject_Z L)%Q →
  matchingKeys ext who r (db w) = Some all →
  listable who r (db w) →
  length (listedKeys (serve ext env who r w).1)
  = Nat.min (Z.to_nat L) (length all - Z.to_nat ((P - 1) * L))
  ∧ ((1 ≤ P)%Z → (0 < L)%Z → ((P - 1) * L < Z.of_nat (length all))%Z →
     listedKeys (serve ext env who r w).1 ≠ []).
Proof.
  intros Hv Hp Hl HpP HlL Hall Hok.
  destruct (listing_served ext env who r w v p l all Hv Hp Hl Hall Hok)
    as [(_ & Hkeys & _) _].
  rewrite Hkeys, (slice_whole P L p l all HpP HlL).
  assert ((1 ≤ P)%Z → (0 < L)%Z → (0 ≤ (P - 1) * L)%Z) as Hpos by nia.
  revert Hpos. generalize ((P - 1) * L)%Z. intros offset Hpos.
  assert (length (take (Z.to_nat L) (drop (Z.to_nat offset) all))
          = Nat.min (Z.to_nat L) (length all - Z.to_nat offset)) as Hlen.
  { by rewrite length_take, length_drop. }
  split; [done|]. intros HP HL Hlt Hnil. specialize (Hpos HP HL).
  rewrite Hnil in Hlen. change (length (@nil ObjectId)) with 0 in Hlen.
  destruct (Nat.min_spec (Z.to_nat L) (length all - Z.to_nat offset))
    as [[_ Hm]|[_ Hm]]; rewrite Hm in Hlen; lia.
Qed.

Lemma page_length_witness :
  length (listedKeys (serve sampleExternals sampleEnv root
                        (GetCustomers {[ "limit" := JStr "1" ]}) sampleWorld).1)
  = Nat.min (Z.to_nat 1) (length [globexId; acmeId] - Z.to_nat ((1 - 1) * 1)).
Proof.
  apply (page_length sampleExternals sampleEnv root
           (GetCustomers {[ "limit" := JStr "1" ]}) sampleWorld
           {[ "page" := JNum 1; "limit" := JNum 1 ]} 1 1 [globexId; acmeId] 1 1).
  - vm_compute. reflexivity.
  - vm_compute. reflexivity.
  - vm_compute. reflexivity.
  - reflexivity.
  - reflexivity.
  - vm_compute. reflexivity.
  - exact I.
Defined.

(* ================================================================== *)
(** * A customer with its leads *)
(* ================================================================== *)

Lemma selectLeads_elem f d l x :
  (l, x) ∈ selectLeads f d ↔ leads d !! l = Some x ∧ matchesLead f x = true.
Proof.
  unfold selectLeads.
  rewrite list_elem_of_In, filter_In, <- list_elem_of_In.
  by rewrite elem_of_map_to_list.
Qed.

Lemma matchesLead_spec f x :
  matchesLead f x = true ↔
  Lead.customerId x = filterCustomer f
  ∧ ∀ s, filterStatus f = Some s → Lead.status x = s.
Proof.
  unfold matchesLead. rewrite andb_true_iff, String.eqb_eq.
  destruct (filterStatus f) as [s|].
  - rewrite String.eqb_eq. split.
    + intros [? ?]. split; [done|]. by intros ? [= <-].
    + intros [? H]. split; [done|]. by apply H.
  - split; intros [? ?]; split; done.
Qed.

Lemma selectLeads_NoDup f d : NoDup (selectLeads f d).
Proof.
  unfold selectLeads. apply NoDup_ListNoDup, List.NoDup_filter, NoDup_ListNoDup.
  apply NoDup_map_to_list.
Qed.

(** X16.  GET /api/customers/:id, asked by an administrator, or by the
    owner when the owner is a stored user, answers 200 with the stored
    customer and with exactly the stored leads of that customer, each once
    and newest first; the database is left as it was. *)
Theorem customer_detail ext env who id w i c :
  castObjectId id = Some i →
  customers (db w) !! i = Some c →
  role who = "admin"
  ∨ (_id who = Customer.ownerId c
     ∧ is_Some (users (db w) !! Customer.ownerId c)) →
  ∃ ls,
    (serve ext env who (GetCustomer id) w).1
    = {| status := 200;
         payload := CustomerDetail (populateOwner (db w) (i, c)) ls |}
    ∧ (∀ l x, (l, x) ∈ ls ↔ leads (db w) !! l = Some x ∧ Lead.customerId x = i)
    ∧ NoDup ls
    ∧ descending (λ kl, Lead.createdAt kl.2) ls
    ∧ db (serve ext env who (GetCustomer id) w).2 = db w.
Proof.
  intros Hi Hc Hwho. simpl. rewrite getCustomer_run. simpl. rewrite Hi, Hc.
  set (ls := sortDesc (λ kl : ObjectId * Lead.doc, Lead.createdAt kl.2)
               (selectLeads {| filterCustomer := i; filterStatus := None |} (db w))).
  assert ((∀ l x, (l, x) ∈ ls ↔ leads (db w) !! l = Some x ∧ Lead.customerId x = i)
          ∧ NoDup ls ∧ descending (λ kl, Lead.createdAt kl.2) ls) as Hls.
  { split_and!.
    - intros l x. unfold ls.
      rewrite elem_of_sortDesc, selectLeads_elem, matchesLead_spec. simpl.
      split; [by intros (? & ? & _)|]. intros [? ?]. by split_and!.
    - unfold ls. rewrite sortDesc_Permutation. apply selectLeads_NoDup.
    - apply sortDesc_descending. }
  exists ls.
  destruct Hwho as [Hadmin|[Hown [u Hu]]].
  - rewrite Hadmin. simpl. by split_and!; try apply Hls.
  - destruct (negb (String.eqb (role who) "admin")); simpl.
    + rewrite Hu. rewrite Hown, String.eqb_refl. simpl.
      by split_and!; try apply Hls.
    + by split_and!; try apply Hls.
Qed.

Lemma customer_detail_witness :
  ∃ ls,
    (serve sampleExternals sampleEnv alice (GetCustomer acmeId) sampleWorld).1
    = {| status := 200;
         payload := CustomerDetail (populateOwner sampleDb (acmeId, acme)) ls |}
    ∧ (dealId, deal) ∈ ls.
Proof.
  destruct (customer_detail sampleExternals sampleEnv alice acmeId sampleWorld
              acmeId acme) as (ls & Hresp & Hin & _).
  - vm_compute. reflexivity.
  - vm_compute. reflexivity.
  - right. split; [reflexivity|]. vm_compute. eauto.
  - exists ls. split; [exact Hresp|].
    apply Hin. split; vm_compute; reflexivity.
Defined.

(** X17.  When the owner of a stored customer is not a stored user, GET
    /api/customers/:id answers 500 "Failed to fetch customer" to everyone
    but an administrator: the ownership test reads [_id] of the populated
    owner, which is [null].  Nothing is written. *)
Theorem orphaned_customer ext env who id w i c :
  castObjectId id = Some i →
  customers (db w) !! i = Some c →
  users (db w) !! Customer.ownerId c = None →
  role who ≠ "admin" →
  (serve ext env who (GetCustomer id) w).1 = fail 500 "Failed to fetch customer"
  ∧ db (serve ext env who (GetCustomer id) w).2 = db w.
Proof.
  intros Hi Hc Hu Hrole. simpl. rewrite getCustomer_run. simpl.
  rewrite Hi, Hc, Hu.
  apply String.eqb_neq in Hrole. by rewrite Hrole.
Qed.

Lemma orphaned_customer_witness :
  (serve sampleExternals sampleEnv alice (GetCustomer acmeId)
     {| db := {| users := ∅; customers := customers sampleDb;
                 leads := leads sampleDb |};
        calls := [] |}).1
  = fail 500 "Failed to fetch customer".
Proof.
  apply (orphaned_customer sampleExternals sampleEnv alice acmeId _ acmeId acme).
  - vm_compute. reflexivity.
  - vm_compute. reflexivity.
  - reflexivity.
  - discriminate.
Defined.

(** X18.  The [leadCount] shown for a customer in the list is the number of
    leads that GET /api/customers/:id returns for that customer from the
    same database. *)
Theorem lead_count_matches_detail ext env who query w it v ls :
  it ∈ listedCustomers (serve ext env who (GetCustomers query) w).1 →
  castObjectId (customerKey (item it)) = Some (customerKey (item it)) →
  payload (serve ext env who (GetCustomer (customerKey (item it))) w).1
  = CustomerDetail v ls →
  leadCount it = length ls.
Proof.
  simpl. intros Hit Hkey Hdetail.
  assert (leadCount it = leadsOf (db w) (customerKey (item it))) as ->.
  { destruct (validateQuery ext paginationSchema query) as [e|qv] eqn:Hv;
      simpl in Hit.
    { unfold validateQuery in Hv. destruct (Joi.error _); simplify_eq.
      by apply elem_of_nil in Hit. }
    rewrite listCustomers_run in Hit.
    destruct (queryNumber qv "page"); [|by apply elem_of_nil in Hit].
    destruct (queryNumber qv "limit"); [|by apply elem_of_nil in Hit].
    destruct (selectCustomers ext _ (db w)); [|by apply elem_of_nil in Hit].
    unfold listedCustomers in Hit. simpl in Hit.
    apply list_elem_of_fmap in Hit as (cv & -> & _). done. }
  rewrite getCustomer_run in Hdetail. simpl in Hdetail. rewrite Hkey in Hdetail.
  destruct (customers (db w) !! customerKey (item it)); [|done].
  unfold leadsOf.
  destruct (negb (String.eqb (role who) "admin")).
  - destruct (users (db w) !! _); [|done].
    destruct (negb (String.eqb _ (_id who))); [done|].
    simpl in Hdetail. simplify_eq. by rewrite length_sortDesc.
  - simpl in Hdetail. simplify_eq. by rewrite length_sortDesc.
Qed.

Lemma lead_count_matches_detail_witness :
  ∃ it, customerKey (item it) = acmeId ∧ leadCount it = 1.
Proof.
  set (r := (serve sampleExternals sampleEnv alice (GetCustomers ∅) sampleWorld).1).
  assert (∃ it, listedCustomers r !! 0 = Some it ∧ customerKey (item it) = acmeId)
    as (it & Hit & Hk).
  { vm_compute. eexists. split; reflexivity. }
  exists it. split; [exact Hk|].
  apply (lead_count_matches_detail sampleExternals sampleEnv alice ∅ sampleWorld
           it (populateOwner sampleDb (acmeId, acme)) [(dealId, deal)]).
  - by eapply list_elem_of_lookup_2.
  - rewrite Hk. vm_compute. reflexivity.
  - rewrite Hk. vm_compute. reflexivity.
Defined.

(* ================================================================== *)
(** * The leads of a list, a customer after an update, a round trip *)
(* ================================================================== *)

(** A [status] member that passed [leadFilterSchema] reaches the handler
    unchanged. *)
Lemma leadFilterSchema_status ext query v st :
  validateQuery ext leadFilterSchema query = inr v →
  query !! "status" = Some (JStr st) →
  queryString v "status" = Some st.
Proof.
  intros [Herr ->]%validateQuery_inr Hst.
  destruct (validated_keys ext leadFilterSchema query) as (Hkeys & _);
    [by apply (bool_decide_unpack _); vm_compute|done|].
  destruct (Hkeys leadFilterStatusKey) as [He Hv]; [repeat constructor|].
  simpl in He, Hv.
  apply (validateKey_string ext _ []) in He; [|done].
  rewrite Hst in He, Hv. destruct He as (s & Hs & Hval & _).
  unfold queryString. rewrite Hv, Hval. by simplify_eq.
Qed.

(** X19.  Every lead in the answer to GET /api/customers/:customerId/leads
    is a stored lead of the customer of the path, a customer that exists
    and that the requester may access; when the query names a status, the
    lead has that status. *)
Theorem lead_list_scoped ext env who cid query w v :
  v ∈ listedLeads (serve ext env who (GetLeads cid query) w).1 →
  leads (db w) !! leadKey v = Some (leadDoc v)
  ∧ castObjectId cid = Some (Lead.customerId (leadDoc v))
  ∧ (∃ c, customers (db w) !! Lead.customerId (leadDoc v) = Some c
          ∧ mayAccess who (Customer.ownerId c))
  ∧ (∀ st, query !! "status" = Some (JStr st) → st ≠ EmptyString →
           Lead.status (leadDoc v) = st).
Proof.
  simpl. intros Hin.
  destruct (validateQuery ext leadFilterSchema query) as [e|qv] eqn:Hv;
    simpl in Hin.
  { unfold validateQuery in Hv. destruct (Joi.error _); simplify_eq.
    by apply elem_of_nil in Hin. }
  rewrite listLeads_run in Hin. simpl in Hin.
  destruct (castObjectId cid) as [i|]; [|by apply elem_of_nil in Hin].
  destruct (customers (db w) !! i) as [c|] eqn:Hc; [|by apply elem_of_nil in Hin].
  destruct (accessDenied who (Customer.ownerId c)) eqn:Hden;
    [by apply elem_of_nil in Hin|].
  destruct (queryNumber qv "page"); [|by apply elem_of_nil in Hin].
  destruct (queryNumber qv "limit"); [|by apply elem_of_nil in Hin].
  unfold listedLeads in Hin. simpl in Hin.
  apply list_elem_of_fmap in Hin as ([l x] & -> & Hin).
  apply elem_of_slice, elem_of_sortDesc, selectLeads_elem in Hin as [Hl Hm].
  apply matchesLead_spec in Hm as [Hcust Hstatus]. simpl in *.
  split_and!; try done.
  - by rewrite Hcust.
  - exists c. rewrite Hcust. split; [done|]. by apply accessDenied_false.
  - intros st Hst Hne. apply Hstatus.
    rewrite (leadFilterSchema_status ext query qv st Hv Hst). simpl.
    apply String.eqb_neq in Hne. by rewrite Hne.
Qed.

Lemma lead_list_scoped_witness :
  castObjectId globexId = Some (Lead.customerId offer)
  ∧ Lead.status offer = "Contacted".
Proof.
  destruct (lead_list_scoped sampleExternals sampleEnv bob globexId
              {[ "status" := JStr "Contacted" ]} sampleWorld
              (populateCustomer sampleDb (offerId, offer)))
    as (_ & Hc & _ & Hs).
  - vm_compute. apply list_elem_of_here.
  - split; [exact Hc|]. by apply Hs.
Defined.

Lemma updatePath_inr {A : Type} v set valid (wrap : string → A) o :
  Customer.updatePath v set valid wrap = inr o →
  match v with
  | None => o = None
  | Some x => ∃ s, x = JStr s ∧ o = Some (wrap (set s)) ∧ valid (set s) = true
  end.
Proof.
  unfold Customer.updatePath. destruct v as [[s| | |]|]; simpl; try done.
  - destruct (valid (set s)) eqn:E; [|done]. intros [= <-]. eauto.
  - by intros [= <-].
Qed.

Lemma castUpdate_customer_fields v ch :
  Customer.castUpdate v = inr ch →
  (∀ s, v !! "name" = Some (JStr s) →
        Customer.newName ch = Some (trim s))
  ∧ (∀ s, v !! "email" = Some (JStr s) →
          Customer.newEmail ch = Some (trim (toLowerCase s))
          ∧ Customer.validEmail (trim (toLowerCase s)) = true)
  ∧ (v !! "phone" = None → Customer.newPhone ch = None)
  ∧ (v !! "company" = None → Customer.newCompany ch = None).
Proof.
  unfold Customer.castUpdate.
  destruct (Customer.updatePath (v !! "name") _ _ _) as [|n] eqn:Hn; [done|].
  destruct (Customer.updatePath (v !! "email") _ _ _) as [|e] eqn:He; [done|].
  destruct (Customer.updatePath (v !! "phone") _ _ _) as [|p] eqn:Hp; [done|].
  destruct (Customer.updatePath (v !! "company") _ _ _) as [|c] eqn:Hco; [done|].
  destruct (Customer.updateRef (v !! "ownerId")) as [|o]; [done|].
  intros [= <-]. simpl.
  apply updatePath_inr in Hn, He, Hp, Hco.
  split_and!.
  - intros s Hs. rewrite Hs in Hn. destruct Hn as (s' & ? & -> & _).
    by simplify_eq.
  - intros s Hs. rewrite Hs in He. destruct He as (s' & ? & -> & Hok).
    by simplify_eq.
  - intros Hnone. by rewrite Hnone in Hp.
  - intros Hnone. by rewrite Hnone in Hco.
Qed.

(** The members of a body that passed [customerSchema], beside their
    converted values. *)
Lemma customerSchema_members ext body v :
  validate ext customerSchema body = inr v →
  (∃ n, body !! "name" = Some (JStr n) ∧ v !! "name" = Some (JStr (trim n)))
  ∧ (∃ e, body !! "email" = Some (JStr e)
          ∧ v !! "email" = Some (JStr (trim (toLowerCase e))))
  ∧ (body !! "phone" = None → v !! "phone" = None)
  ∧ (body !! "company" = None → v !! "company" = None).
Proof.
  intros [Herr ->]%validate_inr.
  destruct (validated_keys ext customerSchema body) as (Hkeys & _);
    [by apply (bool_decide_unpack _); vm_compute|done|].
  simpl in Hkeys.
  destruct (Hkeys customerNameKey) as [Hne Hnv]; [repeat constructor|].
  destruct (Hkeys customerEmailKey) as [Hee Hev]; [repeat constructor|].
  simpl in Hne, Hnv, Hee, Hev.
  apply (validateKey_string ext _ [Joi.trim_; Joi.min 2; Joi.max 100]) in Hne;
    [|done].
  apply (validateKey_string ext _ [Joi.email; Joi.lowercase; Joi.trim_]) in Hee;
    [|done].
  split_and!.
  - destruct (body !! "name") as [xn|]; [|by destruct Hne].
    destruct Hne as (bn & -> & Hbn & _). exists bn. by rewrite Hnv, Hbn.
  - destruct (body !! "email") as [xe|]; [|by destruct Hee].
    destruct Hee as (be & -> & Hbe & _). exists be. by rewrite Hev, Hbe.
  - intros Hnone.
    apply (validated_absent ext customerSchema body customerPhoneKey);
      [by apply (bool_decide_unpack _); vm_compute|done|repeat constructor|done].
  - intros Hnone.
    apply (validated_absent ext customerSchema body customerCompanyKey);
      [by apply (bool_decide_unpack _); vm_compute|done|repeat constructor|done].
Qed.

(** X20.  A 200 from PUT /api/customers/:id rewrote the customer of the
    path: its name and email are the trimmed (and, for the email,
    lower-cased) members of the body, the email passes the pattern of the
    model, [updatedAt] is the current time, and --- the update document
    holding only what the body holds --- a phone or company that the body
    omits stays as it was. *)
Theorem updated_customer ext env who id body w resp w' :
  serve ext env who (PutCustomer id body) w = (resp, w') →
  status resp = 200%Z →
  ∃ i c c' n e,
    castObjectId id = Some i
    ∧ customers (db w) !! i = Some c
    ∧ customers (db w') = <[i := c']> (customers (db w))
    ∧ body !! "name" = Some (JStr n) ∧ Customer.name c' = trim n
    ∧ body !! "email" = Some (JStr e)
    ∧ Customer.email c' = trim (toLowerCase e)
    ∧ Customer.validEmail (Customer.email c') = true
    ∧ (body !! "phone" = None → Customer.phone c' = Customer.phone c)
    ∧ (body !! "company" = None → Customer.company c' = Customer.company c)
    ∧ Customer.updatedAt c' = now env
    ∧ payload resp
      = CustomerData (Some (populateOwner (db w') (i, c')))
                     "Customer updated successfully".
Proof.
  simpl. intros Hrun Hst.
  destruct (validate ext customerSchema body) as [r|v] eqn:Hv; simpl in Hrun.
  { simplify_eq. apply validate_inl_status in Hv. congruence. }
  rewrite updateCustomer_run in Hrun. simpl in Hrun.
  destruct (castObjectId id) as [i|]; [|by simplify_eq].
  destruct (customers (db w) !! i) as [c|] eqn:Hc; [|by simplify_eq].
  destruct (accessDenied who (Customer.ownerId c)); [by simplify_eq|].
  destruct (Customer.castUpdate v) as [x|ch] eqn:Hch.
  { simplify_eq. simpl in Hst. destruct (isCastError x); [done|].
    by destruct (hasCode x 11000). }
  simplify_eq. simpl.
  destruct (customerSchema_members ext body v Hv)
    as ((n & Hbn & Hvn) & (e & Hbe & Hve) & Hph & Hco).
  destruct (castUpdate_customer_fields v ch Hch) as (Hn & He & Hp & Hc').
  specialize (Hn _ Hvn). destruct (He _ Hve) as [He1 He2].
  exists i, c, (Customer.update ch (now env) c), n, e.
  split_and!; try done; simpl.
  - by rewrite Hn, trim_idemp.
  - by rewrite He1, toLowerCase_trim, toLowerCase_idemp, trim_idemp.
  - by rewrite He1.
  - intros Hnone. by rewrite (Hp (Hph Hnone)).
  - intros Hnone. by rewrite (Hc' (Hco Hnone)).
Qed.

Lemma updated_customer_witness :
  ∃ c' n e,
    Customer.name c' = trim n
    ∧ Customer.email c' = trim (toLowerCase e)
    ∧ Customer.validEmail (Customer.email c') = true.
Proof.
  destruct (updated_customer sampleExternals sampleEnv alice acmeId
              {[ "name" := JStr " Acme Ltd "; "email" := JStr "Sales@Acme.com" ]}
              sampleWorld _ _ (surjective_pairing _))
    as (i & c & c' & n & e & _ & _ & _ & _ & Hn & _ & He & Hok & _).
  - vm_compute. reflexivity.
  - exists c', n, e. split_and!; assumption.
Defined.

(** X21.  A customer that POST /api/customers has just created can be
    fetched under the generated id by its creator (an administrator, or a
    stored user): GET /api/customers/:id answers 200 with the customer that
    the 201 carried and with the leads stored under that id. *)
Theorem created_customer_fetched ext env who body w resp w' :
  serve ext env who (PostCustomer body) w = (resp, w') →
  status resp = 201%Z →
  castObjectId (newId env) = Some (newId env) →
  role who = "admin" ∨ is_Some (users (db w) !! _id who) →
  ∃ v ls,
    payload resp = CustomerData (Some v) "Customer created successfully"
    ∧ (serve ext env who (GetCustomer (newId env)) w').1
      = {| status := 200; payload := CustomerDetail v ls |}
    ∧ (∀ l x, (l, x) ∈ ls ↔
              leads (db w) !! l = Some x ∧ Lead.customerId x = newId env).
Proof.
  simpl. intros Hrun Hst Hid Hwho.
  destruct (validate ext customerSchema body) as [r|v] eqn:Hv; simpl in Hrun.
  { simplify_eq. apply validate_inl_status in Hv. congruence. }
  rewrite createCustomer_run in Hrun. simpl in Hrun.
  destruct (Customer.create v (_id who) (now env)) as [x|c] eqn:Hc.
  { simplify_eq. by destruct (hasCode x 11000). }
  destruct (customers (db w) !! newId env) eqn:Hfresh; [by simplify_eq|].
  simplify_eq. simpl.
  destruct (create_customer_fields _ _ _ _ Hc) as (Ho & _).
  eexists _, _. split; [reflexivity|].
  rewrite getCustomer_run. simpl. rewrite Hid, lookup_insert_eq, Ho.
  split.
  - destruct Hwho as [->|[u Hu]]; [done|].
    destruct (negb (String.eqb (role who) "admin")); [|done].
    by rewrite Hu, String.eqb_refl.
  - intros l x.
    rewrite elem_of_sortDesc, selectLeads_elem, matchesLead_spec. simpl.
    split; [by intros (? & ? & _)|]. intros [? ?]. by split_and!.
Qed.

Lemma created_customer_fetched_witness :
  ∃ v ls,
    (serve sampleExternals sampleEnv bob (GetCustomer (newId sampleEnv))
       (serve sampleExternals sampleEnv bob
          (PostCustomer {[ "name" := JStr "Tweety";
                           "email" := JStr "tweety@acme.com" ]})
          sampleWorld).2).1
    = {| status := 200; payload := CustomerDetail v ls |}.
Proof.
  destruct (created_customer_fetched sampleExternals sampleEnv bob
              {[ "name" := JStr "Tweety"; "email" := JStr "tweety@acme.com" ]}
              sampleWorld _ _ (surjective_pairing _))
    as (v & ls & _ & Hget & _).
  - vm_compute. reflexivity.
  - vm_compute. reflexivity.
  - right. vm_compute. eauto.
  - exists v, ls. exact Hget.
Defined.

(* ================================================================== *)
(** * What a run of requests preserves *)
(* ================================================================== *)

Lemma serve_effect ext env who r w :
  Effect env who (db w) (db (serve ext env who r w).2).
Proof.
  destruct r as [body|query|id|id body|id|c body|c query|c l|c l body|c l]; simpl.
  - destruct (validate ext customerSchema body) as [e|v]; simpl; [constructor|].
    rewrite createCustomer_run. simpl.
    destruct (Customer.create v (_id who) (now env)) as [x|c] eqn:Hc;
      [constructor|].
    destruct (customers (db w) !! newId env) eqn:Hfresh; [constructor|].
    simpl. by eapply CustomerCreated.
  - destruct (serve_frame ext env who (GetCustomers query) w) as (_ & _ & H & _).
    simpl in H. rewrite H by done. constructor.
  - destruct (serve_frame ext env who (GetCustomer id) w) as (_ & _ & H & _).
    simpl in H. rewrite H by done. constructor.
  - destruct (validate ext customerSchema body) as [e|v] eqn:Hv; simpl;
      [constructor|].
    apply customerSchema_validated in Hv as (_ & _ & _ & _ & Hfresh).
    rewrite updateCustomer_run. simpl.
    destruct (castObjectId id) as [i|]; [|constructor].
    destruct (customers (db w) !! i) as [c|] eqn:Hc; [|constructor].
    destruct (accessDenied who (Customer.ownerId c)); [constructor|].
    destruct (Customer.castUpdate v) as [x|ch] eqn:Hch; [constructor|].
    simpl. eapply CustomerUpdated; [done|done|].
    apply (castUpdate_owner v ch Hch), Hfresh.
    by apply (bool_decide_unpack _); vm_compute.
  - rewrite deleteCustomer_run. simpl.
    destruct (castObjectId id) as [i|]; [|constructor].
    destruct (customers (db w) !! i) as [c|]; [|constructor].
    destruct (accessDenied who (Customer.ownerId c)); constructor.
  - destruct (validate ext leadSchema body) as [e|v]; simpl; [constructor|].
    rewrite createLead_run. simpl.
    destruct (castObjectId c) as [i|]; [|constructor].
    destruct (customers (db w) !! i) as [cu|] eqn:Hc; [|constructor].
    destruct (accessDenied who (Customer.ownerId cu)); [constructor|].
    destruct (Lead.create v i (now env)) as [x|l] eqn:Hl; [constructor|].
    destruct (leads (db w) !! newId env) eqn:Hfresh; [constructor|].
    simpl. by eapply LeadCreated.
  - destruct (serve_frame ext env who (GetLeads c query) w) as (_ & _ & H & _).
    simpl in H. rewrite H by done. constructor.
  - destruct (serve_frame ext env who (GetLead c l) w) as (_ & _ & H & _).
    simpl in H. rewrite H by done. constructor.
  - destruct (validate ext leadSchema body) as [e|v] eqn:Hv; simpl;
      [constructor|].
    apply leadSchema_validated in Hv as (_ & _ & _ & _ & Hfresh).
    rewrite updateLead_run. simpl.
    destruct (castObjectId c) as [i|]; [|constructor].
    destruct (customers (db w) !! i) as [cu|]; [|constructor].
    destruct (accessDenied who (Customer.ownerId cu)); [constructor|].
    destruct (castObjectId l) as [j|]; [|constructor].
    destruct (Lead.castUpdate v) as [x|ch] eqn:Hch; [constructor|].
    destruct (lookupLead (db w) j i) as [x|] eqn:Hx; [|constructor].
    simpl. unfold lookupLead in Hx.
    destruct (leads (db w) !! j) as [y|] eqn:Hy; [|done].
    destruct (String.eqb (Lead.customerId y) i); [|done]. simplify_eq.
    eapply LeadUpdated; [done|done|].
    destruct (castUpdate_lead_fields _ _ Hch) as (_ & _ & Hcid).
    apply Hcid, Hfresh. by apply (bool_decide_unpack _); vm_compute.
  - rewrite deleteLead_run. simpl.
    destruct (castObjectId c) as [i|]; [|constructor].
    destruct (customers (db w) !! i) as [cu|]; [|constructor].
    destruct (accessDenied who (Customer.ownerId cu)); [constructor|].
    destruct (castObjectId l) as [j|]; [|constructor].
    destruct (lookupLead (db w) j i); constructor.
Qed.

Lemma serveAll_invariant ext (P : Db → Prop) :
  (∀ env who d d', Effect env who d d' → P d → P d') →
  ∀ rs w, P (db w) → P (db (serveAll ext rs w)).
Proof.
  intros Hstep rs. induction rs as [|[[env who] r] rs IH]; intros w Hw; [done|].
  simpl. apply IH. eapply Hstep; [apply (serve_effect ext env who r w)|done].
Qed.

Lemma effect_attached env who d d' :
  Effect env who d d' → leadsAttached d → leadsAttached d'.
Proof.
  intros He Hd.
  destruct He as [|v c Hc Hfresh|i c v ch Hc Hch Ho|i|i c v l Hc Hl Hfresh
                 |j x v ch Hx Hch Ho|j]; intros k y Hk; simpl in *.
  - by eapply Hd.
  - apply lookup_insert_is_Some'. right. by eapply Hd.
  - apply lookup_insert_is_Some'. right. by eapply Hd.
  - apply map_lookup_filter_Some in Hk as [Hk Hne]. simpl in Hne.
    rewrite lookup_delete_ne by done. by eapply Hd.
  - apply lookup_insert_Some in Hk as [[_ <-]|[_ Hk]]; [|by eapply Hd].
    destruct (create_lead_fields _ _ _ _ Hl) as [-> _]. eauto.
  - apply lookup_insert_Some in Hk as [[_ <-]|[_ Hk]]; [|by eapply Hd].
    simpl. rewrite Ho. simpl. by eapply Hd.
  - apply lookup_delete_Some in Hk as [_ Hk]. by eapply Hd.
Qed.

(** X22.  No request leaves a lead behind without its customer: when the
    requests are served one after the other, if every stored lead belongs
    to a stored customer before a run of requests --- as in the empty
    database --- then so it is after it, whoever asks and whatever is
    answered. *)
Theorem leads_stay_attached ext rs w :
  (leadsAttached (db w) → leadsAttached (db (serveAll ext rs w)))
  ∧ leadsAttached (db (serveAll ext rs {| db := emptyDb; calls := [] |})).
Proof.
  split.
  - apply (serveAll_invariant ext leadsAttached). apply effect_attached.
  - apply (serveAll_invariant ext leadsAttached); [apply effect_attached|].
    intros l x Hl. simpl in Hl. by rewrite lookup_empty in Hl.
Qed.

Lemma leads_stay_attached_witness :
  leadsAttached
    (db (serveAll sampleExternals
           [(sampleEnv, alice,
             PostCustomer {[ "name" := JStr "Tweety";
                             "email" := JStr "tweety@acme.com" ]});
            (sampleEnv, alice, DeleteCustomer (newId sampleEnv))]
           {| db := emptyDb; calls := [] |})).
Proof.
  exact (proj2 (leads_stay_attached sampleExternals
                  [(sampleEnv, alice,
                    PostCustomer {[ "name" := JStr "Tweety";
                                    "email" := JStr "tweety@acme.com" ]});
                   (sampleEnv, alice, DeleteCustomer (newId sampleEnv))]
                  sampleWorld)).
Defined.

Lemma create_customer_valid v o t c :
  Customer.create v o t = inr c → validCustomer c.
Proof.
  unfold Customer.create, Customer.requiredPath, Customer.optionalPath.
  intros H. repeat case_match; simplify_eq;
    unfold validCustomer; simpl; split_and!; try done;
    by intros ? [= <-].
Qed.

Lemma updatePath_valid {A : Type} v set valid (wrap : string → A) o
    (P : A → Prop) :
  Customer.updatePath v set valid wrap = inr o →
  (∀ s, valid s = true → P (wrap s)) →
  ∀ a, o = Some a → P a.
Proof.
  intros H HP a ->. apply updatePath_inr in H.
  destruct v as [x|]; [|done].
  destruct H as (s & _ & [= ->] & Hok). by apply HP.
Qed.

Lemma update_customer_valid v ch t c :
  Customer.castUpdate v = inr ch → validCustomer c →
  validCustomer (Customer.update ch t c).
Proof.
  unfold Customer.castUpdate. intros H (Hn & He & Hp & Hc).
  destruct (Customer.updatePath (v !! "name") _ _ _) as [|n] eqn:En; [done|].
  destruct (Customer.updatePath (v !! "email") _ _ _) as [|e] eqn:Ee; [done|].
  destruct (Customer.updatePath (v !! "phone") _ _ _) as [|p] eqn:Ep; [done|].
  destruct (Customer.updatePath (v !! "company") _ _ _) as [|co] eqn:Eco; [done|].
  destruct (Customer.updateRef (v !! "ownerId")) as [|o]; [done|].
  simplify_eq. unfold validCustomer. simpl. split_and!.
  - destruct n as [n|]; [|done].
    by apply (updatePath_valid _ _ _ _ _
                (λ s, Customer.validName s = true) En).
  - destruct e as [e|]; [|done].
    by apply (updatePath_valid _ _ _ _ _
                (λ s, Customer.validEmail s = true) Ee).
  - destruct p as [p|]; [|done].
    apply (updatePath_valid _ _ _ _ _
             (λ o, ∀ s, o = Some s → Customer.validPhone s = true) Ep);
      [|done].
    by intros s Hs ? [= <-].
  - destruct co as [co|]; [|done].
    apply (updatePath_valid _ _ _ _ _
             (λ o, ∀ s, o = Some s → Customer.validCompany s = true) Eco);
      [|done].
    by intros s Hs ? [= <-].
Qed.

Lemma create_lead_valid v i t l :
  Lead.create v i t = inr l → validLead l.
Proof.
  unfold Lead.create, Customer.requiredPath, Customer.optionalPath,
    Lead.defaultedPath.
  intros H. repeat case_match; simplify_eq;
    unfold validLead; simpl; split_and!; try done;
    by intros ? [= <-].
Qed.

Lemma updateCast_valid {A : Type} v (cast : JsValue → option A) valid a :
  Lead.updateCast v cast valid = inr (Some a) → valid a = true.
Proof.
  unfold Lead.updateCast. destruct v as [x|]; [|done].
  destruct (cast x) as [y|]; [|done].
  destruct (valid y) eqn:E; [|done]. by intros [= <-].
Qed.

Lemma update_lead_valid v ch t x :
  Lead.castUpdate v = inr ch → validLead x →
  validLead (Lead.update ch t x).
Proof.
  unfold Lead.castUpdate. intros H (Ht & Hd & Hs & Hv).
  destruct (Customer.updatePath (v !! "title") _ _ _) as [|ti] eqn:Et; [done|].
  destruct (Customer.updatePath (v !! "description") _ _ _) as [|ds] eqn:Ed;
    [done|].
  destruct (Lead.updateCast (v !! "status") _ _) as [|s] eqn:Es; [done|].
  destruct (Lead.updateCast (v !! "value") _ _) as [|q] eqn:Eq; [done|].
  destruct (Customer.updateRef (v !! "customerId")) as [|o]; [done|].
  simplify_eq. unfold validLead. simpl. split_and!.
  - destruct ti as [ti|]; [|done].
    by apply (updatePath_valid _ _ _ _ _
                (λ s, Lead.validTitle s = true) Et).
  - destruct ds as [ds|]; [|done].
    apply (updatePath_valid _ _ _ _ _
             (λ o, ∀ s, o = Some s → Lead.validDescription s = true) Ed);
      [|done].
    by intros s' Hs' ? [= <-].
  - destruct s as [s|]; [|done]. by apply updateCast_valid in Es.
  - destruct q as [q|]; [|done]. by apply updateCast_valid in Eq.
Qed.

Lemma effect_valid env who d d' :
  Effect env who d d' → validDb d → validDb d'.
Proof.
  intros He [Hcs Hls].
  destruct He as [|v c Hc Hfresh|i c v ch Hc Hch Ho|i|i c v l Hc Hl Hfresh
                 |j x v ch Hx Hch Ho|j]; split; simpl;
    try done; intros k y Hk.
  - apply lookup_insert_Some in Hk as [[_ <-]|[_ Hk]]; [|by eapply Hcs].
    by eapply create_customer_valid.
  - apply lookup_insert_Some in Hk as [[_ <-]|[_ Hk]]; [|by eapply Hcs].
    eapply update_customer_valid; [done|]. by eapply Hcs.
  - apply lookup_delete_Some in Hk as [_ Hk]. by eapply Hcs.
  - apply map_lookup_filter_Some in Hk as [Hk _]. by eapply Hls.
  - apply lookup_insert_Some in Hk as [[_ <-]|[_ Hk]]; [|by eapply Hls].
    by eapply create_lead_valid.
  - apply lookup_insert_Some in Hk as [[_ <-]|[_ Hk]]; [|by eapply Hls].
    eapply update_lead_valid; [done|]. by eapply Hls.
  - apply lookup_delete_Some in Hk as [_ Hk]. by eapply Hls.
Qed.

(** X23.  What is stored passes the validators of the models: when the
    requests are served one after the other, if every stored customer has a
    name of 1 to 100 characters, an email that matches the pattern, a phone
    of at most 20 and a company of at most 100 characters, and every stored
    lead a title of 1 to 200 characters, a description of at most 1000, a
    status among the four and a value that is not negative, before a run of
    requests --- as in the empty database --- then so it is after it. *)
Theorem stored_documents_stay_valid ext rs w :
  (validDb (db w) → validDb (db (serveAll ext rs w)))
  ∧ validDb (db (serveAll ext rs {| db := emptyDb; calls := [] |})).
Proof.
  split.
  - apply (serveAll_invariant ext validDb). apply effect_valid.
  - apply (serveAll_invariant ext validDb); [apply effect_valid|].
    split; intros k x Hk; simpl in Hk; by rewrite lookup_empty in Hk.
Qed.

Lemma stored_documents_stay_valid_witness :
  validDb
    (db (serveAll sampleExternals
           [(sampleEnv, bob,
             PostCustomer {[ "name" := JStr "Tweety";
                             "email" := JStr "tweety@acme.com" ]});
            (sampleEnv, bob,
             PutCustomer (newId sampleEnv)
               {[ "name" := JStr "Sylvester";
                  "email" := JStr "sylvester@acme.com" ]})]
           {| db := emptyDb; calls := [] |})).
Proof.
  exact (proj2 (stored_documents_stay_valid sampleExternals
                  [(sampleEnv, bob,
                    PostCustomer {[ "name" := JStr "Tweety";
                                    "email" := JStr "tweety@acme.com" ]});
                   (sampleEnv, bob,
                    PutCustomer (newId sampleEnv)
                      {[ "name" := JStr "Sylvester";
                         "email" := JStr "sylvester@acme.com" ]})]
                  sampleWorld)).
Defined.

(* ================================================================== *)
(** * The ownership gate *)
(* ================================================================== *)

(** Mongoose accepts the update of a customer whose body passed
    [validate(customerSchema)] as soon as the email matches the pattern of
    the schema. *)
Lemma customerSchema_castUpdate ext body v :
  validate ext customerSchema body = inr v →
  (∀ e, v !! "email" = Some (JStr e) → Customer.validEmail e = true) →
  ∃ ch, Customer.castUpdate v = inr ch.
Proof.
  intros (Hn & He & Hp & Hc & Hfresh)%customerSchema_validated Hvalid.
  destruct Hn as (n & Hn & Hnt & Hne & Hnl).
  destruct He as (e & He & Het & Hel & _).
  specialize (Hvalid e He).
  unfold Customer.castUpdate, Customer.updatePath, Customer.updateRef.
  rewrite Hn, He. simpl.
  unfold Customer.setName, Customer.setEmail, Customer.validName.
  rewrite Hnt, Hel, Het, Hvalid.
  apply String.eqb_neq in Hne. rewrite Hne. simpl.
  replace (String.length n <=? 100) with true
    by (symmetry; apply Nat.leb_le; lia).
  rewrite (Hfresh "ownerId") by (by apply (bool_decide_unpack _); vm_compute).
  destruct Hp as [Hp|(p & Hp & Hpt & Hpl)], Hc as [Hc|(c & Hc & Hct & Hcl)];
    rewrite Hp, Hc; simpl;
    unfold Customer.setPhone, Customer.validPhone, Customer.setCompany,
      Customer.validCompany; rewrite ?Hpt, ?Hct;
    repeat match goal with
    | |- context [?a <=? ?b] =>
        replace (a <=? b) with true by (symmetry; apply Nat.leb_le; lia)
    end; eauto.
Qed.

(** Two requests by someone who may not access the customer that are not
    answered 403: a PUT with an empty body, which is refused with 400 before
    the ownership test, and a GET of a customer whose owner is not a stored
    user, where the test itself throws and the answer is 500. *)
Lemma denied_without_403 :
  castObjectId acmeId = Some acmeId
  ∧ customers sampleDb !! acmeId = Some acme
  ∧ ¬ mayAccess bob (Customer.ownerId acme)
  ∧ status (serve sampleExternals sampleEnv bob
              (PutCustomer acmeId ∅) sampleWorld).1 = 400%Z
  ∧ status (serve sampleExternals sampleEnv bob (GetCustomer acmeId)
              {| db := {| users := ∅; customers := customers sampleDb;
                          leads := leads sampleDb |};
                 calls := [] |}).1 = 500%Z.
Proof.
  split_and!; try (vm_compute; reflexivity).
  intros [H|H]; vm_compute in H; discriminate.
Qed.

(** C1, amended.  On every by-id customer or lead request whose body or
    query passes the schema of its route, when the customer of the path
    exists --- and, for GET /api/customers/:id asked by someone who is not
    an administrator, when its owner is a stored user: an administrator and
    the owner are let through, that is, they are never answered 403, and the
    request is carried out (200 or 201) whenever nothing but the ownership
    could stand in its way; anyone else is answered 403 "Access denied" and
    the database is left as it was. *)
Theorem ownership_gate ext env who r w id i c :
  targetCustomer r = Some id →
  schemaErrors ext r = [] →
  castObjectId id = Some i →
  customers (db w) !! i = Some c →
  (r = GetCustomer id → role who ≠ "admin" →
     is_Some (users (db w) !! Customer.ownerId c)) →
  (mayAccess who (Customer.ownerId c) →
     status (serve ext env who r w).1 ≠ 403%Z
     ∧ (operable env r (db w) → succeeded (serve ext env who r w).1))
  ∧ (¬ mayAccess who (Customer.ownerId c) →
     (serve ext env who r w).1 = fail 403 "Access denied"
     ∧ db (serve ext env who r w).2 = db w).
Proof.
  intros Ht Herr Hi Hc Howner.
  assert (Hgate : (mayAccess who (Customer.ownerId c) →
                     accessDenied who (Customer.ownerId c) = false)
                  ∧ (¬ mayAccess who (Customer.ownerId c) →
                     accessDenied who (Customer.ownerId c) = true)).
  { split; [apply accessDenied_false|apply accessDenied_true]. }
  destruct Hgate as [Hyes Hno].
  unfold schemaErrors, succeeded in *.
  destruct r as [body|query|id'|id' body|id'|cid body|cid query|cid lid
                |cid lid body|cid lid];
    simpl in Ht, Herr; simplify_eq; simpl.
  - (* GET /:id *)
    rewrite getCustomer_run. simpl. rewrite Hi, Hc.
    split.
    + intros Hmay. destruct (String.eqb (role who) "admin") eqn:Hrole; simpl.
      { split; [done|]. by left. }
      apply String.eqb_neq in Hrole.
      destruct (Howner eq_refl Hrole) as [u ->].
      destruct Hmay as [Hadm|Hown]; [done|].
      rewrite Hown, String.eqb_refl. simpl. split; [done|]. by left.
    + intros Hn. specialize (Hno Hn). unfold accessDenied in Hno.
      apply andb_true_iff in Hno as [Hrole Hown].
      rewrite Hrole. apply negb_true_iff, String.eqb_neq in Hrole.
      destruct (Howner eq_refl Hrole) as [u ->]. by rewrite Hown.
  - (* PUT /:id *)
    pose proof (schemaErrors_validate _ _ _ Herr) as Hv. rewrite Hv. simpl.
    rewrite updateCustomer_run. simpl. rewrite Hi, Hc.
    split; intros H; [rewrite (Hyes H)|by rewrite (Hno H)].
    split.
    + destruct (Customer.castUpdate _) as [e|ch]; simpl; [|done].
      destruct (isCastError e); [done|]. by destruct (hasCode e 11000).
    + intros Hop.
      destruct (customerSchema_castUpdate ext body _ Hv) as [ch ->];
        [|by left].
      intros e He.
      destruct (customerSchema_members ext body _ Hv)
        as (_ & (e' & Hbe & Hve) & _).
      rewrite He in Hve. simplify_eq. by apply Hop.
  - (* DELETE /:id *)
    rewrite deleteCustomer_run. simpl. rewrite Hi, Hc.
    split; intros H; [rewrite (Hyes H)|by rewrite (Hno H)].
    split; [done|]. by left.
  - (* POST leads *)
    pose proof (schemaErrors_validate _ _ _ Herr) as Hv. rewrite Hv. simpl.
    rewrite createLead_run. simpl. rewrite Hi, Hc.
    split; intros H; [rewrite (Hyes H)|by rewrite (Hno H)].
    split.
    + destruct (Lead.create _ _ _) as [e|l]; simpl.
      * by destruct (isCastError e).
      * by destruct (leads (db w) !! newId env).
    + intros Hfree.
      destruct (leadSchema_create ext body _ i (now env) Hv) as (l & -> & _).
      rewrite Hfree. by right.
  - (* GET leads *)
    pose proof (schemaErrors_validateQuery _ _ _ Herr) as Hv. rewrite Hv. simpl.
    rewrite listLeads_run. simpl. rewrite Hi, Hc.
    split; intros H; [rewrite (Hyes H)|by rewrite (Hno H)].
    destruct (leadFilterSchema_validated ext query _ Hv)
      as ((p & l & P & L & -> & -> & _) & _).
    split; [done|]. by left.
  - (* GET lead *)
    rewrite getLead_run. simpl. rewrite Hi, Hc.
    split; intros H; [rewrite (Hyes H)|by rewrite (Hno H)].
    split.
    + destruct (castObjectId lid); [|done]. by destruct (lookupLead _ _ _).
    + intros (j & x & -> & Hx & Hcx). unfold lookupLead. rewrite Hx.
      assert (Lead.customerId x = i) as -> by congruence.
      rewrite String.eqb_refl. by left.
  - (* PUT lead *)
    pose proof (schemaErrors_validate _ _ _ Herr) as Hv. rewrite Hv. simpl.
    rewrite updateLead_run. simpl. rewrite Hi, Hc.
    split; intros H; [rewrite (Hyes H)|by rewrite (Hno H)].
    split.
    + destruct (castObjectId lid); [|done].
      destruct (Lead.castUpdate _) as [e|ch]; simpl.
      * by destruct (isCastError e).
      * by destruct (lookupLead _ _ _).
    + intros (j & x & -> & Hx & Hcx).
      destruct (leadSchema_castUpdate ext body _ Hv) as (ch & -> & _).
      unfold lookupLead. rewrite Hx.
      assert (Lead.customerId x = i) as -> by congruence.
      rewrite String.eqb_refl. by left.
  - (* DELETE lead *)
    rewrite deleteLead_run. simpl. rewrite Hi, Hc.
    split; intros H; [rewrite (Hyes H)|by rewrite (Hno H)].
    split.
    + destruct (castObjectId lid); [|done]. by destruct (lookupLead _ _ _).
    + intros (j & x & -> & Hx & Hcx). unfold lookupLead. rewrite Hx.
      assert (Lead.customerId x = i) as -> by congruence.
      rewrite String.eqb_refl. by left.
Qed.

Lemma ownership_gate_witness :
  ((serve sampleExternals sampleEnv bob (DeleteCustomer acmeId)
      {| db := {| users := ∅; customers := customers sampleDb;
                  leads := leads sampleDb |};
         calls := [] |}).1
   = fail 403 "Access denied")
  ∧ succeeded (serve sampleExternals sampleEnv alice (GetLead acmeId dealId)
                 sampleWorld).1.
Proof.
  split.
  - apply (ownership_gate sampleExternals sampleEnv bob (DeleteCustomer acmeId)
             {| db := {| users := ∅; customers := customers sampleDb;
                         leads := leads sampleDb |};
                calls := [] |} acmeId acmeId acme).
    + reflexivity.
    + reflexivity.
    + vm_compute. reflexivity.
    + vm_compute. reflexivity.
    + discriminate.
    + intros [H|H]; vm_compute in H; discriminate.
  - apply (ownership_gate sampleExternals sampleEnv alice (GetLead acmeId dealId)
             sampleWorld acmeId acmeId acme).
    + reflexivity.
    + reflexivity.
    + vm_compute. reflexivity.
    + vm_compute. reflexivity.
    + discriminate.
    + right. reflexivity.
    + exists dealId, deal. split_and!; vm_compute; reflexivity.
Defined.
